(** * Ravel director: reconciliation engine (pkg/director/director.go)

    A shallow embedding of the director's lifecycle methods ([NewDirector],
    [Start], [Stop], [cleanup], [Err]), of its apply pipeline
    ([reconfigure], [applyConf], [setAddresses], [setIPTables],
    [createErrorLog]) and of its four goroutine loops
    ([causePeriodicWatcherSync], [watches], [arps], [periodic]).

    The methods of [*director] are programs in a small monad [M]: they read
    and write the receiver (state passing), they may panic (nil dereference),
    and every use of a collaborator (IP, IPVS, IPTables, metrics, logger,
    clock, file system, Go runtime) is a visible [call] answered by the
    environment.  Running a program against an environment yields its result,
    the final receiver, and the sequence of calls with their answers. *)

From Stdlib Require Import String Ascii List Bool ZArith NArith Lia.
From Stdlib Require Import Strings.Byte.
From Stdlib Require Import DecimalString Sorted Relations.
Import ListNotations.
Open Scope string_scope.
Open Scope list_scope.

(** ** Data model *)

(** Go's [error] interface, seen through its [Error()] message; a nil error
    is [None]. *)
Definition error := string.

(** [time.Time] and [time.Duration], in nanoseconds. *)
Definition time := Z.

(** Identities handed out by the Go runtime: contexts and channels. *)
Definition ctxId := nat.
Definition chanId := nat.

(** What the director uses from packages that are not part of this file:
    the rule type of pkg/iptables with [iptables.BytesFromRules], the per-VIP
    service definition and the MTU table of the cluster configuration. *)
Class Externals := {
  Rule : Type;
  ServiceDef : Type;
  MTUConf : Type;
  BytesFromRules : list Rule -> list byte
}.

(** [corev1.Node]: the director reads only its name. *)
Record Node := { Name : string }.

(** bgp.AddrKindIPV4 and its sibling. *)
Inductive AddrKind := AddrKindIPV4 | AddrKindIPV6.

(** logrus levels used by the director. *)
Inductive level := DebugLevel | InfoLevel | WarnLevel | ErrorLevel.

(** The goroutines [Start] spawns. *)
Inductive goroutine := Gperiodic | Gwatches | Garps | GcausePeriodicWatcherSync.

Definition colocationModeDisabled := "disabled".
Definition colocationModeIPTables := "iptables".
Definition colocationModeIPVS := "ipvs".

(** The message of Go's runtime error for a nil pointer or nil function. *)
Definition nilDereference :=
  "runtime error: invalid memory address or nil pointer dereference".

(** [%d] of a length. *)
Definition decimal (n : nat) : string := NilZero.string_of_uint (Nat.to_uint n).

Section Director.
Context {ext : Externals}.

(** [types.ClusterConfig].  [Config] and [Config6] are Go maps keyed by VIP;
    the list gives the keys in the order a [range] visits them. *)
Record clusterConfig := {
  Config : list (string * ServiceDef);
  Config6 : list (string * ServiceDef);
  MTUConfig : MTUConf
}.

(** The fields of [watcher.Watcher] the director reads, as they stand during
    one method call.  [ClusterConfig] is a pointer ([arps] compares it with
    nil), [Nodes] a slice. *)
Record Watcher := {
  ClusterConfig : option clusterConfig;
  Nodes : option (list Node)
}.

(** The [director] struct (lines 34-73).  The collaborators [ipvs], [ip],
    [iptables], [logger] and [metrics] are the environment of [call]. *)
Record director := {
  isStarted : bool;
  doneChan : chanId;
  err : option error;
  nodeName : string;
  node : option Node;
  nodeChan : chanId;
  ctxWatch : option ctxId;
  cxlWatch : option ctxId;
  reconfiguring : bool;
  watcher : Watcher;
  doCleanup : bool;
  colocationMode : string;
  forcedReconfigure : bool;
  ctx : ctxId
}.

Definition set_isStarted (v : bool) (d : director) : director :=
  {| isStarted := v; doneChan := doneChan d; err := err d;
     nodeName := nodeName d; node := node d; nodeChan := nodeChan d;
     ctxWatch := ctxWatch d; cxlWatch := cxlWatch d;
     reconfiguring := reconfiguring d; watcher := watcher d;
     doCleanup := doCleanup d; colocationMode := colocationMode d;
     forcedReconfigure := forcedReconfigure d; ctx := ctx d |}.

Definition set_doneChan (v : chanId) (d : director) : director :=
  {| isStarted := isStarted d; doneChan := v; err := err d;
     nodeName := nodeName d; node := node d; nodeChan := nodeChan d;
     ctxWatch := ctxWatch d; cxlWatch := cxlWatch d;
     reconfiguring := reconfiguring d; watcher := watcher d;
     doCleanup := doCleanup d; colocationMode := colocationMode d;
     forcedReconfigure := forcedReconfigure d; ctx := ctx d |}.

Definition set_reconfiguring (v : bool) (d : director) : director :=
  {| isStarted := isStarted d; doneChan := doneChan d; err := err d;
     nodeName := nodeName d; node := node d; nodeChan := nodeChan d;
     ctxWatch := ctxWatch d; cxlWatch := cxlWatch d;
     reconfiguring := v; watcher := watcher d;
     doCleanup := doCleanup d; colocationMode := colocationMode d;
     forcedReconfigure := forcedReconfigure d; ctx := ctx d |}.

(** [d.ctxWatch = ctxWatch; d.cxlWatch = cxlWatch]: the cancel function is
    known by the context it cancels. *)
Definition set_watch (c : ctxId) (d : director) : director :=
  {| isStarted := isStarted d; doneChan := doneChan d; err := err d;
     nodeName := nodeName d; node := node d; nodeChan := nodeChan d;
     ctxWatch := Some c; cxlWatch := Some c;
     reconfiguring := reconfiguring d; watcher := watcher d;
     doCleanup := doCleanup d; colocationMode := colocationMode d;
     forcedReconfigure := forcedReconfigure d; ctx := ctx d |}.

(** ** Collaborator calls *)

(** Every interaction of the director with something outside its struct. *)
Inductive call : Type :=
(* system.IP *)
| IPSetARP
| IPGet
| IPCompare4 (configured desired : list string)
| IPDel (addr : string)
| IPAdd (addr : string)
| IPAdvertiseMacAddress (addr : string)
| IPSetMTU (mtu : MTUConf) (flag : bool)
| IPTeardown (c : ctxId) (v4 v6 : list (string * ServiceDef))
(* system.IPVS *)
| IPVSCheckConfigParity (w : Watcher) (cfg : option clusterConfig)
    (addresses : list string)
| IPVSSetIPVS (w : Watcher) (cfg : option clusterConfig) (kind : AddrKind)
| IPVSTeardown (c : ctxId)
(* iptables.IPTables *)
| IPTablesFlush
| IPTablesSave
| IPTablesGenerateRulesForNodeClassic (w : Watcher) (nodeName : string)
    (cfg : option clusterConfig) (useWeighting : bool)
| IPTablesMerge (generated existing : list Rule)
| IPTablesRestore (rules : list Rule)
(* stats.WorkerStateMetrics *)
| MetricsReconfigure (label : string) (elapsed : time)
| MetricsIptablesWriteFailure (v : Z)
(* logrus *)
| Log (lvl : level) (fields : list (string * string)) (msg : string)
(* time, io/ioutil, context, channels, goroutines *)
| TimeNow
| WriteFile (path : string) (data : list byte) (perm : N)
| ContextWithCancel (parent : ctxId)
| ContextWithTimeout (ms : Z)
| CancelCtx (c : ctxId)
| MakeChan (capacity : nat)
| AwaitDoneOrAfter (ch : chanId) (ms : Z)
| Go (g : goroutine).

(** The type of the answer to each call. *)
Definition resp (c : call) : Type :=
  match c with
  | IPSetARP => option error
  | IPGet => list string * list string * option error
  | IPCompare4 _ _ => list string * list string
  | IPDel _ => option error
  | IPAdd _ => option error
  | IPAdvertiseMacAddress _ => option error
  | IPSetMTU _ _ => option error
  | IPTeardown _ _ _ => option error
  | IPVSCheckConfigParity _ _ _ => bool * option error
  | IPVSSetIPVS _ _ _ => option error
  | IPVSTeardown _ => option error
  | IPTablesFlush => option error
  | IPTablesSave => list Rule * option error
  | IPTablesGenerateRulesForNodeClassic _ _ _ _ => list Rule * option error
  | IPTablesMerge _ _ => list Rule * list Rule * option error
  | IPTablesRestore _ => option error
  | MetricsReconfigure _ _ => unit
  | MetricsIptablesWriteFailure _ => unit
  | Log _ _ _ => unit
  | TimeNow => time
  | WriteFile _ _ _ => option error
  | ContextWithCancel _ => ctxId
  | ContextWithTimeout _ => ctxId
  | CancelCtx _ => unit
  | MakeChan _ => chanId
  | AwaitDoneOrAfter _ _ => bool
  | Go _ => unit
  end.

(** A call together with the answer it got. *)
Record event := Ev { ev_call : call; ev_resp : resp ev_call }.

(** ** The monad of director methods *)

(** Programs: a tree of calls, each continued by its answer. *)
Inductive prog (R : Type) : Type :=
| Ret (r : R)
| Vis (c : call) (k : resp c -> prog R).

Fixpoint pbind {A B : Type} (p : prog A) (f : A -> prog B) : prog B :=
  match p with
  | Ret _ a => f a
  | Vis _ c k => Vis _ c (fun x => pbind (k x) f)
  end.

(** A method either returns or panics. *)
Inductive result (R : Type) : Type :=
| Done (r : R)
| Panicking (msg : string).

(** A method of [*director]: from the receiver to a program that ends with
    the result and the receiver as the method left it. *)
Definition M (R : Type) : Type := director -> prog (result R * director).

Definition ret {R : Type} (r : R) : M R := fun d => Ret _ (Done _ r, d).

Definition panic {R : Type} (msg : string) : M R :=
  fun d => Ret _ (Panicking R msg, d).

Definition bind {A B : Type} (m : M A) (f : A -> M B) : M B :=
  fun d =>
    pbind (m d) (fun od =>
      match fst od with
      | Done _ a => f a (snd od)
      | Panicking _ msg => Ret _ (Panicking B msg, snd od)
      end).

Definition perform (c : call) : M (resp c) :=
  fun d => Vis _ c (fun x => Ret _ (Done _ x, d)).

Definition get : M director := fun d => Ret _ (Done _ d, d).

Definition modify (f : director -> director) : M unit :=
  fun d => Ret _ (Done _ tt, f d).

(** [defer deferred; body]: the deferred call runs when the body returns or
    panics, and the body's result stands. *)
Definition defer {R : Type} (deferred : M unit) (body : M R) : M R :=
  fun d =>
    pbind (body d) (fun od =>
      pbind (deferred (snd od)) (fun od' => Ret _ (fst od, snd od'))).

End Director.

Arguments Ret {ext R} r.
Arguments Vis {ext R} c k.
Arguments Done {R} r.
Arguments Panicking {R} msg.

Declare Scope director_scope.
Delimit Scope director_scope with director.
Notation "x <- m ;; k" := (bind m (fun x => k))
  (at level 61, m at next level, right associativity) : director_scope.
Notation "' pat <- m ;; k" := (bind m (fun x => match x with pat => k end))
  (at level 61, pat pattern, m at next level, right associativity) : director_scope.
Notation "m ;; k" := (bind m (fun _ => k))
  (at level 61, right associativity) : director_scope.
Open Scope director_scope.

(** ** The director's code *)

Section Methods.
Context {ext : Externals}.
Local Open Scope string_scope.

(** [d.logger.Debugf], [Info], [Warnf], [Errorf] and the package-level
    [log.Errorln]: one entry of the standard logrus logger. *)
Definition logf (lvl : level) (msg : string) : M unit :=
  perform (Log lvl [] msg).

(** [time.Since(start)]. *)
Definition since (start : time) : M time :=
  now <- perform TimeNow ;;
  ret (now - start)%Z.

(** [d.metrics.Reconfigure(label, time.Since(start))]. *)
Definition metricsReconfigure (label : string) (start : time) : M unit :=
  elapsed <- since start ;;
  perform (MetricsReconfigure label elapsed).

(** [NewDirector] (lines 75-97); [isStarted], [reconfiguring], [node],
    [err], [ctxWatch] and [cxlWatch] keep Go's zero values.  The logger and
    the metrics object it builds are the environment. *)
Definition NewDirector (ctx0 : ctxId) (nodeName0 configKey : string)
    (cleanup0 : bool) (watcher0 : Watcher) (colocationMode0 : string)
    (forcedReconfigure0 : bool) : prog (director * option error) :=
  Vis (MakeChan 0) (fun done =>
  Vis (MakeChan 1) (fun nodes =>
  Ret ({| isStarted := false; doneChan := done; err := None;
          nodeName := nodeName0; node := None; nodeChan := nodes;
          ctxWatch := None; cxlWatch := None;
          reconfiguring := false; watcher := watcher0;
          doCleanup := cleanup0; colocationMode := colocationMode0;
          forcedReconfigure := forcedReconfigure0; ctx := ctx0 |}, None))).

(** [setReconfiguring] (lines 551-555), under the director's mutex. *)
Definition setReconfiguring (v : bool) : M unit :=
  modify (set_reconfiguring v).

(** [Start] (lines 99-149). *)
Definition Start : M (option error) :=
  d <- get ;;
  if isStarted d then
    ret (Some "director: director has already been started. a director instance can only be started once")
  else if reconfiguring d then
    ret (Some "director: unable to Start. reconfiguration already in progress")
  else
    setReconfiguring true ;;
    defer (setReconfiguring false) (
      logf DebugLevel "director: start called" ;;
      (* init *)
      modify (set_isStarted true) ;;
      done <- perform (MakeChan 0) ;;
      modify (set_doneChan done) ;;
      (* set arp rules *)
      e <- perform IPSetARP ;;
      match e with
      | Some e =>
          ret (Some ("director: cleanup - failed to clear arp rules - " ++ e))
      | None =>
          e <- (if String.eqb (colocationMode d) colocationModeIPTables
                then ret None
                else perform IPTablesFlush) ;;
          match e with
          | Some e =>
              ret (Some ("director: cleanup - failed to flush iptables - " ++ e))
          | None =>
              c <- perform (ContextWithCancel (ctx d)) ;;
              modify (set_watch c) ;;
              perform (Go Gperiodic) ;;
              perform (Go Gwatches) ;;
              perform (Go Garps) ;;
              perform (Go GcausePeriodicWatcherSync) ;;
              logf DebugLevel "director: setup complete. director is running" ;;
              ret None
          end
      end).

(** [fmt.Errorf("director: %v", errs)] for a [[]string]: the elements between
    brackets, separated by spaces. *)
Definition joinErrs (errs : list string) : error :=
  "director: [" ++ String.concat " " errs ++ "]".

(** [cleanup] (lines 172-190). *)
Definition cleanup (c : ctxId) : M (option error) :=
  let errs : list string := [] in
  e <- perform IPTablesFlush ;;
  let errs :=
    match e with
    | Some e => app errs ["cleanup - failed to flush iptables - " ++ e]
    | None => errs
    end in
  d <- get ;;
  match ClusterConfig (watcher d) with
  | None => panic nilDereference
  | Some cfg =>
      e <- perform (IPTeardown c (Config cfg) (Config6 cfg)) ;;
      let errs :=
        match e with
        | Some e =>
            app errs ["cleanup - failed to remove ip addresses - " ++ e]
        | None => errs
        end in
      e <- perform (IPVSTeardown c) ;;
      let errs :=
        match e with
        | Some e =>
            app errs ["cleanup - failed to remove existing ipvs config - " ++ e]
        | None => errs
        end in
      match errs with
      | [] => ret None
      | _ => ret (Some (joinErrs errs))
      end
  end.

(** [Stop] (lines 192-219).  [d.cxlWatch()] on a nil function value
    panics. *)
Definition Stop : M (option error) :=
  d <- get ;;
  if reconfiguring d then
    ret (Some "director: unable to Stop. reconfiguration already in progress")
  else
    setReconfiguring true ;;
    defer (setReconfiguring false) (
      (* kill the watcher *)
      match cxlWatch d with
      | None => panic nilDereference
      | Some c => perform (CancelCtx c)
      end ;;
      logf InfoLevel "director: blocking until periodic tasks complete" ;;
      perform (AwaitDoneOrAfter (doneChan d) 5000) ;;
      (* remove config VIP addresses from the compute interface *)
      ctxDestroy <- perform (ContextWithTimeout 5000) ;;
      defer (perform (CancelCtx ctxDestroy)) (
        if doCleanup d then
          e <- cleanup ctxDestroy ;;
          modify (set_isStarted false) ;;
          ret e
        else
          modify (set_isStarted false) ;;
          ret None)).

(** [createErrorLog] (lines 557-564). *)
Definition createErrorLog (e : option error) (rules : list byte) : list byte :=
  match e with
  | None => rules
  | Some e =>
      let errBytes :=
        list_byte_of_string ("ipvs restore error: " ++ e ++ String "010" "") in
      (errBytes ++ rules)%list
  end.

(** The path and the permission bits (octal 0644) of the error dump. *)
Definition rulesetErrPath := "/tmp/director-ruleset-err".
Definition perm0644 : N := 420.

(** [setIPTables] (lines 447-495).  [d.node.Name] on a nil node panics. *)
Definition setIPTables : M (option error) :=
  logf DebugLevel "director: capturing iptables rules" ;;
  (* fetch existing iptables rules *)
  '(existing, e) <- perform IPTablesSave ;;
  match e with
  | Some e => ret (Some e)
  | None =>
      logf DebugLevel
        ("director: got " ++ decimal (length existing) ++ " existing rules") ;;
      logf DebugLevel "director: generating iptables rules" ;;
      d <- get ;;
      match node d with
      | None => panic nilDereference
      | Some n =>
          '(generated, e) <-
            perform (IPTablesGenerateRulesForNodeClassic (watcher d) (Name n)
                       (ClusterConfig (watcher d)) true) ;;
          match e with
          | Some e => ret (Some e)
          | None =>
              logf DebugLevel
                ("director: got " ++ decimal (length generated)
                   ++ " generated rules") ;;
              logf DebugLevel "director: merging iptables rules" ;;
              '(merged, _, e) <- perform (IPTablesMerge generated existing) ;;
              match e with
              | Some e => ret (Some e)
              | None =>
                  logf DebugLevel
                    ("director: got " ++ decimal (length merged)
                       ++ " merged rules") ;;
                  logf DebugLevel "director: applying updated rules" ;;
                  e <- perform (IPTablesRestore merged) ;;
                  match e with
                  | Some e =>
                      (* set our failure gauge for iptables alertmanagers *)
                      perform (MetricsIptablesWriteFailure 1) ;;
                      (* write erroneous rule set to file to capture later *)
                      logf ErrorLevel
                        "error applying rules. writing erroneous rule change to /tmp/director-ruleset-err for debugging" ;;
                      writeErr <-
                        perform (WriteFile rulesetErrPath
                                   (createErrorLog (Some e) (BytesFromRules merged))
                                   perm0644) ;;
                      match writeErr with
                      | Some _ =>
                          logf ErrorLevel
                            ("error writing to file; logging rules: "
                               ++ string_of_list_byte (BytesFromRules merged))
                      | None => ret tt
                      end ;;
                      ret (Some e)
                  | None =>
                      (* set gauge to success *)
                      perform (MetricsIptablesWriteFailure 0) ;;
                      ret None
                  end
              end
          end
      end
  end.

(** The removal loop of [setAddresses] (lines 524-530): the first failing
    [Del] returns from [setAddresses] with its error. *)
Fixpoint delRemovals (removals : list string) : M (option error) :=
  match removals with
  | [] => ret None
  | addr :: rest =>
      perform (Log InfoLevel
                 [("device", "primary"); ("addr", addr); ("action", "deleting")]
                 "") ;;
      e <- perform (IPDel addr) ;;
      match e with
      | Some e => ret (Some e)
      | None => delRemovals rest
      end
  end.

(** The addition loop of [setAddresses] (lines 531-539). *)
Fixpoint addAdditions (additions : list string) : M unit :=
  match additions with
  | [] => ret tt
  | addr :: rest =>
      perform (Log InfoLevel
                 [("device", "primary"); ("addr", addr); ("action", "adding")]
                 "") ;;
      e <- perform (IPAdd addr) ;;
      match e with
      | Some e =>
          logf ErrorLevel ("director: error adding adapter: " ++ addr ++ " " ++ e)
      | None => ret tt
      end ;;
      e <- perform (IPAdvertiseMacAddress addr) ;;
      match e with
      | Some e =>
          logf WarnLevel
            ("director: error setting gratuitous arp. this is most likely due to the VIP not being present on the interface. "
               ++ e)
      | None => ret tt
      end ;;
      addAdditions rest
  end.

(** [setAddresses] (lines 508-549).  [d.watcher.ClusterConfig.Config] on a
    nil cluster configuration panics. *)
Definition setAddresses : M (option error) :=
  (* pull existing *)
  '(configuredV4, _, e) <- perform IPGet ;;
  match e with
  | Some e => ret (Some e)
  | None =>
      d <- get ;;
      match ClusterConfig (watcher d) with
      | None => panic nilDereference
      | Some cfg =>
          (* get desired VIP addresses *)
          let desired := map fst (Config cfg) in
          '(removals, additions) <- perform (IPCompare4 configuredV4 desired) ;;
          e <- delRemovals removals ;;
          match e with
          | Some e => ret (Some e)
          | None =>
              addAdditions additions ;;
              (* now iterate across configured and see if we have a
                 non-standard MTU setting it where applicable *)
              e <- perform (IPSetMTU (MTUConfig cfg) false) ;;
              match e with
              | Some e =>
                  logf ErrorLevel
                    ("director: error setting MTU on adapters: " ++ e)
              | None => ret tt
              end ;;
              ret None
          end
      end
  end.

(** The steps of [applyConf] after the parity block (lines 414-445). *)
Definition applySteps (start : time) : M (option error) :=
  (* Manage VIP addresses *)
  e <- setAddresses ;;
  match e with
  | Some e =>
      metricsReconfigure "error" start ;;
      ret (Some ("director: unable to configure VIP addresses with error " ++ e))
  | None =>
      logf DebugLevel "director: addresses set" ;;
      (* Manage iptables configuration *)
      d <- get ;;
      e <- (if String.eqb (colocationMode d) colocationModeIPTables
            then
              e <- setIPTables ;;
              match e with
              | Some e => ret (Some e)
              | None => logf DebugLevel "director: iptables configured" ;; ret None
              end
            else ret None) ;;
      match e with
      | Some e =>
          metricsReconfigure "error" start ;;
          ret (Some ("director: unable to configure iptables with error " ++ e))
      | None =>
          (* Manage ipvsadm configuration *)
          e <- perform (IPVSSetIPVS (watcher d) (ClusterConfig (watcher d))
                          AddrKindIPV4) ;;
          match e with
          | Some e =>
              metricsReconfigure "error" start ;;
              ret (Some ("director: unable to configure ipvs with error " ++ e))
          | None =>
              logf DebugLevel "director: ipvs configured" ;;
              metricsReconfigure "complete" start ;;
              ret None
          end
      end
  end.

(** The parity block of [applyConf] (lines 388-412): [Some r] when the method
    returns [r] from inside the block, [None] when it goes on to the steps
    below it. *)
Definition parityBlock (force : bool) (start : time)
  : M (option (option error)) :=
  if force then
    logf InfoLevel "director: configuration parity ignored" ;;
    ret None
  else
    '(addressesV4, addressesV6, e) <- perform IPGet ;;
    match e with
    | Some e => logf ErrorLevel ("director: error creating interface: " ++ e)
    | None => ret tt
    end ;;
    (* splice together to compare against the internal state of configs *)
    let addresses := (addressesV4 ++ addressesV6)%list in
    d <- get ;;
    '(same, e) <-
      perform (IPVSCheckConfigParity (watcher d) (ClusterConfig (watcher d))
                 addresses) ;;
    match e with
    | Some e =>
        metricsReconfigure "error" start ;;
        ret (Some (Some
          ("director: unable to compare configurations with error " ++ e)))
    | None =>
        if same then
          metricsReconfigure "noop" start ;;
          logf InfoLevel "director: configuration has parity" ;;
          ret (Some None)
        else
          logf InfoLevel "director: configuration parity mismatch" ;;
          ret None
    end.

(** [applyConf] (lines 380-445). *)
Definition applyConf (force : bool) : M (option error) :=
  logf DebugLevel "director: applying configuration" ;;
  start <- perform TimeNow ;;
  (* compare configurations and apply them *)
  returned <- parityBlock force start ;;
  match returned with
  | Some r => ret r
  | None => applySteps start
  end.

End Methods.

(* Symbolic execution steps into a method only where a proof opens it. *)
Opaque setAddresses setIPTables applySteps parityBlock cleanup.

Ltac open_setAddresses :=
  with_strategy transparent [setAddresses] unfold setAddresses.
Ltac open_setIPTables :=
  with_strategy transparent [setIPTables] unfold setIPTables.
Ltac open_applySteps :=
  with_strategy transparent [applySteps] unfold applySteps.
Ltac open_parityBlock :=
  with_strategy transparent [parityBlock] unfold parityBlock.
Ltac open_cleanup :=
  with_strategy transparent [cleanup] unfold cleanup.

(** ** The callers of the apply pipeline *)

(** What the remaining code uses from outside this file: how [%v] prints a
    [time.Duration] ([Duration.String]), and whether a [Config] map is the
    nil map, which the list of its keys does not tell (a nil map has no
    keys). *)
Class Runtime {ext : Externals} := {
  durationString : time -> string;
  isNilMap : list (string * ServiceDef) -> bool;
  nil_map_empty : forall m, isNilMap m = true -> m = []
}.

Section Callers.
Context {ext : Externals} {rt : Runtime}.
Local Open Scope string_scope.

(** [Err] (lines 221-223). *)
Definition Err : M (option error) :=
  d <- get ;;
  ret (err d).

(** [reconfigure] (lines 369-378). *)
Definition reconfigure (force : bool) : M unit :=
  start <- perform TimeNow ;;
  logf InfoLevel "director: reconfiguring" ;;
  e <- applyConf force ;;
  match e with
  | Some e =>
      logf ErrorLevel ("error applying configuration in director. " ++ e)
  | None =>
      elapsed <- since start ;;
      logf InfoLevel
        ("director: reconfiguration completed successfully in "
           ++ durationString elapsed)
  end.

End Callers.

(** ** The goroutines [arps] and [periodic] *)

Section Goroutines.
Context {ext : Externals} {rt : Runtime}.
Local Open Scope string_scope.

(** A ticker of the Go runtime, and the durations the code names. *)
Definition tickerId := nat.

Definition millisecond : time := 1000000%Z.
Definition second : time := 1000000000%Z.

(** The case a [select] takes: those of [arps] (lines 280-307) and those of
    [periodic] (lines 324-365), in the order of the source. *)
Inductive arpsCase := ArpsTick | ArpsParentDone | ArpsWatchDone.

Inductive periodicCase :=
| PeriodicForce | PeriodicTick | PeriodicParentDone | PeriodicWatchDone.

(** What a goroutine does: the calls of the methods, and besides them the
    ArpingFailure metric, the tickers, the [select] over tickers and
    contexts, answered with the case that is taken, and the send on the done
    channel, answered with whether the value was received: the channel has
    no buffer, and a send that nobody receives blocks for ever. *)
Inductive gcall : Type :=
| Method (c : call)
| MetricsArpingFailure (e : error)
| NewTicker (interval : time)
| TickerStop (t : tickerId)
| SelectArps (gratuitousArp : tickerId) (parent watch : ctxId)
| SelectPeriodic (forceReconfigure t : tickerId) (parent watch : ctxId)
| SendDone (ch : chanId).

Definition gresp (c : gcall) : Type :=
  match c with
  | Method c => resp c
  | MetricsArpingFailure _ => unit
  | NewTicker _ => tickerId
  | TickerStop _ => unit
  | SelectArps _ _ _ => arpsCase
  | SelectPeriodic _ _ _ _ => periodicCase
  | SendDone _ => bool
  end.

Record gevent := GEv { gev_call : gcall; gev_resp : gresp gev_call }.

(** Programs of goroutines, and the methods among them. *)
Inductive gprog (R : Type) : Type :=
| GRet (r : R)
| GVis (c : gcall) (k : gresp c -> gprog R).

Fixpoint gpbind {A B : Type} (p : gprog A) (f : A -> gprog B) : gprog B :=
  match p with
  | GRet _ a => f a
  | GVis _ c k => GVis _ c (fun x => gpbind (k x) f)
  end.

Fixpoint lift {R : Type} (p : prog R) : gprog R :=
  match p with
  | Ret r => GRet _ r
  | Vis c k => GVis _ (Method c) (fun x => lift (k x))
  end.

Definition G (R : Type) : Type := director -> gprog (result R * director).

Definition gret {R : Type} (r : R) : G R := fun d => GRet _ (Done r, d).

Definition gpanic {R : Type} (msg : string) : G R :=
  fun d => GRet _ (Panicking msg, d).

Definition gbind {A B : Type} (m : G A) (f : A -> G B) : G B :=
  fun d =>
    gpbind (m d) (fun od =>
      match fst od with
      | Done a => f a (snd od)
      | Panicking msg => GRet _ (Panicking msg, snd od)
      end).

Definition gperform (c : gcall) : G (gresp c) :=
  fun d => GVis _ c (fun x => GRet _ (Done x, d)).

Definition gget : G director := fun d => GRet _ (Done d, d).

(** A method called from a goroutine. *)
Definition method {R : Type} (m : M R) : G R := fun d => lift (m d).

End Goroutines.

Arguments GRet {ext R} r.
Arguments GVis {ext R} c k.

Declare Scope goroutine_scope.
Delimit Scope goroutine_scope with goroutine.
Notation "x <- m ;; k" := (gbind m (fun x => k))
  (at level 61, m at next level, right associativity) : goroutine_scope.
Notation "m ;; k" := (gbind m (fun _ => k))
  (at level 61, right associativity) : goroutine_scope.

Section GoroutineLoops.
Context {ext : Externals} {rt : Runtime}.
Local Open Scope string_scope.
Local Open Scope goroutine_scope.

(** How a turn of a [for] loop ends: at the end of its body or by
    [continue], by [return], or never, blocked in a send that nobody
    receives. *)
Inductive flow := Continue | Return | Blocked.

(** What became of a goroutine: it returned, it is still in its loop, or it
    is blocked for ever. *)
Inductive status := Returned | Running | Stuck.

(** [for { ... }], followed for at most [fuel] turns. *)
Fixpoint loop (fuel : nat) (turn : G flow) : G status :=
  match fuel with
  | O => gret Running
  | S fuel =>
      f <- turn ;;
      match f with
      | Continue => loop fuel turn
      | Return => gret Returned
      | Blocked => gret Stuck
      end
  end.

(** [defer deferred] in a function whose body is a loop: the deferred call
    runs when the function returns or panics, and not while the goroutine is
    in its loop or blocked. *)
Definition gdefer (deferred : G unit) (body : G status) : G status :=
  fun d =>
    gpbind (body d) (fun od =>
      match fst od with
      | Done Running | Done Stuck => GRet od
      | _ => gpbind (deferred (snd od)) (fun od' => GRet (fst od, snd od'))
      end).

Definition glogf (lvl : level) (msg : string) : G unit :=
  gperform (Method (Log lvl [] msg)).

(** The loop over the VIPs in [arps] (lines 294-299). *)
Fixpoint advertise (ips : list string) : G unit :=
  match ips with
  | [] => gret tt
  | ip :: rest =>
      e <- gperform (Method (IPAdvertiseMacAddress ip)) ;;
      match e with
      | Some e =>
          gperform (MetricsArpingFailure e) ;;
          glogf ErrorLevel e
      | None => gret tt
      end ;;
      advertise rest
  end.

(** One turn of the loop of [arps] (lines 279-308).  Entering the [select]
    evaluates [d.ctxWatch.Done()], which panics on a nil context. *)
Definition arpsTurn (gratuitousArp : tickerId) : G flow :=
  d <- gget ;;
  match ctxWatch d with
  | None => gpanic nilDereference
  | Some watch =>
      pick <- gperform (SelectArps gratuitousArp (ctx d) watch) ;;
      match pick with
      | ArpsTick =>
          match ClusterConfig (watcher d), Nodes (watcher d) with
          | Some cfg, Some _ =>
              let ips := map fst (Config cfg) in
              advertise ips ;;
              gret Continue
          | _, _ =>
              glogf DebugLevel "director: configs are nil. skipping arp clear" ;;
              gret Continue
          end
      | ArpsParentDone =>
          glogf DebugLevel "director: parent context closed. exiting run loop" ;;
          gret Return
      | ArpsWatchDone =>
          glogf DebugLevel "director: watch context closed. exiting run loop" ;;
          gret Return
      end
  end.

Definition arpInterval : time := (2000 * millisecond)%Z.

(** [arps] (lines 273-309). *)
Definition arps (fuel : nat) : G status :=
  gratuitousArp <- gperform (NewTicker arpInterval) ;;
  gdefer (gperform (TickerStop gratuitousArp)) (
    glogf InfoLevel
      ("director: starting periodic ticker. arp interval "
         ++ durationString arpInterval) ;;
    loop fuel (arpsTurn gratuitousArp)).

(** One turn of the loop of [periodic] (lines 323-366).
    [d.watcher.ClusterConfig.Config] on a nil cluster configuration
    panics. *)
Definition periodicTurn (forceReconfigure t : tickerId) : G flow :=
  d <- gget ;;
  match ctxWatch d with
  | None => gpanic nilDereference
  | Some watch =>
      pick <- gperform (SelectPeriodic forceReconfigure t (ctx d) watch) ;;
      match pick with
      | PeriodicForce =>
          match ClusterConfig (watcher d) with
          | None => gpanic nilDereference
          | Some cfg =>
              if isNilMap (Config cfg) then
                glogf WarnLevel
                  "director: Force reconfiguration skipped because d.config is nil" ;;
                gret Continue
              else
                match Nodes (watcher d) with
                | None =>
                    glogf WarnLevel
                      "director: Force reconfiguration skipped because d.nodes is nil" ;;
                    gret Continue
                | Some _ =>
                    glogf InfoLevel
                      "director: Force reconfiguration w/o parity check timer went off" ;;
                    method (reconfigure true) ;;
                    gret Continue
                end
          end
      | PeriodicTick =>
          (* periodically apply declared state *)
          match ClusterConfig (watcher d) with
          | None => gpanic nilDereference
          | Some cfg =>
              if isNilMap (Config cfg) then
                glogf DebugLevel "director: configs are nil. skipping apply" ;;
                gret Continue
              else
                match Nodes (watcher d) with
                | None =>
                    glogf DebugLevel "director: nodes are nil. skipping apply" ;;
                    gret Continue
                | Some _ =>
                    method (reconfigure false) ;;
                    gret Continue
                end
          end
      | PeriodicParentDone =>
          glogf DebugLevel "director: parent context closed. exiting run loop" ;;
          gret Return
      | PeriodicWatchDone =>
          glogf DebugLevel "director: watch context closed. exiting run loop" ;;
          d <- gget ;;
          received <- gperform (SendDone (doneChan d)) ;;
          if received then gret Return else gret Blocked
      end
  end.

Definition checkInterval : time := (second * 2)%Z.
Definition forcedReconfigureInterval : time := (second * 60)%Z.

(** [periodic] (lines 311-367).  The deferred calls run last registered
    first. *)
Definition periodic (fuel : nat) : G status :=
  t <- gperform (NewTicker checkInterval) ;;
  glogf InfoLevel
    ("director: starting periodic ticker. config check "
       ++ durationString checkInterval) ;;
  forceReconfigure <- gperform (NewTicker forcedReconfigureInterval) ;;
  gdefer (gperform (TickerStop t)) (
    gdefer (gperform (TickerStop forceReconfigure)) (
      loop fuel (periodicTurn forceReconfigure t))).

End GoroutineLoops.

(** ** Running a goroutine *)

Section GoroutineSemantics.
Context {ext : Externals} {W : Type}.

Variable genv : forall c : gcall, W -> gresp c * W.

Fixpoint gexec {R : Type} (p : gprog R) (w : W) : R * (list gevent * W) :=
  match p with
  | GRet r => (r, ([], w))
  | GVis c k =>
      let x := fst (genv c w) in
      let r := gexec (k x) (snd (genv c w)) in
      (fst r, (GEv c x :: fst (snd r), snd (snd r)))
  end.

Record gran (R : Type) : Type := GRan {
  gout : result R;
  gdir : director;
  gevents : list gevent;
  gworld : W
}.

Definition grun {R : Type} (g : G R) (d : director) (w : W) : gran R :=
  let r := gexec (g d) w in
  {| gout := fst (fst r); gdir := snd (fst r);
     gevents := fst (snd r); gworld := snd (snd r) |}.

End GoroutineSemantics.

Arguments GRan {ext W R} gout gdir gevents gworld.
Arguments gout {ext W R} g.
Arguments gdir {ext W R} g.
Arguments gevents {ext W R} g.
Arguments gworld {ext W R} g.

Section GoroutinePrograms.
Context {ext : Externals}.

(** Whatever the answers are, the events and the value of the goroutine's
    program satisfy [T]. *)
Fixpoint gwhatever {R : Type} (p : gprog R) (T : list gevent -> R -> Prop)
  : Prop :=
  match p with
  | GRet r => T [] r
  | GVis c k =>
      forall x : gresp c, gwhatever (k x) (fun t r => T (GEv c x :: t) r)
  end.

(** The events of a method, seen among those of a goroutine. *)
Definition ofMethod (e : event) : gevent :=
  match e with Ev c x => GEv (Method c) x end.

(** The cases the [select]s of a trace took, in order: those of [arps] and
    those of [periodic]. *)
Definition arpsPick (e : gevent) : list arpsCase :=
  match e with
  | GEv c x =>
      match c return gresp c -> list arpsCase with
      | SelectArps _ _ _ => fun x => [x]
      | _ => fun _ => []
      end x
  end.

Definition arpsPicks (t : list gevent) : list arpsCase := flat_map arpsPick t.

Definition periodicPick (e : gevent) : list periodicCase :=
  match e with
  | GEv c x =>
      match c return gresp c -> list periodicCase with
      | SelectPeriodic _ _ _ _ => fun x => [x]
      | _ => fun _ => []
      end x
  end.

Definition periodicPicks (t : list gevent) : list periodicCase :=
  flat_map periodicPick t.

(** The timer case of [arps] and the timer cases of [periodic], as opposed
    to their cancellation cases. *)
Definition isArpsTick (p : arpsCase) : bool :=
  match p with
  | ArpsTick => true
  | _ => false
  end.

Definition isTimer (p : periodicCase) : bool :=
  match p with
  | PeriodicForce | PeriodicTick => true
  | _ => false
  end.

(** The tickers made and the tickers stopped in a trace, in order, and the
    sends of a done signal: the channel, and whether the signal was
    received. *)
Definition tickerMade (e : gevent) : list (time * tickerId) :=
  match e with
  | GEv c x =>
      match c return gresp c -> list (time * tickerId) with
      | NewTicker i => fun x => [(i, x)]
      | _ => fun _ => []
      end x
  end.

Definition tickersMade (t : list gevent) : list (time * tickerId) :=
  flat_map tickerMade t.

Definition tickersStopped (t : list gevent) : list tickerId :=
  flat_map (fun e => match gev_call e with TickerStop t => [t] | _ => [] end) t.

Definition sendOf (e : gevent) : list (chanId * bool) :=
  match e with
  | GEv c x =>
      match c return gresp c -> list (chanId * bool) with
      | SendDone ch => fun x => [(ch, x)]
      | _ => fun _ => []
      end x
  end.

Definition doneSent (t : list gevent) : list (chanId * bool) :=
  flat_map sendOf t.

(** What a round of [arps] leaves in the trace for the VIPs it advertised,
    given what each [IP.AdvertiseMacAddress] answered: the call and, after a
    failure, the ArpingFailure metric and the error in the log. *)
Definition arpRound (answers : list (string * option error)) : list gevent :=
  flat_map (fun a =>
    GEv (Method (IPAdvertiseMacAddress (fst a))) (snd a)
      :: match snd a with
         | Some e =>
             [GEv (MetricsArpingFailure e) tt;
              GEv (Method (Log ErrorLevel [] e)) tt]
         | None => []
         end) answers.

End GoroutinePrograms.



(** ** Running a method against an environment *)

Section Semantics.
Context {ext : Externals} {W : Type}.

(** The environment: the state [W] of everything outside the director, and
    how each call is answered and changes it. *)
Variable env : forall c : call, W -> resp c * W.

(** Runs a program from the world [w]: its value, the events in order, and
    the world it leaves. *)
Fixpoint exec {R : Type} (p : prog R) (w : W) : R * (list event * W) :=
  match p with
  | Ret r => (r, ([], w))
  | Vis c k =>
      let x := fst (env c w) in
      let r := exec (k x) (snd (env c w)) in
      (fst r, (Ev c x :: fst (snd r), snd (snd r)))
  end.

(** What a method call leaves behind. *)
Record ran (R : Type) : Type := Ran {
  out : result R;
  dir : director;
  events : list event;
  world : W
}.
Arguments out {R} r.
Arguments dir {R} r.
Arguments events {R} r.
Arguments world {R} r.

Definition run {R : Type} (m : M R) (d : director) (w : W) : ran R :=
  let r := exec (m d) w in
  {| out := fst (fst r); dir := snd (fst r);
     events := fst (snd r); world := snd (snd r) |}.

(** The world after a sequence of calls. *)
Definition world_after (cs : list call) (w : W) : W :=
  fold_left (fun w c => snd (env c w)) cs w.

(** Inside [applyConf]: the time it takes as [start], its run of the
    parity block, and the run of [setAddresses] that would follow it. *)
Definition applyStart (w : W) : time :=
  fst (env TimeNow
         (world_after [Log DebugLevel [] "director: applying configuration"%string] w)).

Definition parityRun (force : bool) (d : director) (w : W)
  : ran (option (option error)) :=
  run (parityBlock force (applyStart w)) d
    (world_after
       [Log DebugLevel [] "director: applying configuration"%string; TimeNow] w).

Definition addressRun (force : bool) (d : director) (w : W)
  : ran (option error) :=
  run setAddresses d (world (parityRun force d w)).

(** A run followed by what its value starts, unless it panicked. *)
Definition after {A B : Type} (r : ran A)
    (k : A -> director -> W -> ran B) : ran B :=
  match out r with
  | Done a =>
      let r' := k a (dir r) (world r) in
      {| out := out r'; dir := dir r';
         events := events r ++ events r'; world := world r' |}
  | Panicking msg =>
      {| out := Panicking msg; dir := dir r;
         events := events r; world := world r |}
  end.

End Semantics.

Arguments Ran {ext W R} out dir events world.
Arguments out {ext W R} r.
Arguments dir {ext W R} r.
Arguments events {ext W R} r.
Arguments world {ext W R} r.

(** ** What a program can do under any environment *)

Section Programs.
Context {ext : Externals}.

(** Every call the program can make satisfies [P], and every value it can
    end with satisfies [Q]. *)
Fixpoint always {R : Type} (P : call -> Prop) (Q : R -> Prop) (p : prog R)
  : Prop :=
  match p with
  | Ret r => Q r
  | Vis c k => P c /\ forall x, always P Q (k x)
  end.

(** Whatever the answers are, the events and the value of the program
    satisfy [T]. *)
Fixpoint whatever {R : Type} (p : prog R) (T : list event -> R -> Prop)
  : Prop :=
  match p with
  | Ret r => T [] r
  | Vis c k => forall x : resp c, whatever (k x) (fun t r => T (Ev c x :: t) r)
  end.

(** A statement about a finished run, kept closed while the program is
    executed symbolically. *)
Definition finished (P : Prop) : Prop := P.

(** [yields p t r]: some answers make [p] produce the events [t] and end
    with [r]. *)
Inductive yields {R : Type} : prog R -> list event -> R -> Prop :=
| yields_ret (r : R) : yields (Ret r) [] r
| yields_vis (c : call) (k : resp c -> prog R) (x : resp c)
    (t : list event) (r : R) :
    yields (k x) t r -> yields (Vis c k) (Ev c x :: t) r.

End Programs.

Opaque finished.
Ltac open_finished :=
  with_strategy transparent [finished] unfold finished; cbv beta.

(** ** Reading a trace *)

Section Traces.
Context {ext : Externals}.

Definition calls (evs : list event) : list call := map ev_call evs.

(** The answer of an event when it is a call of the given kind. *)
Definition parityAnswer (e : event) : option (bool * option error) :=
  match e with
  | Ev c r =>
      match c return resp c -> option (bool * option error) with
      | IPVSCheckConfigParity _ _ _ => fun r => Some r
      | _ => fun _ => None
      end r
  end.

Definition getAnswer (e : event)
  : option (list string * list string * option error) :=
  match e with
  | Ev c r =>
      match c return resp c -> option (list string * list string * option error) with
      | IPGet => fun r => Some r
      | _ => fun _ => None
      end r
  end.

Definition delAnswer (e : event) : option (string * option error) :=
  match e with
  | Ev c r =>
      match c return resp c -> option (string * option error) with
      | IPDel a => fun r => Some (a, r)
      | _ => fun _ => None
      end r
  end.

Definition addAnswer (e : event) : option (string * option error) :=
  match e with
  | Ev c r =>
      match c return resp c -> option (string * option error) with
      | IPAdd a => fun r => Some (a, r)
      | _ => fun _ => None
      end r
  end.

Definition restoreAnswer (e : event) : option (list Rule * option error) :=
  match e with
  | Ev c r =>
      match c return resp c -> option (list Rule * option error) with
      | IPTablesRestore rules => fun r => Some (rules, r)
      | _ => fun _ => None
      end r
  end.

Definition compareAnswer (e : event) : option (list string * list string) :=
  match e with
  | Ev c r =>
      match c return resp c -> option (list string * list string) with
      | IPCompare4 _ _ => fun r => Some r
      | _ => fun _ => None
      end r
  end.

(** An [IP.Del] that failed. *)
Definition delFailed (e : event) : bool :=
  match delAnswer e with
  | Some (_, Some _) => true
  | _ => false
  end.

(** The addresses of the [IP.Del] calls of a trace, in order, and those of
    its [IP.Add] calls. *)
Fixpoint delsOf (t : list event) : list string :=
  match t with
  | [] => []
  | e :: t =>
      match delAnswer e with
      | Some (a, _) => a :: delsOf t
      | None => delsOf t
      end
  end.

Fixpoint addsOf (t : list event) : list string :=
  match t with
  | [] => []
  | e :: t =>
      match addAnswer e with
      | Some (a, _) => a :: addsOf t
      | None => addsOf t
      end
  end.

(** What [setAddresses] logs after an [IP.Add addr] answered [res]. *)
Definition addLog (addr : string) (res : option error) : list event :=
  match res with
  | Some e =>
      [Ev (Log ErrorLevel []
             ("director: error adding adapter: " ++ addr ++ " " ++ e)%string) tt]
  | None => []
  end.

(** Every [IP.Add] of the trace is followed by its log entry, if it failed,
    and then by [IP.AdvertiseMacAddress] for the same address. *)
Definition addsFollowed (t : list event) : Prop :=
  forall pre ev post a res,
    t = pre ++ ev :: post ->
    addAnswer ev = Some (a, res) ->
    exists adv post',
      post = addLog a res ++ Ev (IPAdvertiseMacAddress a) adv :: post'.

(** Calls that change kernel state: addresses, MTU, iptables, IPVS. *)
Definition mutating (c : call) : bool :=
  match c with
  | IPAdd _ | IPDel _ | IPSetMTU _ _ | IPTablesRestore _ | IPVSSetIPVS _ _ _ =>
      true
  | _ => false
  end.

(** The pipeline step a collaborator call belongs to: 0 the parity check,
    1 address reconciliation, 2 iptables reconciliation, 3 IPVS.  [IP.Get]
    opens both the parity check and [setAddresses]; it, the logger, the
    clock and the [Reconfigure] metric carry no step. *)
Definition step_of (c : call) : option nat :=
  match c with
  | IPVSCheckConfigParity _ _ _ => Some 0
  | IPCompare4 _ _ | IPDel _ | IPAdd _ | IPAdvertiseMacAddress _
  | IPSetMTU _ _ => Some 1
  | IPTablesSave | IPTablesGenerateRulesForNodeClassic _ _ _ _
  | IPTablesMerge _ _ | IPTablesRestore _ | MetricsIptablesWriteFailure _
  | WriteFile _ _ _ => Some 2
  | IPVSSetIPVS _ _ _ => Some 3
  | _ => None
  end.

Fixpoint steps (cs : list call) : list nat :=
  match cs with
  | [] => []
  | c :: cs =>
      match step_of c with
      | Some n => n :: steps cs
      | None => steps cs
      end
  end.

(** [setIPTables] was entered: its first collaborator call was made. *)
Definition isSave (c : call) : bool :=
  match c with IPTablesSave => true | _ => false end.

Definition isParity (c : call) : bool :=
  match c with IPVSCheckConfigParity _ _ _ => true | _ => false end.

(** The message [msg] contains the message [e]. *)
Definition contains (msg e : string) : Prop :=
  exists a b, msg = (a ++ e ++ b)%string.

(** The calls [setAddresses] can make, and those [setIPTables] can make. *)
Definition addressCall (c : call) : bool :=
  match c with
  | IPGet | IPCompare4 _ _ | IPDel _ | IPAdd _ | IPAdvertiseMacAddress _
  | IPSetMTU _ _ | Log _ _ _ => true
  | _ => false
  end.

Definition iptablesCall (c : call) : bool :=
  match c with
  | IPTablesSave | IPTablesGenerateRulesForNodeClassic _ _ _ _
  | IPTablesMerge _ _ | IPTablesRestore _ | MetricsIptablesWriteFailure _
  | WriteFile _ _ _ | Log _ _ _ => true
  | _ => false
  end.

(** The calls the steps of [applyConf] below the parity block can make. *)
Definition stepsCall (c : call) : bool :=
  addressCall c || iptablesCall c ||
  match c with
  | IPVSSetIPVS _ _ _ | TimeNow | MetricsReconfigure _ _ => true
  | _ => false
  end.

Definition isMetric (c : call) : bool :=
  match c with
  | MetricsReconfigure _ _ | MetricsIptablesWriteFailure _ => true
  | _ => false
  end.

(** The error an event answers with, if any. *)
Definition errorOf (e : event) : option error :=
  match e with
  | Ev c r =>
      match c return resp c -> option error with
      | IPSetARP | IPDel _ | IPAdd _ | IPAdvertiseMacAddress _ | IPSetMTU _ _
      | IPTeardown _ _ _ | IPVSSetIPVS _ _ _ | IPVSTeardown _ | IPTablesFlush
      | IPTablesRestore _ | WriteFile _ _ _ => fun r => r
      | IPGet => fun r => snd r
      | IPVSCheckConfigParity _ _ _ | IPTablesSave
      | IPTablesGenerateRulesForNodeClassic _ _ _ _ | IPTablesMerge _ _ =>
          fun r => snd r
      | _ => fun _ => None
      end r
  end.

Definition answeredError (e : event) : bool :=
  match errorOf e with
  | Some _ => true
  | None => false
  end.

(** The pipeline steps of the calls the program can make never go down:
    they start at [lo] or above, and at the end the last step [n] and the
    value satisfy [Q]. *)
Fixpoint climbs {R : Type} (lo : nat) (Q : nat -> R -> Prop) (p : prog R)
  : Prop :=
  match p with
  | Ret r => Q lo r
  | Vis c k =>
      match step_of c with
      | Some n => lo <= n /\ forall x, climbs n Q (k x)
      | None => forall x, climbs lo Q (k x)
      end
  end.

End Traces.

(** ** More readings of a trace *)

Section Observations.
Context {ext : Externals}.

Definition isGo (c : call) : bool :=
  match c with Go _ => true | _ => false end.

Definition isFlush (c : call) : bool :=
  match c with IPTablesFlush => true | _ => false end.

Definition isSetARP (c : call) : bool :=
  match c with IPSetARP => true | _ => false end.

Definition isLog (c : call) : bool :=
  match c with Log _ _ _ => true | _ => false end.

Definition isSetMTU (c : call) : bool :=
  match c with IPSetMTU _ _ => true | _ => false end.

(** The calls whose failure ends [setAddresses]. *)
Definition fatalAddressCall (c : call) : bool :=
  match c with IPGet | IPDel _ => true | _ => false end.

(** The readings of the clock in a trace, in order. *)
Definition clockOf (e : event) : list time :=
  match e with
  | Ev c r =>
      match c return resp c -> list time with
      | TimeNow => fun r => [r]
      | _ => fun _ => []
      end r
  end.

Definition clockReads (t : list event) : list time := flat_map clockOf t.

(** The samples of the Reconfigure metric in a trace: label and elapsed
    time. *)
Definition sampleOf (e : event) : list (string * time) :=
  match ev_call e with
  | MetricsReconfigure label elapsed => [(label, elapsed)]
  | _ => []
  end.

Definition samples (t : list event) : list (string * time) :=
  flat_map sampleOf t.

(** The values the IptablesWriteFailure gauge is set to, the answers of
    [IPTables.Restore], and the files written. *)
Definition gaugeOf (e : event) : list Z :=
  match ev_call e with
  | MetricsIptablesWriteFailure v => [v]
  | _ => []
  end.

Definition gauges (t : list event) : list Z := flat_map gaugeOf t.

Definition restoreOf (e : event) : list (option error) :=
  match restoreAnswer e with
  | Some (_, res) => [res]
  | None => []
  end.

Definition restores (t : list event) : list (option error) :=
  flat_map restoreOf t.

Definition isWriteFile (c : call) : bool :=
  match c with WriteFile _ _ _ => true | _ => false end.

(** [d'] has the settings of [d]: the fields that only [NewDirector] and
    the watch loop assign, and the error [Err] returns. *)
Definition sameSettings (d d' : director) : Prop :=
  nodeName d' = nodeName d /\ node d' = node d /\ nodeChan d' = nodeChan d
  /\ watcher d' = watcher d /\ doCleanup d' = doCleanup d
  /\ colocationMode d' = colocationMode d
  /\ forcedReconfigure d' = forcedReconfigure d /\ ctx d' = ctx d
  /\ err d' = err d.

Definition set_forcedReconfigure (v : bool) (d : director) : director :=
  {| isStarted := isStarted d; doneChan := doneChan d; err := err d;
     nodeName := nodeName d; node := node d; nodeChan := nodeChan d;
     ctxWatch := ctxWatch d; cxlWatch := cxlWatch d;
     reconfiguring := reconfiguring d; watcher := watcher d;
     doCleanup := doCleanup d; colocationMode := colocationMode d;
     forcedReconfigure := v; ctx := ctx d |}.

(** [mirrors v p q]: the program [p] makes the calls of [q] and ends as [q]
    does, with the director of [q] in which [forcedReconfigure] is [v]. *)
Inductive mirrors {R : Type} (v : bool)
  : prog (result R * director) -> prog (result R * director) -> Prop :=
| mirrors_ret (o : result R) (d : director) :
    mirrors v (Ret (o, set_forcedReconfigure v d)) (Ret (o, d))
| mirrors_vis (c : call) (k k' : resp c -> prog (result R * director)) :
    (forall x, mirrors v (k x) (k' x)) -> mirrors v (Vis c k) (Vis c k').

(** A method that does not read the setting. *)
Definition blind {R : Type} (m : M R) : Prop :=
  forall v d, mirrors v (m (set_forcedReconfigure v d)) (m d).

(** The value the gauge takes after a restore that answered [res]. *)
Definition gaugeFor (res : option error) : Z :=
  match res with Some _ => 1%Z | None => 0%Z end.

(** What [applyConf] says it was doing when the call [c] failed it. *)
Definition failedTo (c : call) : string :=
  match c with
  | IPVSCheckConfigParity _ _ _ => "compare configurations"
  | IPGet | IPDel _ => "configure VIP addresses"
  | IPTablesSave | IPTablesGenerateRulesForNodeClassic _ _ _ _
  | IPTablesMerge _ _ | IPTablesRestore _ => "configure iptables"
  | IPVSSetIPVS _ _ _ => "configure ipvs"
  | _ => ""
  end.

(** The calls the two loops of [setAddresses] make. *)
Definition loopCall (c : call) : bool :=
  match c with
  | Log _ _ _ | IPDel _ | IPAdd _ | IPAdvertiseMacAddress _ => true
  | _ => false
  end.

(** The last event of a trace. *)
Definition lastEvent (t : list event) : option event :=
  last (map Some t) None.

(** What [setAddresses] logs after an [IP.SetMTU] that answered [res]. *)
Definition mtuLog (res : option error) : list event :=
  match res with
  | Some e =>
      [Ev (Log ErrorLevel []
             ("director: error setting MTU on adapters: " ++ e)%string) tt]
  | None => []
  end.

End Observations.

(** ** Complete runs of the reconciliation steps *)

Section Attempts.
Context {ext : Externals}.
Local Open Scope string_scope.

(** What [setAddresses] logs after an [IP.AdvertiseMacAddress] that answered
    [res]. *)
Definition advertiseLog (res : option error) : list event :=
  match res with
  | Some e =>
      [Ev (Log WarnLevel []
             ("director: error setting gratuitous arp. this is most likely due to the VIP not being present on the interface. "
                ++ e)) tt]
  | None => []
  end.

(** The events of the removal loop of [setAddresses], given the addresses
    it reached and what [IP.Del] answered for each. *)
Definition delEvents (dels : list (string * option error)) : list event :=
  flat_map (fun a =>
    [Ev (Log InfoLevel
           [("device", "primary"); ("addr", fst a); ("action", "deleting")] "")
        tt;
     Ev (IPDel (fst a)) (snd a)]) dels.

(** The events of its addition loop, given for each address what [IP.Add]
    and then [IP.AdvertiseMacAddress] answered. *)
Definition addEvents (adds : list (string * (option error * option error)))
  : list event :=
  flat_map (fun a =>
    Ev (Log InfoLevel
          [("device", "primary"); ("addr", fst a); ("action", "adding")] "") tt
      :: Ev (IPAdd (fst a)) (fst (snd a))
      :: (addLog (fst a) (fst (snd a))
            ++ Ev (IPAdvertiseMacAddress (fst a)) (snd (snd a))
            :: advertiseLog (snd (snd a)))%list) adds.

(** [addressAttempt d t o]: [t] is the trace of a complete address
    reconciliation on the director [d], and [o] is how it ended.  [IP.Get]
    is asked for the addresses on the interface; [IP.Compare4] compares the
    V4 ones with the VIPs of the cluster configuration; the removals it
    answers are deleted in order up to the first [IP.Del] that fails, which
    ends the step with its error; otherwise every addition is added and
    advertised, and [IP.SetMTU] is called. *)
Definition addressAttempt (d : director) (t : list event)
    (o : result (option error)) : Prop :=
  exists v4 v6 ge tail,
    t = Ev IPGet (v4, v6, ge) :: tail
    /\ match ge, ClusterConfig (watcher d) with
       | Some e, _ => tail = [] /\ o = Done (Some e)
       | None, None => tail = [] /\ o = Panicking nilDereference
       | None, Some cfg =>
           exists removals additions dels tail',
             tail =
               Ev (IPCompare4 v4 (map fst (Config cfg))) (removals, additions)
                 :: (delEvents dels ++ tail')%list
             /\ ((exists done a e after,
                    dels = (done ++ [(a, Some e)])%list
                    /\ removals = (map fst done ++ a :: after)%list
                    /\ Forall (fun x => snd x = None) done
                    /\ tail' = [] /\ o = Done (Some e))
                 \/ (map fst dels = removals
                     /\ Forall (fun x => snd x = None) dels
                     /\ exists adds mtu,
                          map fst adds = additions
                          /\ tail' =
                               (addEvents adds
                                  ++ Ev (IPSetMTU (MTUConfig cfg) false) mtu
                                  :: mtuLog mtu)%list
                          /\ o = Done None))
       end.

(** What follows an [IPTables.Restore] of the rules [merged] that answered
    [res]; [writeErr] is what the write of the error file answered. *)
Definition afterRestore (merged : list Rule) (res writeErr : option error)
  : list event :=
  match res with
  | None => [Ev (MetricsIptablesWriteFailure 0) tt]
  | Some e =>
      Ev (MetricsIptablesWriteFailure 1) tt
        :: Ev (Log ErrorLevel []
                 "error applying rules. writing erroneous rule change to /tmp/director-ruleset-err for debugging")
             tt
        :: Ev (WriteFile rulesetErrPath
                 (createErrorLog (Some e) (BytesFromRules merged)) perm0644)
             writeErr
        :: match writeErr with
           | Some _ =>
               [Ev (Log ErrorLevel []
                      ("error writing to file; logging rules: "
                         ++ string_of_list_byte (BytesFromRules merged))) tt]
           | None => []
           end
  end.

(** [iptablesAttempt d t o]: [t] is the trace of a complete iptables
    reconciliation on the director [d], and [o] is how it ended.  The
    existing rules are saved, the rules of the local node are generated,
    [IPTables.Merge] merges the generated rules into the existing ones, and
    [IPTables.Restore] is given the merged rules; the first of these calls
    that fails ends the step with its error, and a nil [d.node] ends it in a
    panic before anything is generated. *)
Definition iptablesAttempt (d : director) (t : list event)
    (o : result (option error)) : Prop :=
  exists existing se tail,
    t = Ev (Log DebugLevel [] "director: capturing iptables rules") tt
          :: Ev IPTablesSave (existing, se) :: tail
    /\ match se with
       | Some e => tail = [] /\ o = Done (Some e)
       | None =>
           exists tail1,
             tail =
               Ev (Log DebugLevel []
                     ("director: got " ++ decimal (length existing)
                        ++ " existing rules")) tt
                 :: Ev (Log DebugLevel [] "director: generating iptables rules") tt
                 :: tail1
             /\ match node d with
                | None => tail1 = [] /\ o = Panicking nilDereference
                | Some n =>
                    exists generated ge tail2,
                      tail1 =
                        Ev (IPTablesGenerateRulesForNodeClassic (watcher d)
                              (Name n) (ClusterConfig (watcher d)) true)
                           (generated, ge)
                          :: tail2
                      /\ match ge with
                         | Some e => tail2 = [] /\ o = Done (Some e)
                         | None =>
                             exists merged other me tail3,
                               tail2 =
                                 Ev (Log DebugLevel []
                                       ("director: got "
                                          ++ decimal (length generated)
                                          ++ " generated rules")) tt
                                   :: Ev (Log DebugLevel []
                                            "director: merging iptables rules") tt
                                   :: Ev (IPTablesMerge generated existing)
                                        (merged, other, me)
                                   :: tail3
                               /\ match me with
                                  | Some e => tail3 = [] /\ o = Done (Some e)
                                  | None =>
                                      exists res writeErr,
                                        tail3 =
                                          Ev (Log DebugLevel []
                                                ("director: got "
                                                   ++ decimal (length merged)
                                                   ++ " merged rules")) tt
                                            :: Ev (Log DebugLevel []
                                                     "director: applying updated rules") tt
                                            :: Ev (IPTablesRestore merged) res
                                            :: afterRestore merged res writeErr
                                        /\ o = Done res
                                  end
                         end
                end
       end.

(** The "error" sample with which [applyConf] ends after a step failed. *)
Definition errorSample (start : time) (t : list event) : Prop :=
  exists now,
    t = [Ev TimeNow now; Ev (MetricsReconfigure "error" (now - start)%Z) tt].

(** The call of [IPVS.SetIPVS] and the end of [applyConf] after it. *)
Definition ipvsAttempt (start : time) (d : director) (t : list event) : Prop :=
  exists res now,
    t = Ev (IPVSSetIPVS (watcher d) (ClusterConfig (watcher d)) AddrKindIPV4) res
          :: match res with
             | Some _ =>
                 [Ev TimeNow now;
                  Ev (MetricsReconfigure "error" (now - start)%Z) tt]
             | None =>
                 [Ev (Log DebugLevel [] "director: ipvs configured") tt;
                  Ev TimeNow now;
                  Ev (MetricsReconfigure "complete" (now - start)%Z) tt]
             end.

(** The shape of a trace of the steps of [applyConf] below the parity
    block, begun at [start]: a complete address reconciliation; when it
    returns nil, in iptables colocation, a complete iptables
    reconciliation; and when that returns nil too, or outside iptables
    colocation, the call of [IPVS.SetIPVS].  A step that returns an error
    is followed by the "error" sample only, and a panic by nothing. *)
Definition pipelineShape (start : time) (d : director) (t : list event)
  : Prop :=
  exists ta oa rest,
    t = (ta ++ rest)%list
    /\ addressAttempt d ta oa
    /\ match oa with
       | Done None =>
           exists rest1,
             rest = Ev (Log DebugLevel [] "director: addresses set") tt :: rest1
             /\ if String.eqb (colocationMode d) colocationModeIPTables
                then
                  exists ti oi rest2,
                    rest1 = (ti ++ rest2)%list
                    /\ iptablesAttempt d ti oi
                    /\ match oi with
                       | Done None =>
                           exists rest3,
                             rest2 =
                               Ev (Log DebugLevel []
                                     "director: iptables configured") tt
                                 :: rest3
                             /\ ipvsAttempt start d rest3
                       | Done (Some _) => errorSample start rest2
                       | Panicking _ => rest2 = []
                       end
                else ipvsAttempt start d rest1
       | Done (Some _) => errorSample start rest
       | Panicking _ => rest = []
       end.

End Attempts.

Opaque pipelineShape.
Ltac open_pipelineShape :=
  with_strategy transparent [pipelineShape] unfold pipelineShape.

(** ** The timer cases of [periodic] *)

Section TimerCases.
Context {ext : Externals} {rt : Runtime}.

(** What a timer case of [periodic] leaves in the trace after its [select],
    and how the turn ends: for the forced timer ([force] true) and for the
    check timer. *)
Definition timerCase (force : bool) (d : director) (rest : list gevent)
    (o : result flow) : Prop :=
  match ClusterConfig (watcher d) with
  | None => rest = [] /\ o = Panicking nilDereference
  | Some cfg =>
      if isNilMap (Config cfg) then
        rest =
          [GEv (Method
                  (Log (if force then WarnLevel else DebugLevel) []
                     (if force
                      then "director: Force reconfiguration skipped because d.config is nil"%string
                      else "director: configs are nil. skipping apply"%string)))
               tt]
        /\ o = Done Continue
      else
        match Nodes (watcher d) with
        | None =>
            rest =
              [GEv (Method
                      (Log (if force then WarnLevel else DebugLevel) []
                         (if force
                          then "director: Force reconfiguration skipped because d.nodes is nil"%string
                          else "director: nodes are nil. skipping apply"%string)))
                   tt]
            /\ o = Done Continue
        | Some _ =>
            exists ta oa,
              yields (reconfigure force d) ta (oa, d)
              /\ rest =
                   (if force
                    then [GEv (Method
                                 (Log InfoLevel []
                                    "director: Force reconfiguration w/o parity check timer went off"%string))
                              tt]
                    else [])
                     ++ map ofMethod ta
              /\ o = match oa with
                     | Done _ => Done Continue
                     | Panicking msg => Panicking msg
                     end
        end
  end.

End TimerCases.

(** ** The goroutine loops *)

Module Loops.

(** What the input pump and the watch loop share with the rest of the
    process. *)
Record shared := {
  chanBuf : list (option (list Node)); (* d.nodeChan, capacity 1 *)
  tickReady : bool;                     (* a tick waits in t.C *)
  watchDone : bool;                     (* d.ctxWatch.Done() is closed *)
  parentDone : bool;                    (* d.ctx.Done() is closed *)
  watcherNodes : option (list Node);    (* d.watcher.Nodes *)
  cachedNode : option Node              (* d.node *)
}.

Definition nodeChanCapacity : nat := 1.

Definition with_chanBuf (b : list (option (list Node))) (s : shared) : shared :=
  {| chanBuf := b; tickReady := tickReady s; watchDone := watchDone s;
     parentDone := parentDone s; watcherNodes := watcherNodes s;
     cachedNode := cachedNode s |}.

Definition with_tickReady (b : bool) (s : shared) : shared :=
  {| chanBuf := chanBuf s; tickReady := b; watchDone := watchDone s;
     parentDone := parentDone s; watcherNodes := watcherNodes s;
     cachedNode := cachedNode s |}.

Definition with_cachedNode (n : option Node) (s : shared) : shared :=
  {| chanBuf := chanBuf s; tickReady := tickReady s; watchDone := watchDone s;
     parentDone := parentDone s; watcherNodes := watcherNodes s;
     cachedNode := n |}.

(** Where the goroutine of [causePeriodicWatcherSync] stands: at one of the
    three statements of its loop body, inside the send with the value to
    send already evaluated, or returned. *)
Inductive pumpPc :=
| PumpLog
| PumpSend
| PumpSending (v : option (list Node))
| PumpTick
| PumpReturned.

(** One step of [causePeriodicWatcherSync] (lines 154-165); [None] when the
    goroutine cannot move (a send on a full channel, a receive with no
    tick, or a goroutine that has returned).  The send statement
    [d.nodeChan <- d.watcher.Nodes] reads [d.watcher.Nodes] when it starts,
    and then waits for room in the channel with that value. *)
Definition pumpStep (pc : pumpPc) (s : shared) : option (pumpPc * shared) :=
  match pc with
  | PumpLog => Some (PumpSend, s)
  | PumpSend => Some (PumpSending (watcherNodes s), s)
  | PumpSending v =>
      if Nat.ltb (length (chanBuf s)) nodeChanCapacity
      then Some (PumpTick, with_chanBuf (chanBuf s ++ [v]) s)
      else None
  | PumpTick =>
      if tickReady s then Some (PumpLog, with_tickReady false s) else None
  | PumpReturned => None
  end.

(** The cases of the [select] in [watches]. *)
Inductive selected := SelNodes | SelParentDone | SelWatchDone.

Inductive watchesPc := WatchesSelect | WatchesReturned.

(** The loop over the received nodes (lines 244-250): the last node whose
    name is the director's is cached. *)
Definition cacheNode (nodeName : string) (nodes : list Node)
    (cur : option Node) : option Node :=
  fold_left (fun acc n => if String.eqb (Name n) nodeName then Some n else acc)
    nodes cur.

(** One turn of the loop of [watches] (lines 225-271), for the case the
    [select] picks; [None] when that case is not ready. *)
Definition watchesStep (nodeName : string) (pick : selected)
    (pc : watchesPc) (s : shared) : option (watchesPc * shared) :=
  match pc with
  | WatchesReturned => None
  | WatchesSelect =>
      match pick with
      | SelNodes =>
          match chanBuf s with
          | [] => None
          | nodes :: rest =>
              let nodes := match nodes with Some l => l | None => [] end in
              Some (WatchesSelect,
                    with_cachedNode (cacheNode nodeName nodes (cachedNode s))
                      (with_chanBuf rest s))
          end
      | SelParentDone =>
          if parentDone s then Some (WatchesReturned, s) else None
      | SelWatchDone =>
          if watchDone s then Some (WatchesReturned, s) else None
      end
  end.

(** A step of the process as the pump sees it: the pump moves, or the other
    goroutines, the ticker and the contexts change the shared state; a
    cancelled context stays cancelled. *)
Inductive sysStep : pumpPc * shared -> pumpPc * shared -> Prop :=
| sys_pump pc s pc' s' :
    pumpStep pc s = Some (pc', s') -> sysStep (pc, s) (pc', s')
| sys_others pc s s' :
    (watchDone s = true -> watchDone s' = true) ->
    (parentDone s = true -> parentDone s' = true) ->
    sysStep (pc, s) (pc, s').

(** The pump under a fixed schedule: before each of its [n] steps the
    rest of the process rewrites the shared state with [others]; a blocked
    pump waits. *)
Fixpoint pumpRun (others : shared -> shared) (n : nat) (pc : pumpPc)
    (s : shared) : pumpPc * shared :=
  match n with
  | O => (pc, s)
  | S n =>
      let s := others s in
      match pumpStep pc s with
      | Some (pc', s') => pumpRun others n pc' s'
      | None => pumpRun others n pc s
      end
  end.

End Loops.

(** ** A scripted environment *)

Module Fake.
Local Open Scope string_scope.

(** Rules are lines of text; [BytesFromRules] joins them with newlines. *)
Definition fakeExt : Externals :=
  {| Rule := string; ServiceDef := unit; MTUConf := unit;
     BytesFromRules := fun rules =>
       list_byte_of_string (String.concat (String "010" "") rules) |}.
#[local] Existing Instance fakeExt.

(** A host: its clock, the next free context or channel identity, the V4
    addresses on the interface, the iptables rules, whether IPVS matches the
    configuration, and the operations that fail, by name. *)
Record host := {
  clock : Z;
  fresh : nat;
  addrs : list string;
  rules : list string;
  same : bool;
  faults : list string
}.

Definition fault (name : string) (h : host) : option error :=
  if existsb (String.eqb name) (faults h)
  then Some (name ++ " failed")
  else None.

Definition mem (a : string) (l : list string) : bool :=
  existsb (String.eqb a) l.

Definition tick (h : host) : host :=
  {| clock := clock h + 1; fresh := fresh h; addrs := addrs h;
     rules := rules h; same := same h; faults := faults h |}.

Definition bump (h : host) : host :=
  {| clock := clock h; fresh := S (fresh h); addrs := addrs h;
     rules := rules h; same := same h; faults := faults h |}.

Definition with_addrs (l : list string) (h : host) : host :=
  {| clock := clock h; fresh := fresh h; addrs := l;
     rules := rules h; same := same h; faults := faults h |}.

Definition with_rules (l : list string) (h : host) : host :=
  {| clock := clock h; fresh := fresh h; addrs := addrs h;
     rules := l; same := same h; faults := faults h |}.

(** An operation that fails when the script says so and otherwise changes
    the host. *)
Definition attempt (name : string) (change : host -> host) (h : host)
  : option error * host :=
  match fault name h with
  | Some e => (Some e, h)
  | None => (None, change h)
  end.

Definition fakeEnv (c : @call fakeExt) : host -> @resp fakeExt c * host :=
  match c as c0 return host -> @resp fakeExt c0 * host with
  | IPSetARP => attempt "IP.SetARP" (fun h => h)
  | IPGet => fun h => ((addrs h, [], fault "IP.Get" h), h)
  | IPCompare4 configured desired => fun h =>
      ((filter (fun a => negb (mem a desired)) configured,
        filter (fun a => negb (mem a configured)) desired), h)
  | IPDel a =>
      attempt ("IP.Del " ++ a)
        (fun h => with_addrs (filter (fun b => negb (String.eqb a b)) (addrs h)) h)
  | IPAdd a =>
      attempt ("IP.Add " ++ a) (fun h => with_addrs (app (addrs h) [a]) h)
  | IPAdvertiseMacAddress a =>
      fun h => (if mem a (addrs h) then None else Some ("no such address " ++ a), h)
  | IPSetMTU _ _ => attempt "IP.SetMTU" (fun h => h)
  | IPTeardown _ _ _ => attempt "IP.Teardown" (with_addrs [])
  | IPVSCheckConfigParity _ _ _ => fun h =>
      ((same h, fault "IPVS.CheckConfigParity" h), h)
  | IPVSSetIPVS _ _ _ => attempt "IPVS.SetIPVS" (fun h => h)
  | IPVSTeardown _ => attempt "IPVS.Teardown" (fun h => h)
  | IPTablesFlush => attempt "IPTables.Flush" (with_rules [])
  | IPTablesSave => fun h => ((rules h, fault "IPTables.Save" h), h)
  | IPTablesGenerateRulesForNodeClassic _ nodeName _ _ => fun h =>
      ((["-A RAVEL -m comment --comment " ++ nodeName],
        fault "IPTables.GenerateRulesForNodeClassic" h), h)
  | IPTablesMerge generated existing => fun h =>
      ((app existing generated, generated, fault "IPTables.Merge" h), h)
  | IPTablesRestore merged => attempt "IPTables.Restore" (with_rules merged)
  | MetricsReconfigure _ _ => fun h => (tt, h)
  | MetricsIptablesWriteFailure _ => fun h => (tt, h)
  | Log _ _ _ => fun h => (tt, h)
  | TimeNow => fun h => (clock h, tick h)
  | WriteFile _ _ _ => attempt "ioutil.WriteFile" (fun h => h)
  | ContextWithCancel _ => fun h => (fresh h, bump h)
  | ContextWithTimeout _ => fun h => (fresh h, bump h)
  | CancelCtx _ => fun h => (tt, h)
  | MakeChan _ => fun h => (fresh h, bump h)
  | AwaitDoneOrAfter _ _ => fun h => (true, h)
  | Go _ => fun h => (tt, h)
  end.

(** Two VIPs are configured. *)
Definition twoVips : @clusterConfig fakeExt :=
  {| Config := [("10.0.0.1", tt); ("10.0.0.2", tt)]; Config6 := [];
     MTUConfig := tt |}.

Definition theWatcher : @Watcher fakeExt :=
  {| ClusterConfig := Some twoVips; Nodes := Some [ {| Name := "node-a" |} ] |}.

(** A watcher that has not loaded a configuration yet. *)
Definition emptyWatcher : @Watcher fakeExt :=
  {| ClusterConfig := None; Nodes := None |}.

(** A quiet host on which nothing fails and nothing is configured yet. *)
Definition quiet : host :=
  {| clock := 100; fresh := 1; addrs := []; rules := ["-A INPUT -j ACCEPT"];
     same := false; faults := [] |}.

Definition failing (names : list string) (h : host) : host :=
  {| clock := clock h; fresh := fresh h; addrs := addrs h;
     rules := rules h; same := same h; faults := names |}.

Definition inParity (h : host) : host :=
  {| clock := clock h; fresh := fresh h; addrs := addrs h;
     rules := rules h; same := true; faults := faults h |}.

(** A running director with the local node cached, in the given colocation
    mode. *)
Definition running (mode : string) : @director fakeExt :=
  {| isStarted := true; doneChan := 3; err := None; nodeName := "node-a";
     node := Some {| Name := "node-a" |}; nodeChan := 2;
     ctxWatch := Some 4; cxlWatch := Some 4; reconfiguring := false;
     watcher := theWatcher; doCleanup := true; colocationMode := mode;
     forcedReconfigure := false; ctx := 0 |}.

(** The director [NewDirector] builds on the quiet host, and the host after
    the construction. *)
Definition built : (@director fakeExt * option error) * (list (@event fakeExt) * host) :=
  exec fakeEnv
    (NewDirector 0 "node-a" "key" true theWatcher colocationModeDisabled false)
    quiet.

Definition fresh_director : @director fakeExt := fst (fst built).
Definition fresh_host : host := snd (snd built).

(** The first [Start] of that director. *)
Definition started : ran (W := host) (option error) :=
  run fakeEnv Start fresh_director fresh_host.

(** A pump waiting for its tick, with a node list already in the channel,
    a tick ready and the watch context cancelled. *)
Definition cancelledPump : Loops.pumpPc * Loops.shared :=
  (Loops.PumpTick,
   {| Loops.chanBuf := [Some [ {| Name := "node-a" |} ]];
      Loops.tickReady := true; Loops.watchDone := true;
      Loops.parentDone := false;
      Loops.watcherNodes := Some [ {| Name := "node-a" |} ];
      Loops.cachedNode := None |}).



(** Durations are shown in nanoseconds, and the nil map is the map without
    keys. *)
Definition fakeDuration (t : time) : string :=
  NilZero.string_of_int (Z.to_int t) ++ "ns".

Definition fakeNilMap (m : list (string * unit)) : bool :=
  match m with
  | [] => true
  | _ => false
  end.

Definition fakeNilMap_empty (m : list (string * unit))
  : fakeNilMap m = true -> m = [] :=
  match m with
  | [] => fun _ => eq_refl
  | _ :: _ => fun H => match Bool.diff_false_true H with end
  end.

Definition fakeRuntime : @Runtime fakeExt :=
  {| durationString := fakeDuration; isNilMap := fakeNilMap;
     nil_map_empty := fakeNilMap_empty |}.
#[local] Existing Instance fakeRuntime.

(** The host together with the runtime of the goroutines: the cases their
    [select]s will take, in order (when the script is over, the watch
    context is cancelled), and whether [Stop] is still receiving on the done
    channel. *)
Record stage := {
  machine : host;
  arpsScript : list arpsCase;
  periodicScript : list periodicCase;
  listening : bool
}.

Definition onMachine {A : Type} (s : stage) (r : A * host) : A * stage :=
  (fst r,
   {| machine := snd r; arpsScript := arpsScript s;
      periodicScript := periodicScript s; listening := listening s |}).

Definition fakeGenv (c : @gcall fakeExt) : stage -> @gresp fakeExt c * stage :=
  match c as c0 return stage -> @gresp fakeExt c0 * stage with
  | Method c => fun s => onMachine s (fakeEnv c (machine s))
  | MetricsArpingFailure _ => fun s => (tt, s)
  | NewTicker _ => fun s =>
      onMachine s (fresh (machine s), bump (machine s))
  | TickerStop _ => fun s => (tt, s)
  | SelectArps _ _ _ => fun s =>
      match arpsScript s with
      | [] => (ArpsWatchDone, s)
      | p :: rest =>
          (p, {| machine := machine s; arpsScript := rest;
                 periodicScript := periodicScript s;
                 listening := listening s |})
      end
  | SelectPeriodic _ _ _ _ => fun s =>
      match periodicScript s with
      | [] => (PeriodicWatchDone, s)
      | p :: rest =>
          (p, {| machine := machine s; arpsScript := arpsScript s;
                 periodicScript := rest; listening := listening s |})
      end
  | SendDone _ => fun s => (listening s, s)
  end.

Definition scripted (h : host) (a : list arpsCase) (p : list periodicCase)
  : stage :=
  {| machine := h; arpsScript := a; periodicScript := p; listening := true |}.

(** [Stop] has given up waiting. *)
Definition deaf (s : stage) : stage :=
  {| machine := machine s; arpsScript := arpsScript s;
     periodicScript := periodicScript s; listening := false |}.

(** A running director whose Watcher has not loaded a configuration. *)
Definition unconfigured : @director fakeExt :=
  {| isStarted := true; doneChan := 3; err := None; nodeName := "node-a";
     node := None; nodeChan := 2;
     ctxWatch := Some 4; cxlWatch := Some 4; reconfiguring := false;
     watcher := emptyWatcher; doCleanup := true;
     colocationMode := colocationModeIPTables;
     forcedReconfigure := false; ctx := 0 |}.

(** What the watch loop shares when the local node has left the cluster:
    the list in the channel no longer has it, and it is still cached. *)
Definition nodeGone : Loops.shared :=
  {| Loops.chanBuf := [Some [ {| Name := "node-b" |} ]];
     Loops.tickReady := false; Loops.watchDone := false;
     Loops.parentDone := false;
     Loops.watcherNodes := Some [ {| Name := "node-b" |} ];
     Loops.cachedNode := Some {| Name := "node-a" |} |}.

(** What the pump shares at the start: an empty channel. *)
Definition idle : Loops.shared :=
  {| Loops.chanBuf := []; Loops.tickReady := false; Loops.watchDone := false;
     Loops.parentDone := false;
     Loops.watcherNodes :=
       Some [ {| Name := "node-a" |}; {| Name := "node-b" |} ];
     Loops.cachedNode := None |}.
End Fake.

(** * Properties *)

Section Theory.
Context {ext : Externals} {W : Type}.
Variable env : forall c : call, W -> resp c * W.

(** ** Running composed programs *)

Lemma exec_pbind {A B : Type} (p : prog A) (f : A -> prog B) (w : W) :
  exec env (pbind p f) w =
    let r := exec env p w in
    let r' := exec env (f (fst r)) (snd (snd r)) in
    (fst r', (fst (snd r) ++ fst (snd r'), snd (snd r'))).
Proof.
  revert w. induction p as [a | c k IH]; intros w; simpl.
  - destruct (exec env (f a) w) as [b [t w']]. reflexivity.
  - rewrite IH. reflexivity.
Qed.

Lemma run_bind {A B : Type} (m : M A) (f : A -> M B) (d : director) (w : W) :
  run env (bind m f) d w = after (run env m d w) (fun a => run env (f a)).
Proof.
  unfold run, bind, after. rewrite exec_pbind. simpl.
  destruct (exec env (m d) w) as [[o d'] [t w']]. simpl.
  destruct o as [a | msg]; simpl.
  - reflexivity.
  - rewrite app_nil_r. reflexivity.
Qed.

Lemma run_ret {R : Type} (x : R) (d : director) (w : W) :
  run env (ret x) d w = Ran (Done x) d [] w.
Proof. reflexivity. Qed.

Lemma run_panic {R : Type} (msg : string) (d : director) (w : W) :
  run env (@panic ext R msg) d w = Ran (Panicking msg) d [] w.
Proof. reflexivity. Qed.

Lemma run_get (d : director) (w : W) :
  run env get d w = Ran (Done d) d [] w.
Proof. reflexivity. Qed.

Lemma run_modify (f : director -> director) (d : director) (w : W) :
  run env (modify f) d w = Ran (Done tt) (f d) [] w.
Proof. reflexivity. Qed.

Lemma run_perform (c : call) (d : director) (w : W) :
  run env (perform c) d w =
    Ran (Done (fst (env c w))) d [Ev c (fst (env c w))] (snd (env c w)).
Proof. reflexivity. Qed.

Lemma run_defer {R : Type} (deferred : M unit) (body : M R) (d : director)
    (w : W) :
  run env (defer deferred body) d w =
    let r := run env body d w in
    let r' := run env deferred (dir r) (world r) in
    Ran (out r) (dir r') (events r ++ events r') (world r').
Proof.
  unfold run, defer. rewrite exec_pbind. simpl. rewrite exec_pbind. simpl.
  rewrite app_nil_r. reflexivity.
Qed.

(** ** From programs to runs *)

Lemma always_exec {R : Type} (P : call -> Prop) (Q : R -> Prop) (p : prog R) :
  always P Q p ->
  forall w, Forall P (calls (fst (snd (exec env p w)))) /\ Q (fst (exec env p w)).
Proof.
  induction p as [r | c k IH]; simpl; intros H w.
  - split; [constructor | exact H].
  - destruct H as [Hc Hk].
    destruct (IH (fst (env c w)) (Hk _) (snd (env c w))) as [Hall HQ].
    split; [constructor; assumption | exact HQ].
Qed.

Lemma always_pbind {A B : Type} (P : call -> Prop) (Q : B -> Prop)
    (p : prog A) (f : A -> prog B) :
  always P (fun a => always P Q (f a)) p -> always P Q (pbind p f).
Proof.
  induction p as [a | c k IH]; simpl; intros H.
  - exact H.
  - destruct H as [Hc Hk]. split; [exact Hc | intros x; apply IH, Hk].
Qed.

Lemma always_weaken {R : Type} (P P' : call -> Prop) (Q Q' : R -> Prop)
    (p : prog R) :
  (forall c, P c -> P' c) -> (forall r, Q r -> Q' r) ->
  always P Q p -> always P' Q' p.
Proof.
  intros HP HQ. induction p as [r | c k IH]; simpl.
  - apply HQ.
  - intros [Hc Hk]. split; [apply HP, Hc | intros x; apply IH, Hk].
Qed.

(** The form of [always_pbind] for methods. *)
Lemma always_bind {A B : Type} (P : call -> Prop)
    (Q : result B * director -> Prop) (m : M A) (f : A -> M B) (d : director) :
  always P (fun od =>
              match fst od with
              | Done a => always P Q (f a (snd od))
              | Panicking msg => Q (Panicking msg, snd od)
              end) (m d) ->
  always P Q (bind m f d).
Proof.
  intros H. unfold bind. apply always_pbind.
  revert H. apply always_weaken; [auto |].
  intros [o d'] Ho; simpl in *. destruct o; exact Ho.
Qed.

Lemma always_run {R : Type} (P : call -> Prop)
    (Q : result R * director -> Prop) (m : M R) (d : director) (w : W) :
  always P Q (m d) ->
  Forall P (calls (events (run env m d w)))
  /\ Q (out (run env m d w), dir (run env m d w)).
Proof.
  intros H. destruct (always_exec P Q (m d) H w) as [Hall HQ].
  split; [exact Hall |].
  unfold run; simpl. destruct (fst (exec env (m d) w)); exact HQ.
Qed.

Lemma whatever_weaken {R : Type} (p : prog R)
    (T T' : list event -> R -> Prop) :
  (forall t r, T t r -> T' t r) -> whatever p T -> whatever p T'.
Proof.
  revert T T'. induction p as [r | c k IH]; simpl; intros T T' HT H.
  - apply HT, H.
  - intros x. apply (IH x (fun t r => T (Ev c x :: t) r)); [| apply H].
    intros t r. apply HT.
Qed.

Lemma whatever_exec {R : Type} (p : prog R) (T : list event -> R -> Prop) :
  whatever p T ->
  forall w, T (fst (snd (exec env p w))) (fst (exec env p w)).
Proof.
  revert T. induction p as [r | c k IH]; simpl; intros T H w.
  - exact H.
  - apply (IH _ (fun t r => T (Ev c (fst (env c w)) :: t) r)), H.
Qed.

Lemma whatever_run {R : Type} (m : M R) (d : director)
    (T : list event -> result R * director -> Prop) :
  whatever (m d) T ->
  forall w, T (events (run env m d w)) (out (run env m d w), dir (run env m d w)).
Proof.
  intros H w. pose proof (whatever_exec _ _ H w) as HT.
  unfold run; simpl. destruct (fst (exec env (m d) w)); exact HT.
Qed.

Lemma run_whatever {R : Type} (m : M R) (d : director)
    (T : list event -> result R * director -> Prop) :
  whatever (m d) (fun t od => finished (T t od)) ->
  forall w, T (events (run env m d w)) (out (run env m d w), dir (run env m d w)).
Proof.
  intros H w. apply (whatever_run m d _ H w).
Qed.

(** The form in which the theorems below use it: the statement about a
    run is read as a statement about its events, result and receiver. *)
Lemma run_by_execution {R : Type} (m : M R) (d : director)
    (T : list event -> result R -> director -> Prop) :
  whatever (m d) (fun t od => finished (T t (fst od) (snd od))) ->
  forall w,
    T (events (run env m d w)) (out (run env m d w)) (dir (run env m d w)).
Proof.
  intros H w.
  exact (run_whatever m d (fun t od => T t (fst od) (snd od)) H w).
Qed.

Lemma whatever_self {R : Type} (p : prog R) : whatever p (yields p).
Proof.
  induction p as [r | c k IH]; simpl.
  - constructor.
  - intros x. generalize (IH x). apply whatever_weaken.
    intros t r Hy. constructor. exact Hy.
Qed.

Lemma whatever_pbind {A B : Type} (p : prog A) (f : A -> prog B)
    (T : list event -> B -> Prop) :
  whatever p (fun t1 a => whatever (f a) (fun t2 b => T (t1 ++ t2) b)) ->
  whatever (pbind p f) T.
Proof.
  revert T. induction p as [a | c k IH]; simpl; intros T H.
  - exact H.
  - intros x. apply IH. apply H.
Qed.

Lemma whatever_bind {A B : Type} (m : M A) (f : A -> M B) (d : director)
    (T : list event -> result B * director -> Prop) :
  whatever (m d) (fun t1 od =>
    match fst od with
    | Done a => whatever (f a (snd od)) (fun t2 r => T (t1 ++ t2) r)
    | Panicking msg => T t1 (Panicking msg, snd od)
    end) ->
  whatever (bind m f d) T.
Proof.
  intros H. unfold bind. apply whatever_pbind.
  revert H. apply whatever_weaken.
  intros t [o d'] Ho; simpl in *. destruct o; [exact Ho |].
  simpl. rewrite app_nil_r. exact Ho.
Qed.

Lemma always_whatever {R : Type} (P : call -> Prop) (Q : R -> Prop)
    (p : prog R) :
  always P Q p -> whatever p (fun t r => Forall P (calls t) /\ Q r).
Proof.
  induction p as [r | c k IH]; simpl.
  - intros H. split; [constructor | exact H].
  - intros [Hc Hk] x. generalize (IH x (Hk x)). apply whatever_weaken.
    intros t r [Hall HQ]. split; [constructor; assumption | exact HQ].
Qed.

Lemma whatever_and {R : Type} (p : prog R) (T T' : list event -> R -> Prop) :
  whatever p T -> whatever p T' -> whatever p (fun t r => T t r /\ T' t r).
Proof.
  revert T T'. induction p as [r | c k IH]; simpl; intros T T' H H'.
  - split; assumption.
  - intros x.
    apply (IH x (fun t r => T (Ev c x :: t) r) (fun t r => T' (Ev c x :: t) r));
      [apply H | apply H'].
Qed.

Lemma exec_yields {R : Type} (p : prog R) (w : W) :
  yields p (fst (snd (exec env p w))) (fst (exec env p w)).
Proof.
  revert w. induction p as [r | c k IH]; simpl; intros w.
  - constructor.
  - constructor. apply IH.
Qed.

Lemma run_yields {R : Type} (m : M R) (d : director) (w : W) :
  yields (m d) (events (run env m d w))
    (out (run env m d w), dir (run env m d w)).
Proof.
  unfold run; simpl. pose proof (exec_yields (m d) w) as H.
  destruct (fst (exec env (m d) w)); exact H.
Qed.

Lemma whatever_yields {R : Type} (p : prog R) (T : list event -> R -> Prop) :
  whatever p T -> forall t r, yields p t r -> T t r.
Proof.
  intros H t r Hy. revert T H.
  induction Hy as [r | c k x t r Hy IH]; simpl; intros T H.
  - exact H.
  - apply (IH (fun t r => T (Ev c x :: t) r)), H.
Qed.

(** ** The calls of each method *)

(* The scrutinee on which the symbolic execution of a program is stuck. *)
Ltac stuck_on p :=
  lazymatch p with
  | pbind ?q _ => stuck_on q
  | bind ?m _ _ => stuck_on m
  | bind ?m _ => stuck_on m
  | defer _ ?b _ => stuck_on b
  | match ?x with _ => _ end => x
  | ?f _ => stuck_on f
  end.

Ltac split_on x := tryif is_var x then destruct x else destruct x eqn:?.

Ltac always_go :=
  repeat first
    [ progress cbn
    | match goal with
      | |- _ /\ _ => split
      | |- forall _, _ => intro
      | |- True => exact I
      | |- _ = _ => reflexivity
      | |- match ?x with _ => _ end => destruct x
      | |- always _ _ ?p => let x := stuck_on p in split_on x
      end ].

(* Introduces an answer, never a hypothesis. *)
Ltac intro_answer :=
  match goal with
  | |- forall x : ?A, _ =>
      let s := type of A in
      lazymatch s with Prop => fail | _ => intro end
  end.

(* Turns a goal about the run [r] into one about every execution of its
   program. *)
Ltac by_execution r :=
  repeat match goal with x := _ |- _ => subst x end;
  pattern (events r), (out r), (dir r);
  lazymatch r with
  | run _ ?m ?d _ => apply (run_by_execution m d)
  end.

Ltac whatever_go :=
  repeat first
    [ progress cbn
    | intro_answer
    | match goal with
      | |- match ?x with _ => _ end => destruct x
      | |- whatever ?p _ => let x := stuck_on p in split_on x
      end ].

Lemma delRemovals_calls (removals : list string) (d : director) :
  always (fun c => addressCall c = true) (fun od => snd od = d)
    (delRemovals removals d).
Proof. induction removals as [| a rest IH]; always_go. exact IH. Qed.

Lemma addAdditions_calls (additions : list string) (d : director) :
  always (fun c => addressCall c = true) (fun od => snd od = d)
    (addAdditions additions d).
Proof. induction additions as [| a rest IH]; always_go; exact IH. Qed.

Lemma setAddresses_calls (d : director) :
  always (fun c => addressCall c = true) (fun od => snd od = d)
    (setAddresses d).
Proof.
  open_setAddresses. always_go.
  apply always_bind.
  eapply always_weaken; [ | | apply delRemovals_calls ]; [auto |].
  intros [o d'] Hd; simpl in Hd; subst d'. always_go.
  apply always_bind.
  eapply always_weaken; [ | | apply addAdditions_calls ]; [auto |].
  intros [o' d'] Hd; simpl in Hd; subst d'. always_go.
Qed.

Lemma setIPTables_calls (d : director) :
  always (fun c => iptablesCall c = true) (fun od => snd od = d)
    (setIPTables d).
Proof. open_setIPTables. always_go. Qed.

Lemma applySteps_calls (start : time) (d : director) :
  always (fun c => stepsCall c = true) (fun od => snd od = d)
    (applySteps start d).
Proof.
  open_applySteps. apply always_bind.
  eapply always_weaken; [ | | apply setAddresses_calls ].
  { intros c Hc. unfold stepsCall. simpl in Hc. rewrite Hc. reflexivity. }
  intros [o d'] Hd; simpl in Hd; subst d'. always_go.
  apply always_bind. apply always_bind.
  eapply always_weaken; [ | | apply setIPTables_calls ].
  { intros c Hc. unfold stepsCall. simpl in Hc. rewrite Hc, orb_true_r.
    reflexivity. }
  intros [o' d'] Hd; simpl in Hd; subst d'. always_go.
Qed.

Lemma stepsCall_not_parity (e : event) :
  stepsCall (ev_call e) = true -> parityAnswer e = None.
Proof. destruct e as [c x]; destruct c; simpl; intros H; try reflexivity; discriminate. Qed.

Lemma steps_never_answer_parity (t : list event) (a : bool * option error) :
  Forall (fun c => stepsCall c = true) (calls t) ->
  ~ Exists (fun e => parityAnswer e = Some a) t.
Proof.
  induction t as [| e t IH]; simpl; intros Hall Hex.
  - inversion Hex.
  - inversion Hall as [| c cs Hc Hcs]; subst.
    inversion Hex as [e' t' He | e' t' He]; subst.
    + rewrite (stepsCall_not_parity e Hc) in He. discriminate.
    + exact (IH Hcs He).
Qed.

(** ** The parity check *)

Ltac units := repeat match goal with u : unit |- _ => destruct u end.

Ltac exists_head H :=
  repeat (apply Exists_cons in H; destruct H as [H | H];
          [ simpl in H; try discriminate | ]).

(** C1. A non-forced apply whose parity check answers same=true (and no
    error) returns success, records exactly one metric sample, labelled
    "noop", and makes no mutating call: no IP.Add, IP.Del, IP.SetMTU,
    IPTables.Restore or IPVS.SetIPVS. *)
Theorem applyConf_noop (d : director) (w : W) :
  let r := run env (applyConf false) d w in
  Exists (fun e => parityAnswer e = Some (true, None)) (events r) ->
  out r = Done None
  /\ (exists elapsed,
        filter isMetric (calls (events r)) = [MetricsReconfigure "noop" elapsed])
  /\ Forall (fun c => mutating c = false) (calls (events r)).
Proof.
  intros r.
  by_execution (run env (applyConf false) d w).
  unfold applyConf. open_parityBlock. whatever_go.
  all: lazymatch goal with
       | |- whatever _ _ =>
           eapply whatever_weaken; [| apply always_whatever, applySteps_calls];
           intros t r0 [Hall _]; open_finished; intros Hex; exfalso;
           exists_head Hex;
           exact (steps_never_answer_parity t _ Hall Hex)
       | |- _ =>
           open_finished; intros Hex; exists_head Hex;
           first [ solve [inversion Hex]
                 | repeat split; [eexists; reflexivity | repeat constructor] ]
       end.
Qed.

(** C10. In a non-forced apply, an error of the parity path's IP.Get (the
    third event of the apply) is not fatal: it is logged, and
    IPVS.CheckConfigParity is the next call, made with the addresses the
    failed call returned (V4 followed by V6; the empty list when both are
    nil); what the apply returns then depends on the parity verdict alone. *)
Theorem applyConf_get_error_not_fatal (d : director) (w : W)
    (ev : event) (v4 v6 : list string) (e : error) :
  let r := run env (applyConf false) d w in
  nth_error (events r) 2 = Some ev ->
  getAnswer ev = Some (v4, v6, Some e) ->
  exists start verdict rest,
    events r =
      [Ev (Log DebugLevel [] "director: applying configuration") tt;
       Ev TimeNow start;
       Ev IPGet (v4, v6, Some e);
       Ev (Log ErrorLevel [] ("director: error creating interface: " ++ e)%string) tt;
       Ev (IPVSCheckConfigParity (watcher d) (ClusterConfig (watcher d))
             (v4 ++ v6)) verdict] ++ rest
    /\ (verdict = (true, None) -> out r = Done None)
    /\ (forall same pe, verdict = (same, Some pe) ->
        out r = Done (Some
          ("director: unable to compare configurations with error " ++ pe)%string))
    /\ (verdict = (false, None) ->
        exists ts,
          rest = Ev (Log InfoLevel [] "director: configuration parity mismatch") tt
                   :: ts
          /\ yields (applySteps start d) ts (out r, dir r)).
Proof.
  intros r. revert ev v4 v6 e.
  by_execution (run env (applyConf false) d w).
  unfold applyConf. open_parityBlock. whatever_go.
  all: lazymatch goal with
       | |- whatever _ _ =>
           eapply whatever_weaken; [| apply whatever_self];
           intros t [o d'] Hy; open_finished; cbn [fst snd];
           intros ev v4 v6 e' Hnth Hans
       | |- _ => open_finished; intros ev v4 v6 e' Hnth Hans
       end.
  all: simpl in Hnth; injection Hnth as <-; simpl in Hans;
       try discriminate; injection Hans as -> -> ->; units.
  all: do 3 eexists; split; [reflexivity |].
  all: repeat split; try discriminate; try reflexivity.
  all: try (intros same pe Heq; injection Heq as <- <-; reflexivity).
  all: intros _; eexists; split; [reflexivity | eassumption].
Qed.

(** ** The iptables step *)

(* Finds where an event stands in a trace that is known event by event. *)
Ltac locate pre Hsplit Hans :=
  let rec go :=
    destruct pre as [| ? pre]; simpl in Hsplit;
    [ first [ discriminate Hsplit
            | injection Hsplit as <- <-; simpl in Hans; try discriminate Hans ]
    | first [ discriminate Hsplit
            | injection Hsplit as _ Hsplit; go ] ]
  in go.

Lemma list_byte_of_string_app (a b : string) :
  list_byte_of_string (a ++ b)%string =
    list_byte_of_string a ++ list_byte_of_string b.
Proof.
  induction a as [| c a IH]; simpl.
  - reflexivity.
  - unfold list_byte_of_string in *. simpl. rewrite IH. reflexivity.
Qed.

Lemma createErrorLog_bytes (e : error) (rules : list byte) :
  createErrorLog (Some e) rules =
    list_byte_of_string "ipvs restore error: " ++ list_byte_of_string e
      ++ ["010"%byte] ++ rules.
Proof.
  unfold createErrorLog. rewrite !list_byte_of_string_app.
  rewrite <- !app_assoc. reflexivity.
Qed.

Opaque createErrorLog.

(* The same, keeping the events that stand before it. *)
Ltac locate_all pre Hsplit Hans :=
  let rec go :=
    destruct pre as [| ? pre]; simpl in Hsplit;
    [ first [ discriminate Hsplit
            | injection Hsplit as <- <-; simpl in Hans; try discriminate Hans ]
    | first [ discriminate Hsplit
            | injection Hsplit as <- Hsplit; go ] ]
  in go.

(** C4. [setIPTables] gives IPTables.Restore the merged rules: the rules
    IPTables.Merge answered for the rules generated for the local node and
    the rules IPTables.Save found, all three calls having succeeded.  When
    Restore fails with [e] on them, [setIPTables] sets IptablesWriteFailure
    to 1, logs, writes /tmp/director-ruleset-err with mode 0644 and the
    content "ipvs restore error: <e>\n" followed by the bytes of the merged
    rules, logs a failure of that write without returning it, does nothing
    else, and returns [e] itself.  When Restore succeeds it sets
    IptablesWriteFailure to 0, does nothing else, and returns nil. *)
Theorem setIPTables_restore (d : director) (w : W)
    (pre post : list event) (ev : event) (merged : list Rule) :
  let r := run env setIPTables d w in
  events r = pre ++ ev :: post ->
  (forall res, restoreAnswer ev = Some (merged, res) ->
     exists n existing generated other,
       node d = Some n
       /\ pre =
            [Ev (Log DebugLevel [] "director: capturing iptables rules"%string) tt;
             Ev IPTablesSave (existing, None);
             Ev (Log DebugLevel []
                   ("director: got " ++ decimal (length existing)
                      ++ " existing rules")%string) tt;
             Ev (Log DebugLevel [] "director: generating iptables rules"%string) tt;
             Ev (IPTablesGenerateRulesForNodeClassic (watcher d) (Name n)
                   (ClusterConfig (watcher d)) true) (generated, None);
             Ev (Log DebugLevel []
                   ("director: got " ++ decimal (length generated)
                      ++ " generated rules")%string) tt;
             Ev (Log DebugLevel [] "director: merging iptables rules"%string) tt;
             Ev (IPTablesMerge generated existing) (merged, other, None);
             Ev (Log DebugLevel []
                   ("director: got " ++ decimal (length merged)
                      ++ " merged rules")%string) tt;
             Ev (Log DebugLevel [] "director: applying updated rules"%string) tt])
  /\ (forall e, restoreAnswer ev = Some (merged, Some e) ->
     out r = Done (Some e)
     /\ exists writeErr,
          post =
            [Ev (MetricsIptablesWriteFailure 1) tt;
             Ev (Log ErrorLevel []
                   "error applying rules. writing erroneous rule change to /tmp/director-ruleset-err for debugging")
                tt;
             Ev (WriteFile "/tmp/director-ruleset-err"
                   (list_byte_of_string "ipvs restore error: "
                      ++ list_byte_of_string e ++ ["010"%byte]
                      ++ BytesFromRules merged)
                   (6 * 64 + 4 * 8 + 4)%N) writeErr]
            ++ match writeErr with
               | Some _ =>
                   [Ev (Log ErrorLevel []
                          ("error writing to file; logging rules: "
                             ++ string_of_list_byte (BytesFromRules merged))%string)
                       tt]
               | None => []
               end)
  /\ (restoreAnswer ev = Some (merged, None) ->
      out r = Done None /\ post = [Ev (MetricsIptablesWriteFailure 0) tt]).
Proof.
  intros r. revert pre post ev merged.
  by_execution (run env setIPTables d w).
  open_setIPTables. whatever_go.
  all: open_finished; intros pre post ev merged Hsplit.
  all: split; [intros res' Hans | split; [intros e' Hans | intros Hans]].
  all: locate_all pre Hsplit Hans.
  all: inversion Hans; subst; units.
  all: try (do 4 eexists; split; reflexivity).
  all: split; [reflexivity |].
  all: try reflexivity.
  all: match goal with
       | |- exists _, (_ :: _ :: Ev _ ?x :: _) = _ => exists x
       end.
  all: rewrite createErrorLog_bytes; reflexivity.
Qed.

(** ** Cleanup *)

Lemma append_assoc (a b c : string) :
  ((a ++ b) ++ c)%string = (a ++ b ++ c)%string.
Proof. induction a as [| x a IH]; simpl; [reflexivity | rewrite IH; reflexivity]. Qed.

Lemma append_nil_r (a : string) : (a ++ "")%string = a.
Proof. induction a as [| x a IH]; simpl; [reflexivity | rewrite IH; reflexivity]. Qed.

Lemma contains_refl (e : string) : contains e e.
Proof. exists ""%string, ""%string. simpl. rewrite append_nil_r. reflexivity. Qed.

Lemma contains_prepend (p msg e : string) :
  contains msg e -> contains (p ++ msg)%string e.
Proof.
  intros [a [b ->]]. exists (p ++ a)%string, b. rewrite append_assoc. reflexivity.
Qed.

Lemma contains_append (msg s e : string) :
  contains msg e -> contains (msg ++ s)%string e.
Proof.
  intros [a [b ->]]. exists a, (b ++ s)%string.
  rewrite !append_assoc. reflexivity.
Qed.

Lemma contains_concat (sep x e : string) (l : list string) :
  In x l -> contains x e -> contains (String.concat sep l) e.
Proof.
  induction l as [| y l IH]; simpl; intros Hin He.
  - destruct Hin.
  - destruct l as [| z l].
    + destruct Hin as [-> | []]. exact He.
    + destruct Hin as [-> | Hin].
      * apply contains_append. exact He.
      * apply contains_prepend, contains_prepend. apply IH; assumption.
Qed.

Lemma joinErrs_contains (errs : list string) (x e : string) :
  In x errs -> contains x e -> contains (joinErrs errs) e.
Proof.
  intros Hin He. unfold joinErrs.
  apply contains_prepend, contains_append.
  apply contains_concat with (x := x); assumption.
Qed.

Lemma contains_cons (c : ascii) (msg e : string) :
  contains msg e -> contains (String c msg) e.
Proof. apply (contains_prepend (String c "")). Qed.

Opaque joinErrs.

Ltac solve_contains :=
  first
    [ eapply joinErrs_contains;
      [ left; reflexivity | repeat apply contains_cons; apply contains_refl ]
    | eapply joinErrs_contains;
      [ right; left; reflexivity
      | repeat apply contains_cons; apply contains_refl ]
    | eapply joinErrs_contains;
      [ right; right; left; reflexivity
      | repeat apply contains_cons; apply contains_refl ] ].

(** C7 fails on the code when the Watcher holds no cluster configuration.
    [cleanup] flushes iptables first.  With a cluster configuration it goes
    on, whatever the flush answered, to the IP teardown over the configured
    V4 and V6 VIPs and to the IPVS teardown, and returns nil when all three
    succeed and otherwise one error whose message contains the message of
    every failure.  With a nil [d.watcher.ClusterConfig] (which [arps] tests
    for before it uses it) the argument of the IP teardown dereferences the
    nil pointer: [cleanup] panics right after the flush, neither teardown is
    attempted and no error is returned. *)
Theorem cleanup_accumulates (c : ctxId) (d : director) (w : W) :
  let r := run env (cleanup c) d w in
  match ClusterConfig (watcher d) with
  | Some cfg =>
      exists e1 e2 e3,
        events r =
          [Ev IPTablesFlush e1;
           Ev (IPTeardown c (Config cfg) (Config6 cfg)) e2;
           Ev (IPVSTeardown c) e3]
        /\ (e1 = None /\ e2 = None /\ e3 = None -> out r = Done None)
        /\ (~ (e1 = None /\ e2 = None /\ e3 = None) ->
            exists msg,
              out r = Done (Some msg)
              /\ forall e, In (Some e) [e1; e2; e3] -> contains msg e)
  | None =>
      exists e1,
        events r = [Ev IPTablesFlush e1]
        /\ out r = Panicking nilDereference
  end.
Proof.
  intros r.
  by_execution (run env (cleanup c) d w).
  open_cleanup. cbn. intros e1.
  destruct (ClusterConfig (watcher d)) as [cfg |]; cbn;
    [| open_finished; exists e1; split; reflexivity].
  intros e2 e3.
  destruct e1, e2, e3; cbn; open_finished.
  all: do 3 eexists; split; [reflexivity |]; split.
  all: try (intros [H1 [H2 H3]]; try discriminate; reflexivity).
  all: intros Hn; try (exfalso; apply Hn; repeat split; reflexivity).
  all: eexists; split; [reflexivity |].
  all: intros e' Hin; simpl in Hin.
  all: repeat match goal with
       | H : _ \/ _ |- _ => destruct H
       | H : False |- _ => destruct H
       | H : Some _ = Some _ |- _ => injection H as ->
       | H : None = Some _ |- _ => discriminate H
       end.
  all: solve_contains.
Qed.

(** X28. With no cluster configuration loaded, [cleanup] panics on the nil
    pointer after the iptables flush, whatever the flush answered: neither
    the addresses nor the IPVS configuration are torn down. *)
Theorem cleanup_without_config (c : ctxId) (d : director) (w : W) :
  ClusterConfig (watcher d) = None ->
  let r := run env (cleanup c) d w in
  out r = Panicking nilDereference
  /\ calls (events r) = [IPTablesFlush].
Proof.
  intros Hcfg r.
  by_execution (run env (cleanup c) d w).
  open_cleanup. cbn. rewrite Hcfg. cbn. intros e1.
  open_finished. split; reflexivity.
Qed.

(** ** Address reconciliation *)

Lemma delsOf_app (t s : list event) : delsOf (t ++ s) = delsOf t ++ delsOf s.
Proof.
  induction t as [| e t IH]; simpl; [reflexivity |].
  destruct (delAnswer e) as [[a r] |]; simpl; rewrite IH; reflexivity.
Qed.

Lemma addsOf_app (t s : list event) : addsOf (t ++ s) = addsOf t ++ addsOf s.
Proof.
  induction t as [| e t IH]; simpl; [reflexivity |].
  destruct (addAnswer e) as [[a r] |]; simpl; rewrite IH; reflexivity.
Qed.

Lemma no_adds_at (t pre post : list event) (ev : event)
    (x : string * option error) :
  addsOf t = [] -> t = pre ++ ev :: post -> addAnswer ev = Some x -> False.
Proof.
  intros Hno -> Ha. rewrite addsOf_app in Hno. simpl in Hno.
  rewrite Ha in Hno. destruct x as [a r].
  apply app_eq_nil in Hno. destruct Hno as [_ Hno]. discriminate.
Qed.

Lemma no_failed_del_at (t pre post : list event) (ev : event) :
  existsb delFailed t = false -> t = pre ++ ev :: post ->
  delFailed ev = true -> False.
Proof.
  intros Hno -> Hf. rewrite existsb_app in Hno. simpl in Hno.
  rewrite Hf, orb_true_r in Hno. discriminate.
Qed.

Lemma failed_del_is_last (p pre post : list event) (x ev : event) :
  existsb delFailed p = false -> p ++ [x] = pre ++ ev :: post ->
  delFailed ev = true -> post = [] /\ ev = x.
Proof.
  revert pre. induction p as [| y p IH]; simpl; intros pre Hno Hs Hf.
  - destruct pre as [| z pre]; simpl in Hs.
    + injection Hs as <- <-. split; reflexivity.
    + injection Hs as _ Hs. destruct pre; discriminate.
  - apply orb_false_elim in Hno. destruct Hno as [Hy Hp].
    destruct pre as [| z pre]; simpl in Hs; injection Hs as <- Hs.
    + rewrite Hf in Hy. discriminate.
    + exact (IH pre Hp Hs Hf).
Qed.

Lemma addsFollowed_nil : addsFollowed [].
Proof. intros pre ev post a res H. destruct pre; discriminate. Qed.

Lemma addsFollowed_tail (e : event) (t : list event) :
  addsFollowed (e :: t) -> addsFollowed t.
Proof.
  intros H pre ev post a res Hs Ha.
  apply (H (e :: pre) ev post a res); [simpl; rewrite Hs; reflexivity | exact Ha].
Qed.

Lemma addsFollowed_skip (e : event) (t : list event) :
  addAnswer e = None -> addsFollowed t -> addsFollowed (e :: t).
Proof.
  intros He Ht pre ev post a res Hs Ha.
  destruct pre as [| p pre]; simpl in Hs; injection Hs as <- Hs.
  - rewrite He in Ha. discriminate.
  - exact (Ht pre ev post a res Hs Ha).
Qed.

Lemma addsFollowed_add (a : string) (res adv : option error) (t' : list event) :
  addsFollowed t' ->
  addsFollowed
    (Ev (IPAdd a) res :: addLog a res ++ Ev (IPAdvertiseMacAddress a) adv :: t').
Proof.
  intros Ht pre ev post a' res' Hs Ha.
  destruct pre as [| p pre]; simpl in Hs; injection Hs as <- Hs.
  - simpl in Ha. injection Ha as <- <-. subst post. exists adv, t'. reflexivity.
  - revert Hs Ha. generalize pre ev post a' res'.
    change (addsFollowed (addLog a res ++ Ev (IPAdvertiseMacAddress a) adv :: t')).
    destruct res; simpl; repeat (apply addsFollowed_skip; [reflexivity |]);
      exact Ht.
Qed.

Lemma addsFollowed_prefix (p t : list event) :
  addsOf p = [] -> addsFollowed t -> addsFollowed (p ++ t).
Proof.
  induction p as [| e p IH]; simpl; intros Hno Ht; [exact Ht |].
  destruct (addAnswer e) as [[a r] |] eqn:He; [discriminate |].
  apply addsFollowed_skip; [exact He | exact (IH Hno Ht)].
Qed.

Lemma addsFollowed_suffix (t s : list event) :
  addsFollowed t -> addsOf s = [] -> addsFollowed (t ++ s).
Proof.
  induction t as [| e t IH]; simpl; intros Ht Hs.
  - intros pre ev post a res Hsplit Ha.
    destruct (no_adds_at s pre post ev (a, res) Hs Hsplit Ha).
  - intros pre ev post a res Hsplit Ha.
    destruct pre as [| p pre]; simpl in Hsplit; injection Hsplit as <- Hsplit.
    + destruct (Ht [] e t a res eq_refl Ha) as [adv [post' Hp]].
      exists adv, (post' ++ s). subst post. rewrite Hp.
      rewrite <- app_assoc. reflexivity.
    + exact (IH (addsFollowed_tail _ _ Ht) Hs pre ev post a res Hsplit Ha).
Qed.

(** The removal loop: it stops at the first [IP.Del] that fails and returns
    its error; otherwise it deletes every removal. *)
Lemma delRemovals_trace (removals : list string) (d : director) :
  whatever (delRemovals removals d) (fun t od =>
    snd od = d /\ addsOf t = []
    /\ Forall (fun e => compareAnswer e = None) t
    /\ match fst od with
       | Done None => existsb delFailed t = false /\ delsOf t = removals
       | Done (Some e) =>
           exists p a, t = p ++ [Ev (IPDel a) (Some e)]
                       /\ existsb delFailed p = false
       | Panicking _ => False
       end).
Proof.
  induction removals as [| a rest IH]; whatever_go.
  - repeat split; constructor.
  - repeat split; try (repeat constructor).
    exists [Ev (Log InfoLevel
                  [("device", "primary"); ("addr", a); ("action", "deleting")]%string
                  ""%string) x], a.
    split; reflexivity.
  - revert IH. apply whatever_weaken. intros t [o d'] (Hd & Hadds & Hcmp & Ho).
    simpl in *. repeat split; try assumption.
    + repeat constructor; assumption.
    + destruct o as [[e |] | msg]; [| | exact Ho].
      * destruct Ho as (p & a' & -> & Hp).
        exists (Ev (Log InfoLevel
                      [("device", "primary"); ("addr", a); ("action", "deleting")]%string
                      ""%string) x :: Ev (IPDel a) None :: p), a'.
        split; [reflexivity | exact Hp].
      * destruct Ho as [Hno Hdels]. split; [exact Hno | rewrite Hdels; reflexivity].
Qed.

(** The addition loop: every addition is added, whatever the earlier adds
    answered, and advertised after its add. *)
Lemma addAdditions_trace (additions : list string) (d : director) :
  whatever (addAdditions additions d) (fun t od =>
    od = (Done tt, d) /\ addsOf t = additions /\ delsOf t = []
    /\ Forall (fun e => compareAnswer e = None) t
    /\ addsFollowed t).
Proof.
  induction additions as [| a rest IH]; whatever_go.
  { repeat split; try constructor. apply addsFollowed_nil. }
  all: revert IH; apply whatever_weaken;
    intros t od (Hod & Hadds & Hdels & Hcmp & Hfol); units;
    (repeat split; [ exact Hod | rewrite Hadds; reflexivity | exact Hdels
                   | repeat constructor; exact Hcmp | ]).
  all: apply addsFollowed_skip; [reflexivity |].
  - apply (addsFollowed_add a (Some e) (Some e0)).
    apply addsFollowed_skip; [reflexivity | exact Hfol].
  - apply (addsFollowed_add a (Some e) None). exact Hfol.
  - apply (addsFollowed_add a None (Some e)).
    apply addsFollowed_skip; [reflexivity | exact Hfol].
  - apply (addsFollowed_add a None None). exact Hfol.
Qed.

Lemma no_compare_at (t pre post : list event) (ev : event)
    (x : list string * list string) :
  Forall (fun e => compareAnswer e = None) t -> t = pre ++ ev :: post ->
  compareAnswer ev = Some x -> False.
Proof.
  intros Hall -> Hc. apply Forall_app in Hall. destruct Hall as [_ Hall].
  inversion Hall as [| e l He Hl]; subst. rewrite He in Hc. discriminate.
Qed.

Lemma no_dels_no_failure (t : list event) :
  delsOf t = [] -> existsb delFailed t = false.
Proof.
  induction t as [| e t IH]; simpl; intros H; [reflexivity |].
  unfold delFailed at 1. destruct (delAnswer e) as [[a r] |]; [discriminate |].
  simpl. exact (IH H).
Qed.

Lemma delFailed_of (ev : event) (a : string) (e : error) :
  delAnswer ev = Some (a, Some e) -> delFailed ev = true.
Proof. intros H. unfold delFailed. rewrite H. reflexivity. Qed.

(** When [setAddresses] returns an error, the steps end there: the "error"
    sample is recorded and the error is returned, wrapped. *)
Lemma applySteps_address_error (start : time) (d : director) (w : W)
    (e : error) :
  out (run env setAddresses d w) = Done (Some e) ->
  let ra := run env (applySteps start) d w in
  out ra =
    Done (Some ("director: unable to configure VIP addresses with error " ++ e)%string)
  /\ exists now,
       events ra =
         events (run env setAddresses d w)
           ++ [Ev TimeNow now; Ev (MetricsReconfigure "error" (now - start)%Z) tt].
Proof.
  intros Hout ra. subst ra. open_applySteps. rewrite run_bind. unfold after.
  rewrite Hout. cbn [out events].
  pose proof (run_whatever
    (metricsReconfigure "error" start ;;
     ret (Some ("director: unable to configure VIP addresses with error " ++ e)%string))
    (dir (run env setAddresses d w))
    (fun t od =>
       fst od =
         Done (Some ("director: unable to configure VIP addresses with error "
                       ++ e)%string)
       /\ exists now,
            t = [Ev TimeNow now;
                 Ev (MetricsReconfigure "error" (now - start)%Z) tt])) as Hrest.
  destruct (Hrest ltac:(whatever_go; open_finished; units;
                        (split; [reflexivity | eexists; reflexivity]))
              (world (run env setAddresses d w))) as [Ho [now Ht]].
  split; [exact Ho |]. exists now. apply f_equal. exact Ht.
Qed.

(** C3. In [setAddresses]: an [IP.Del] that fails is the last call, and
    [setAddresses] returns its error, with which the apply ends, recording
    an "error" sample and nothing more; an [IP.Add], failed or not, is
    followed by the log entry of its failure, if any, and then by
    [IP.AdvertiseMacAddress] for the same address, and the method still
    returns nil; and when no removal fails, every removal computed by
    [IP.Compare4] is deleted and every addition is added, in order, whatever
    the adds answer. *)
Theorem setAddresses_failures (d : director) (w : W)
    (pre post : list event) (ev : event) (a : string) :
  let r := run env setAddresses d w in
  events r = pre ++ ev :: post ->
  (forall e, delAnswer ev = Some (a, Some e) ->
     post = [] /\ out r = Done (Some e)
     /\ forall start,
          let ra := run env (applySteps start) d w in
          out ra =
            Done (Some ("director: unable to configure VIP addresses with error "
                          ++ e)%string)
          /\ exists now,
               events ra =
                 events r
                   ++ [Ev TimeNow now;
                       Ev (MetricsReconfigure "error" (now - start)%Z) tt])
  /\ (forall res, addAnswer ev = Some (a, res) ->
        (exists adv post',
           post = addLog a res ++ Ev (IPAdvertiseMacAddress a) adv :: post')
        /\ out r = Done None)
  /\ (forall removals additions,
        compareAnswer ev = Some (removals, additions) ->
        existsb delFailed post = false ->
        delsOf post = removals /\ addsOf post = additions).
Proof.
  intros r.
  assert (Hcore : forall pre post ev a,
    events r = pre ++ ev :: post ->
    (forall e, delAnswer ev = Some (a, Some e) ->
       post = [] /\ out r = Done (Some e))
    /\ (forall res, addAnswer ev = Some (a, res) ->
          (exists adv post',
             post = addLog a res ++ Ev (IPAdvertiseMacAddress a) adv :: post')
          /\ out r = Done None)
    /\ (forall removals additions,
          compareAnswer ev = Some (removals, additions) ->
          existsb delFailed post = false ->
          delsOf post = removals /\ addsOf post = additions));
    [| intros Hs; destruct (Hcore pre post ev a Hs) as (Hdel & Hadd & Hcmp);
       split; [| split; assumption];
       intros e He; destruct (Hdel e He) as [Hpost Hout];
       split; [exact Hpost |]; split; [exact Hout |];
       intros start; exact (applySteps_address_error start d w e Hout) ].
  clear pre post ev a. intros pre post ev a. revert pre post ev a.
  by_execution (run env setAddresses d w).
  open_setAddresses. whatever_go.
  1, 3: open_finished; intros pre post ev a Hs;
    (destruct pre as [| ? pre]; [injection Hs as <- <- | destruct pre; discriminate]);
    repeat split; intros; simpl in *; discriminate.
  apply whatever_bind. eapply whatever_weaken; [| apply delRemovals_trace].
  intros t1 [o1 d1] (Hd & Hadds1 & Hcmp1 & Ho1). simpl in *. subst d1.
  destruct o1 as [[e |] | msg]; [| | destruct Ho1].
  - (* a removal failed *)
    cbn. open_finished. intros pre post ev a Hs. rewrite app_nil_r in Hs.
    destruct Ho1 as (p & a1 & -> & Hp).
    split; [| split].
    + intros e' Hdel.
      change (Ev IPGet (l, l0, None)
                :: Ev (IPCompare4 l (map fst (Config c))) (l1, l2)
                :: p ++ [Ev (IPDel a1) (Some e)])
        with ((Ev IPGet (l, l0, None)
                 :: Ev (IPCompare4 l (map fst (Config c))) (l1, l2) :: p)
                ++ [Ev (IPDel a1) (Some e)]) in Hs.
      apply failed_del_is_last in Hs;
        [| exact Hp | exact (delFailed_of _ _ _ Hdel)].
      destruct Hs as [-> ->]. simpl in Hdel. injection Hdel as _ <-.
      split; reflexivity.
    + intros res Hadd. exfalso.
      eapply no_adds_at; [| exact Hs | exact Hadd]. simpl. exact Hadds1.
    + intros removals additions Hc Hno. exfalso.
      destruct pre as [| g pre]; simpl in Hs; injection Hs as <- Hs.
      { discriminate Hc. }
      destruct pre as [| c' pre]; simpl in Hs; injection Hs as <- Hs.
      { subst post. rewrite existsb_app in Hno. simpl in Hno.
        rewrite orb_true_r in Hno. discriminate. }
      eapply no_compare_at; [exact Hcmp1 | exact Hs | exact Hc].
  - (* every removal succeeded *)
    destruct Ho1 as [Hno1 Hdels1]. whatever_go.
    apply whatever_bind. eapply whatever_weaken; [| apply addAdditions_trace].
    intros t2 od2 (-> & Hadds2 & Hdels2 & Hcmp2 & Hfol). cbn.
    intros mtu.
    assert (Hleaf : forall s (od : result (option error) * director),
      addsOf s = [] -> delsOf s = [] ->
      Forall (fun e => compareAnswer e = None) s -> fst od = Done None ->
      forall pre post ev a,
        Ev IPGet (l, l0, None)
          :: Ev (IPCompare4 l (map fst (Config c))) (l1, l2)
          :: t1 ++ t2 ++ s = pre ++ ev :: post ->
        (forall e : error,
           delAnswer ev = Some (a, Some e) ->
           post = [] /\ fst od = Done (Some e))
        /\ (forall res : option error,
              addAnswer ev = Some (a, res) ->
              (exists adv post',
                 post = addLog a res
                          ++ Ev (IPAdvertiseMacAddress a) adv :: post')
              /\ fst od = Done None)
        /\ (forall removals additions : list string,
              compareAnswer ev = Some (removals, additions) ->
              existsb delFailed post = false ->
              delsOf post = removals /\ addsOf post = additions)).
    { intros s od Hadds Hdels Hcmp Hout pre post ev a Hs.
      split; [| split].
      - intros e' Hdel. exfalso.
        eapply no_failed_del_at; [| exact Hs | exact (delFailed_of _ _ _ Hdel)].
        simpl. rewrite !existsb_app, Hno1.
        rewrite (no_dels_no_failure t2 Hdels2), (no_dels_no_failure s Hdels).
        reflexivity.
      - intros res Hadd. split; [| exact Hout].
        refine (_ pre ev post a res Hs Hadd).
        change (addsFollowed
                  (Ev IPGet (l, l0, None)
                     :: Ev (IPCompare4 l (map fst (Config c))) (l1, l2)
                     :: t1 ++ t2 ++ s)).
        do 2 (apply addsFollowed_skip; [reflexivity |]).
        apply addsFollowed_prefix; [exact Hadds1 |].
        apply addsFollowed_suffix; [exact Hfol | exact Hadds].
      - intros removals additions Hc Hno.
        destruct pre as [| g pre]; simpl in Hs; injection Hs as <- Hs.
        { discriminate Hc. }
        destruct pre as [| c' pre]; simpl in Hs; injection Hs as <- Hs.
        { simpl in Hc. injection Hc as <- <-. subst post.
          rewrite !delsOf_app, !addsOf_app.
          rewrite Hdels1, Hdels2, Hdels, Hadds1, Hadds2, Hadds.
          rewrite !app_nil_r. split; reflexivity. }
        exfalso. eapply no_compare_at; [| exact Hs | exact Hc].
        apply Forall_app. split; [exact Hcmp1 |].
        apply Forall_app. split; [exact Hcmp2 | exact Hcmp]. }
    destruct mtu; cbn; intros; open_finished; intros pre post ev a Hs;
      (eapply (Hleaf _ (Done None, d)); [ | | | | exact Hs ]);
      try reflexivity; repeat constructor.
Qed.
(** ** The order of the steps *)

Lemma whatever_any {R : Type} (p : prog R) (T : list event -> R -> Prop) :
  (forall t r, T t r) -> whatever p T.
Proof.
  revert T. induction p as [r | c k IH]; simpl; intros T H.
  - apply H.
  - intros x. apply IH. intros t r. apply H.
Qed.

Lemma setIPTables_starts (d : director) :
  whatever (setIPTables d) (fun t _ =>
    exists sv t',
      t = Ev (Log DebugLevel [] "director: capturing iptables rules"%string) tt
            :: Ev IPTablesSave sv :: t').
Proof.
  open_setIPTables. cbn. intros [] sv. apply whatever_any. intros t r.
  exists sv, t. reflexivity.
Qed.

(** The exact trace of the removal loop. *)
Lemma delRemovals_events (removals : list string) (d : director) :
  whatever (delRemovals removals d) (fun t od =>
    snd od = d
    /\ exists dels,
         t = delEvents dels
         /\ match fst od with
            | Done None =>
                map fst dels = removals
                /\ Forall (fun x => snd x = None) dels
            | Done (Some e) =>
                exists done a after,
                  dels = done ++ [(a, Some e)]
                  /\ removals = map fst done ++ a :: after
                  /\ Forall (fun x => snd x = None) done
            | Panicking _ => False
            end).
Proof.
  induction removals as [| a rest IH]; whatever_go.
  - split; [reflexivity |]. exists []. repeat split. constructor.
  - split; [reflexivity |]. exists [(a, Some e)]. units.
    split; [reflexivity |]. exists [], a, rest. repeat split. constructor.
  - revert IH. apply whatever_weaken. intros t [o d'] (Hd & dels & -> & Ho).
    cbn [fst snd] in *. split; [exact Hd |]. units.
    exists ((a, None) :: dels). split; [reflexivity |].
    destruct o as [[e |] | msg]; [| | exact Ho].
    + destruct Ho as (done & a' & after & -> & -> & Hall).
      exists ((a, None) :: done), a', after. repeat split.
      constructor; [reflexivity | exact Hall].
    + destruct Ho as [<- Hall]. split; [reflexivity |].
      constructor; [reflexivity | exact Hall].
Qed.

(** The exact trace of the addition loop. *)
Lemma addAdditions_events (additions : list string) (d : director) :
  whatever (addAdditions additions d) (fun t od =>
    od = (Done tt, d)
    /\ exists adds, map fst adds = additions /\ t = addEvents adds).
Proof.
  induction additions as [| a rest IH]; whatever_go.
  { split; [reflexivity |]. exists []. split; reflexivity. }
  all: revert IH; apply whatever_weaken;
    intros t od (Hod & adds & <- & ->); units; (split; [exact Hod |]).
  - exists ((a, (Some e, Some e0)) :: adds). split; reflexivity.
  - exists ((a, (Some e, None)) :: adds). split; reflexivity.
  - exists ((a, (None, Some e)) :: adds). split; reflexivity.
  - exists ((a, (None, None)) :: adds). split; reflexivity.
Qed.

(** Every run of [setAddresses] is a complete address reconciliation. *)
Lemma setAddresses_attempt (d : director) :
  whatever (setAddresses d) (fun t od =>
    snd od = d /\ addressAttempt d t (fst od)).
Proof.
  open_setAddresses. whatever_go.
  - split; [reflexivity |]. exists l, l0, (Some e), []. repeat split.
  - apply whatever_bind.
    eapply whatever_weaken; [| apply delRemovals_events].
    intros t1 [o1 d1] (Hd & dels & -> & Ho1). cbn [fst snd] in *. subst d1.
    destruct o1 as [[e |] | msg]; [| | destruct Ho1].
    + cbn. split; [reflexivity |].
      exists l, l0, None. eexists. split; [reflexivity |].
      rewrite Heqo. exists l1, l2, dels, [].
      split; [reflexivity |]. left.
      destruct Ho1 as (done & a & after & -> & -> & Hall).
      exists done, a, e, after. repeat split. exact Hall.
    + destruct Ho1 as [Hdels Hall]. whatever_go. apply whatever_bind.
      eapply whatever_weaken; [| apply addAdditions_events].
      intros t2 od2 (-> & adds & Hadds & ->). cbn. intros mtu.
      assert (Hgoal : addressAttempt d
                (Ev IPGet (l, l0, None)
                   :: Ev (IPCompare4 l (map fst (Config c))) (l1, l2)
                   :: delEvents dels
                   ++ addEvents adds
                   ++ Ev (IPSetMTU (MTUConfig c) false) mtu :: mtuLog mtu)
                (Done None)).
      { exists l, l0, None. eexists. split; [reflexivity |].
        rewrite Heqo. exists l1, l2, dels. eexists.
        split; [reflexivity |]. right.
        split; [exact Hdels |]. split; [exact Hall |].
        exists adds, mtu. repeat split. exact Hadds. }
      destruct mtu as [e |]; cbn; intros; units; (split; [reflexivity |]);
        simpl in Hgoal; rewrite <- ?app_assoc; exact Hgoal.
  - split; [reflexivity |]. exists l, l0, None, []. split; [reflexivity |].
    rewrite Heqo. split; reflexivity.
Qed.

Lemma whatever_finished {R : Type} (p : prog R)
    (T : list event -> R -> Prop) :
  whatever p (fun t r => finished (T t r)) -> whatever p T.
Proof.
  apply whatever_weaken. intros t r H.
  with_strategy transparent [finished] exact H.
Qed.

(* Gives the parts of a trace that is known event by event. *)
Ltac name_parts :=
  repeat first
    [ reflexivity
    | progress cbn [afterRestore app]
    | match goal with
      | H : node _ = _ |- _ => rewrite H
      | |- _ /\ _ => split
      | |- exists _ _, (_ :: _ :: Ev (IPTablesRestore _) ?r :: ?post) = _ /\ _ =>
          exists r;
          lazymatch post with
          | _ :: _ :: Ev (WriteFile _ _ _) ?x :: _ => exists x
          | _ => exists None
          end
      | |- exists _, _ => eexists
      end ].

(** Every run of [setIPTables] is a complete iptables reconciliation. *)
Lemma setIPTables_attempt (d : director) :
  whatever (setIPTables d) (fun t od =>
    snd od = d /\ iptablesAttempt d t (fst od)).
Proof.
  apply whatever_finished. open_setIPTables. whatever_go.
  all: open_finished; cbn [fst snd]; units.
  all: split; [reflexivity |]; unfold iptablesAttempt.
  all: name_parts.
Qed.

Lemma applySteps_shape (start : time) (d : director) :
  whatever (applySteps start d) (fun t od => pipelineShape start d t).
Proof.
  open_applySteps. apply whatever_bind.
  eapply whatever_weaken; [| apply setAddresses_attempt].
  intros ta [oa da] [Hd Ha]. cbn [fst snd] in *. subst da.
  destruct oa as [[e |] | msg]; whatever_go.
  - open_pipelineShape. exists ta, (Done (Some e)). eexists.
    split; [reflexivity |]. split; [exact Ha |]. units.
    eexists. reflexivity.
  - apply whatever_bind. apply whatever_bind.
    eapply whatever_weaken; [| apply setIPTables_attempt].
    intros ti [oi di] [Hdi Hi]. cbn [fst snd] in *. subst di.
    destruct oi as [[e |] | msg]; whatever_go; units.
    all: rewrite ?app_nil_r, <- ?app_assoc.
    all: open_pipelineShape.
    all: exists ta, (Done None); eexists; (split; [reflexivity |]).
    all: split; [exact Ha |]; eexists; (split; [reflexivity |]).
    all: rewrite Heqb.
    + exists ti, (Done (Some e)). eexists.
      split; [reflexivity |]. split; [exact Hi |]. eexists. reflexivity.
    + exists ti, (Done None). eexists.
      split; [reflexivity |]. split; [exact Hi |].
      eexists. split; [reflexivity |].
      exists (Some e). eexists. reflexivity.
    + exists ti, (Done None). eexists.
      split; [reflexivity |]. split; [exact Hi |].
      eexists. split; [reflexivity |].
      exists None. eexists. reflexivity.
    + exists ti, (Panicking msg), []. split; [rewrite app_nil_r; reflexivity |].
      split; [exact Hi | reflexivity].
  - open_pipelineShape. units. exists ta, (Done None). eexists.
    split; [reflexivity |]. split; [exact Ha |].
    eexists. split; [reflexivity |]. rewrite Heqb.
    exists (Some e). eexists. reflexivity.
  - open_pipelineShape. units. exists ta, (Done None). eexists.
    split; [reflexivity |]. split; [exact Ha |].
    eexists. split; [reflexivity |]. rewrite Heqb.
    exists None. eexists. reflexivity.
  - open_pipelineShape. exists ta, (Panicking msg), [].
    split; [rewrite app_nil_r; reflexivity |].
    split; [exact Ha | reflexivity].
Qed.


Lemma stepsCall_not_isParity (c : call) :
  stepsCall c = true -> isParity c = false.
Proof. destruct c; simpl; intros H; try reflexivity; discriminate. Qed.


(** *** Steps never go down *)

Lemma climbs_weaken {R : Type} (lo : nat) (Q Q' : nat -> R -> Prop)
    (p : prog R) :
  (forall n r, lo <= n -> Q n r -> Q' n r) -> climbs lo Q p -> climbs lo Q' p.
Proof.
  revert lo. induction p as [r | c k IH]; simpl; intros lo HQ H.
  - apply HQ; [apply Nat.le_refl | exact H].
  - destruct (step_of c) as [n |].
    + destruct H as [Hle Hk]. split; [exact Hle |].
      intros x. apply (IH x n); [| apply Hk].
      intros m r Hm. apply HQ. eapply Nat.le_trans; eassumption.
    + intros x. apply (IH x lo); [exact HQ | apply H].
Qed.

Lemma climbs_pbind {A B : Type} (lo : nat) (Q : nat -> B -> Prop)
    (p : prog A) (f : A -> prog B) :
  climbs lo (fun n a => climbs n Q (f a)) p -> climbs lo Q (pbind p f).
Proof.
  revert lo. induction p as [a | c k IH]; simpl; intros lo H.
  - exact H.
  - destruct (step_of c) as [n |].
    + destruct H as [Hle Hk]. split; [exact Hle | intros x; apply IH, Hk].
    + intros x. apply IH, H.
Qed.

Lemma climbs_bind {A B : Type} (lo : nat)
    (Q : nat -> result B * director -> Prop) (m : M A) (f : A -> M B)
    (d : director) :
  climbs lo (fun n od =>
    match fst od with
    | Done a => climbs n Q (f a (snd od))
    | Panicking msg => Q n (Panicking msg, snd od)
    end) (m d) ->
  climbs lo Q (bind m f d).
Proof.
  intros H. unfold bind. apply climbs_pbind.
  revert H. apply climbs_weaken.
  intros n [o d'] _ Ho; simpl in *. destruct o; exact Ho.
Qed.

Lemma climbs_sorted {R : Type} (lo : nat) (Q : nat -> R -> Prop) (p : prog R) :
  climbs lo Q p ->
  forall w,
    StronglySorted le (steps (calls (fst (snd (exec env p w)))))
    /\ Forall (le lo) (steps (calls (fst (snd (exec env p w))))).
Proof.
  revert lo. induction p as [r | c k IH]; simpl; intros lo H w.
  - split; constructor.
  - destruct (step_of c) as [n |].
    + destruct H as [Hle Hk].
      destruct (IH (fst (env c w)) n (Hk _) (snd (env c w))) as [Hs Hall].
      split; constructor; try assumption.
      revert Hall. apply Forall_impl. intros m Hm.
      eapply Nat.le_trans; eassumption.
    + apply (IH (fst (env c w)) lo (H _)).
Qed.

Ltac climbs_go :=
  repeat first
    [ progress cbn
    | intro_answer
    | match goal with
      | |- _ <= _ /\ _ => split; [lia |]
      | |- _ <= _ => lia
      | |- True => exact I
      | |- match ?x with _ => _ end => destruct x
      | |- climbs _ _ ?p => let x := stuck_on p in split_on x
      end ].

Lemma delRemovals_climbs (removals : list string) (d : director) (lo : nat) :
  lo <= 1 -> climbs lo (fun n _ => n <= 1) (delRemovals removals d).
Proof.
  revert lo. induction removals as [| a rest IH]; intros lo Hlo; climbs_go.
  apply IH. lia.
Qed.

Lemma addAdditions_climbs (additions : list string) (d : director) (lo : nat) :
  lo <= 1 -> climbs lo (fun n _ => n <= 1) (addAdditions additions d).
Proof.
  revert lo. induction additions as [| a rest IH]; intros lo Hlo; climbs_go;
    apply IH; lia.
Qed.

Lemma setAddresses_climbs (d : director) (lo : nat) :
  lo <= 1 -> climbs lo (fun n _ => n <= 1) (setAddresses d).
Proof.
  intros Hlo. open_setAddresses. climbs_go.
  apply climbs_bind.
  eapply climbs_weaken; [| apply delRemovals_climbs; lia].
  intros n [o d'] _ Hn; simpl. climbs_go.
  apply climbs_bind.
  eapply climbs_weaken; [| apply addAdditions_climbs; lia].
  intros n' [o' d''] _ Hn'; simpl. climbs_go.
Qed.

Lemma setIPTables_climbs (d : director) (lo : nat) :
  lo <= 2 -> climbs lo (fun n _ => n <= 2) (setIPTables d).
Proof. intros Hlo. open_setIPTables. climbs_go. Qed.

Lemma applySteps_climbs (start : time) (d : director) (lo : nat) :
  lo <= 1 -> climbs lo (fun _ _ => True) (applySteps start d).
Proof.
  intros Hlo. open_applySteps. apply climbs_bind.
  eapply climbs_weaken; [| apply setAddresses_climbs; exact Hlo].
  intros n [o d'] _ Hn; simpl. climbs_go.
  apply climbs_bind. apply climbs_bind.
  eapply climbs_weaken; [| apply setIPTables_climbs; lia].
  intros n' [o' d''] _ Hn'; simpl. climbs_go.
Qed.

Lemma applyConf_climbs (force : bool) (d : director) :
  climbs 0 (fun _ _ => True) (applyConf force d).
Proof.
  unfold applyConf. open_parityBlock. destruct force; climbs_go.
  all: apply applySteps_climbs; lia.
Qed.

(** *** When the iptables step runs *)

Lemma none_of (P Q : call -> bool) (l : list call) :
  (forall c, P c = true -> Q c = false) ->
  Forall (fun c => P c = true) l -> existsb Q l = false.
Proof.
  intros HP. induction 1 as [| c l Hc Hl IH]; simpl; [reflexivity |].
  rewrite (HP c Hc), IH. reflexivity.
Qed.

Lemma setAddresses_no_save (d : director) (w : W) :
  dir (run env setAddresses d w) = d
  /\ existsb isSave (calls (events (run env setAddresses d w))) = false.
Proof.
  destruct (always_run _ _ setAddresses d w (setAddresses_calls d)) as [Hall Hd].
  split; [exact Hd |].
  apply (none_of addressCall isSave); [| exact Hall].
  intros c; destruct c; simpl; intros H; try reflexivity; discriminate.
Qed.

Lemma parityBlock_calls (force : bool) (start : time) (d : director) :
  always (fun c => isSave c = false) (fun od => snd od = d)
    (parityBlock force start d).
Proof. open_parityBlock. destruct force; always_go. Qed.

Lemma parityBlock_no_save (force : bool) (start : time) (d : director) (w : W) :
  dir (run env (parityBlock force start) d w) = d
  /\ existsb isSave (calls (events (run env (parityBlock force start) d w)))
     = false.
Proof.
  destruct (always_run _ _ (parityBlock force start) d w
              (parityBlock_calls force start d)) as [Hall Hd].
  split; [exact Hd |].
  apply (none_of (fun c => negb (isSave c)) isSave); [| revert Hall; apply Forall_impl].
  - intros c H. apply negb_true_iff. exact H.
  - intros c H. rewrite H. reflexivity.
Qed.

(** The parity block lets the apply go on exactly when it is forced or the
    parity check finds a difference without error. *)
Lemma parityBlock_passes (force : bool) (start : time) (d : director) (w : W) :
  let rp := run env (parityBlock force start) d w in
  out rp = Done None <->
  force = true
  \/ Exists (fun e => parityAnswer e = Some (false, None)) (events rp).
Proof.
  intros rp.
  by_execution (run env (parityBlock force start) d w).
  open_parityBlock. destruct force; whatever_go; open_finished.
  { split; [left; reflexivity | reflexivity]. }
  all: split;
    [ try discriminate; intros _; right;
      repeat first [ apply Exists_cons_hd; reflexivity | apply Exists_cons_tl ]
    | intros [Hf | Hex]; [discriminate Hf |];
      try reflexivity; exfalso; exists_head Hex; inversion Hex ].
Qed.

(** After [setAddresses] has returned nil, the rest of the steps calls
    IPTables.Save exactly in iptables colocation. *)
Lemma applySteps_saves (start : time) (d : director) (w : W) :
  existsb isSave (calls (events (run env (applySteps start) d w))) = true <->
  String.eqb (colocationMode d) colocationModeIPTables = true
  /\ out (run env setAddresses d w) = Done None.
Proof.
  open_applySteps. rewrite run_bind. unfold after.
  destruct (setAddresses_no_save d w) as [Hd Hno].
  destruct (out (run env setAddresses d w)) as [[e |] | msg] eqn:Hout;
    cbn [events out]; unfold calls; rewrite ?map_app, ?existsb_app;
    fold (calls (events (run env setAddresses d w))); rewrite ?Hno, ?Hd;
    rewrite ?orb_false_l.
  - simpl. split; [discriminate | intros [_ H]; discriminate H].
  - match goal with
    | |- ?L = true <-> _ =>
        assert (Hrest : L = String.eqb (colocationMode d) colocationModeIPTables)
    end.
    { match goal with
      | |- existsb isSave (map ev_call (events (run env ?m d ?w'))) = _ =>
          apply (run_whatever m d
                   (fun t _ =>
                      existsb isSave (calls t)
                      = String.eqb (colocationMode d) colocationModeIPTables))
      end.
      whatever_go.
      - apply whatever_bind. apply whatever_bind.
        eapply whatever_weaken; [| apply setIPTables_starts].
        intros t2 [o2 d2] (sv & t' & ->). simpl.
        destruct o2 as [[e |] | msg]; whatever_go; open_finished;
          reflexivity.
      - open_finished. reflexivity.
      - open_finished. reflexivity. }
    rewrite Hrest.
    split; [intros H; split; [exact H | reflexivity] | intros [H _]; exact H].
  - simpl. split; [discriminate | intros [_ H]; discriminate H].
Qed.

Lemma run_logf (lvl : level) (msg : string) (d : director) (w : W) :
  run env (logf lvl msg) d w =
    Ran (Done (fst (env (Log lvl [] msg) w))) d
      [Ev (Log lvl [] msg) (fst (env (Log lvl [] msg) w))]
      (snd (env (Log lvl [] msg) w)).
Proof. reflexivity. Qed.

Lemma applyConf_events (force : bool) (d : director) (w : W) :
  let rp := parityRun env force d w in
  events (run env (applyConf force) d w) =
    [Ev (Log DebugLevel [] "director: applying configuration"%string)
        (fst (env (Log DebugLevel [] "director: applying configuration"%string) w));
     Ev TimeNow (applyStart env w)]
    ++ events rp
    ++ match out rp with
       | Done None => events (run env (applySteps (applyStart env w)) d (world rp))
       | _ => []
       end.
Proof.
  intros rp.
  assert (Hd : dir rp = d) by apply parityBlock_no_save.
  unfold applyConf. rewrite run_bind, run_logf.
  unfold after at 1. cbn [out dir events world].
  rewrite run_bind, (run_perform TimeNow). unfold after at 1.
  cbn [out dir events world].
  rewrite run_bind.
  change (run env (parityBlock force _) d _) with rp.
  change (fst (env TimeNow _)) with (applyStart env w).
  unfold after. destruct rp as [o d' t w'']. cbn [out dir events world] in *.
  subst d'.
  destruct o as [[res |] | msg]; rewrite ?run_ret; cbn [out dir events world];
    rewrite ?app_nil_r; reflexivity.
Qed.

(** C8, as amended.  Within one apply the calls of the steps come in the
    order parity check, address reconciliation, iptables reconciliation,
    IPVS.SetIPVS, and the parity check is made exactly when the apply is not
    forced.  [setIPTables] is entered (IPTables.Save is called) if and only
    if the colocation mode is "iptables", the parity block let the apply go
    on (forced, or a difference found without error) and [setAddresses]
    returned nil. *)
Theorem applyConf_order (force : bool) (d : director) (w : W) :
  let r := run env (applyConf force) d w in
  StronglySorted le (steps (calls (events r)))
  /\ existsb isParity (calls (events r)) = negb force
  /\ (out (parityRun env force d w) = Done None <->
      force = true
      \/ Exists (fun e => parityAnswer e = Some (false, None)) (events r))
  /\ (existsb isSave (calls (events r)) = true <->
      String.eqb (colocationMode d) colocationModeIPTables = true
      /\ out (parityRun env force d w) = Done None
      /\ out (addressRun env force d w) = Done None).
Proof.
  intros r. split; [| split; [| split]].
  - exact (proj1 (climbs_sorted 0 _ _ (applyConf_climbs force d) w)).
  - by_execution (run env (applyConf force) d w).
    unfold applyConf. open_parityBlock. destruct force; whatever_go.
    all: try (open_finished; reflexivity).
    { generalize (always_whatever _ _ _ (applySteps_calls x0 d)).
      apply whatever_weaken. intros t od [Hall _]. open_finished. simpl.
      exact (none_of stepsCall isParity _ stepsCall_not_isParity Hall). }
    all: apply whatever_any; intros; open_finished; simpl;
      rewrite ?orb_true_r; reflexivity.
  - subst r. rewrite applyConf_events.
    pose proof (parityBlock_passes force (applyStart env w) d
                  (world_after env
                     [Log DebugLevel [] "director: applying configuration"%string;
                      TimeNow] w)) as Hp.
    cbv zeta in Hp. fold (parityRun env force d w) in Hp.
    rewrite Hp. clear Hp.
    assert (HX : ~ Exists (fun e => parityAnswer e = Some (false, None))
                    match out (parityRun env force d w) with
                    | Done None =>
                        events (run env (applySteps (applyStart env w)) d
                                  (world (parityRun env force d w)))
                    | _ => []
                    end).
    { destruct (out (parityRun env force d w)) as [[res |] | msg];
        try solve [intros H; inversion H].
      apply steps_never_answer_parity.
      apply (always_run _ _ (applySteps (applyStart env w)) d _
               (applySteps_calls _ d)). }
    rewrite !Exists_app.
    split; (intros [Hf | H]; [left; exact Hf | right]).
    + right. left. exact H.
    + destruct H as [H | [H | H]]; [| exact H | destruct (HX H)].
      exfalso. exists_head H. inversion H.
  - subst r. rewrite applyConf_events.
    unfold calls. rewrite !map_app, !existsb_app.
    destruct (parityBlock_no_save force (applyStart env w) d
                (world_after env
                   [Log DebugLevel [] "director: applying configuration"%string;
                    TimeNow] w)) as [_ Hno].
    fold (parityRun env force d w) in Hno. unfold calls in Hno. rewrite Hno.
    simpl (existsb isSave (map ev_call [_; _])). rewrite !orb_false_l.
    unfold addressRun.
    destruct (out (parityRun env force d w)) as [[res |] | msg].
    + simpl. split; [discriminate | intros (_ & H & _); discriminate H].
    + pose proof (applySteps_saves (applyStart env w) d
                    (world (parityRun env force d w))) as Hs.
      unfold calls in Hs. rewrite Hs. tauto.
    + simpl. split; [discriminate | intros (_ & H & _); discriminate H].
Qed.

(** ** Lifecycle *)

Lemma NewDirector_zero_values (ctx0 : ctxId) (nodeName0 configKey : string)
    (cleanup0 : bool) (watcher0 : Watcher) (mode : string) (forced : bool)
    (w : W) :
  let d :=
    fst (fst (exec env
                (NewDirector ctx0 nodeName0 configKey cleanup0 watcher0 mode forced)
                w)) in
  isStarted d = false /\ reconfiguring d = false /\ cxlWatch d = None
  /\ node d = None.
Proof. simpl. repeat split. Qed.

Lemma Stop_nil_cancel_panics (d : director) (w : W) :
  cxlWatch d = None ->
  reconfiguring d = false ->
  let r := run env Stop d w in
  out r = Panicking nilDereference
  /\ events r = []
  /\ isStarted (dir r) = isStarted d.
Proof.
  intros Hcxl Hrec r.
  by_execution (run env Stop d w).
  unfold Stop. cbn. rewrite Hrec. cbn. rewrite Hcxl. cbn.
  open_finished. repeat split.
Qed.

(** A [Start] that does not return nil leaves the cancel function as it
    was. *)
Lemma Start_failed_keeps_cxlWatch (d : director) (w : W) :
  let r := run env Start d w in
  out r <> Done None ->
  cxlWatch (dir r) = cxlWatch d
  /\ (reconfiguring d = false -> reconfiguring (dir r) = false).
Proof.
  intros r.
  by_execution (run env Start d w).
  unfold Start. whatever_go; open_finished; intros Hne; cbn.
  all: try (split; [reflexivity | intros H; try exact H; reflexivity]).
  all: try (exfalso; apply Hne; reflexivity).
  all: split; [reflexivity | intros H; congruence].
Qed.

Lemma Start_sets_cxlWatch (d : director) (w : W) :
  let r := run env Start d w in
  out r = Done None -> cxlWatch (dir r) <> None /\ isStarted (dir r) = true.
Proof.
  intros r.
  by_execution (run env Start d w).
  unfold Start. whatever_go; open_finished; intros H; try discriminate H; cbn.
  all: split; [discriminate | reflexivity].
Qed.

(** C9. On the director [NewDirector] returns, in any environment, [Stop]
    panics on the nil cancel function before making any call; it still does
    after a [Start] that failed, since only a [Start] that returns nil
    assigns [cxlWatch]. *)
Theorem Stop_before_Start_panics (ctx0 : ctxId) (nodeName0 configKey : string)
    (cleanup0 : bool) (watcher0 : Watcher) (mode : string) (forced : bool)
    (w : W) :
  let d :=
    fst (fst (exec env
                (NewDirector ctx0 nodeName0 configKey cleanup0 watcher0 mode forced)
                w)) in
  (forall w1,
     out (run env Stop d w1) = Panicking nilDereference
     /\ events (run env Stop d w1) = [])
  /\ (forall w1 w2,
        out (run env Start d w1) <> Done None ->
        out (run env Stop (dir (run env Start d w1)) w2)
          = Panicking nilDereference)
  /\ (forall w1,
        out (run env Start d w1) = Done None ->
        cxlWatch (dir (run env Start d w1)) <> None).
Proof.
  intros d.
  destruct (NewDirector_zero_values ctx0 nodeName0 configKey cleanup0 watcher0
              mode forced w) as (Hst & Hrec & Hcxl & _).
  fold d in Hst, Hrec, Hcxl.
  split; [| split].
  - intros w1. destruct (Stop_nil_cancel_panics d w1 Hcxl Hrec) as (Ho & He & _).
    split; assumption.
  - intros w1 w2 Hfail.
    destruct (Start_failed_keeps_cxlWatch d w1 Hfail) as [Hc Hr].
    apply Stop_nil_cancel_panics; [congruence | exact (Hr Hrec)].
  - intros w1 Hok. exact (proj1 (Start_sets_cxlWatch d w1 Hok)).
Qed.

Lemma cleanup_keeps_director (c : ctxId) (d : director) :
  always (fun _ => True) (fun od => snd od = d) (cleanup c d).
Proof. open_cleanup. always_go. Qed.

(** A [Stop] that returns clears [isStarted] and leaves the director ready
    to be started. *)
Lemma Stop_clears_isStarted (d : director) (w : W) (c : ctxId) :
  reconfiguring d = false ->
  cxlWatch d = Some c ->
  let r := run env Stop d w in
  forall res, out r = Done res ->
  isStarted (dir r) = false /\ reconfiguring (dir r) = false
  /\ colocationMode (dir r) = colocationMode d.
Proof.
  intros Hrec Hcxl r.
  by_execution (run env Stop d w).
  unfold Stop. cbn. rewrite Hrec. cbn. rewrite Hcxl. whatever_go.
  - apply whatever_pbind. unfold defer. apply whatever_pbind.
    apply whatever_bind.
    eapply whatever_weaken;
      [| apply always_whatever, (cleanup_keeps_director x2)].
    intros t [o d'] [_ Hd]. simpl in *. subst d'.
    destruct o as [e | msg]; whatever_go; open_finished; intros res H;
      try discriminate H; repeat split.
  - open_finished. intros res H. repeat split.
Qed.

(** C5 fails on the code: [Stop] clears [isStarted], so a [Start] after a
    completed [Stop] is not refused.  It passes the guards, sets
    [isStarted] a second time and calls IP.SetARP again; when no call fails
    it returns nil, having spawned the four loops once more. *)
Theorem Start_after_Stop_starts_again (d : director) (w : W) (c : ctxId)
    (res : option error) :
  isStarted d = true ->
  reconfiguring d = false ->
  cxlWatch d = Some c ->
  let r1 := run env Stop d w in
  out r1 = Done res ->
  let r2 := run env Start (dir r1) (world r1) in
  isStarted (dir r1) = false
  /\ out r2 <>
     Done (Some "director: director has already been started. a director instance can only be started once"%string)
  /\ isStarted (dir r2) = true
  /\ In IPSetARP (calls (events r2))
  /\ (existsb answeredError (events r2) = false ->
      out r2 = Done None
      /\ incl [Go Gperiodic; Go Gwatches; Go Garps; Go GcausePeriodicWatcherSync]
           (calls (events r2))).
Proof.
  intros Hst Hrec Hcxl r1 Hout r2.
  destruct (Stop_clears_isStarted d w c Hrec Hcxl res Hout) as (Hst1 & Hrec1 & _).
  fold r1 in Hst1, Hrec1. split; [exact Hst1 |].
  subst r2. generalize (world r1). revert Hst1 Hrec1. generalize (dir r1).
  clear. intros d Hst Hrec w.
  by_execution (run env Start d w).
  unfold Start. cbn. rewrite Hst. cbn. rewrite Hrec. whatever_go; open_finished.
  all: split; [discriminate |]; split; [reflexivity |].
  all: split; [simpl; auto |].
  all: simpl; intros H; try discriminate H.
  all: split; [reflexivity |].
  all: intros g Hg; simpl in Hg; simpl; intuition.
Qed.

(** ** More on the lifecycle *)

(** X1. [Start] never panics, and it returns nil exactly when the director
    was neither started nor reconfiguring and none of its calls (IP.SetARP,
    IPTables.Flush) answered an error. *)
Theorem Start_returns_nil_iff (d : director) (w : W) :
  let r := run env Start d w in
  (exists res, out r = Done res)
  /\ (out r = Done None <->
      isStarted d = false /\ reconfiguring d = false
      /\ existsb answeredError (events r) = false).
Proof.
  intros r. by_execution (run env Start d w).
  unfold Start. whatever_go; open_finished.
  all: split; [eexists; reflexivity |].
  all: split; [intros H; try discriminate H; repeat split; assumption |].
  all: intros (H1 & H2 & H3); try congruence; simpl in H3; try discriminate H3.
  all: reflexivity.
Qed.

(** X2. A [Start] that fails after its guards (IP.SetARP or IPTables.Flush
    answered an error) has already set [isStarted]: it spawned no goroutine
    and made no watch context, and yet a [Start] on the director it leaves
    is refused as already started, without making any call and without
    changing the director, however often it is repeated.  Only [Stop] clears
    [isStarted], and on a director that was never started with success
    (its [cxlWatch] is nil) [Stop] panics before any call and leaves the
    director as it is: such a director can never be started. *)
Theorem Start_failed_blocks_retry (d : director) (w w' w'' : W) :
  isStarted d = false ->
  reconfiguring d = false ->
  let r := run env Start d w in
  out r <> Done None ->
  isStarted (dir r) = true
  /\ reconfiguring (dir r) = false
  /\ existsb isGo (calls (events r)) = false
  /\ ctxWatch (dir r) = ctxWatch d
  /\ cxlWatch (dir r) = cxlWatch d
  /\ (let r' := run env Start (dir r) w' in
      out r' =
        Done (Some "director: director has already been started. a director instance can only be started once"%string)
      /\ events r' = []
      /\ dir r' = dir r)
  /\ (cxlWatch d = None ->
      let rs := run env Stop (dir r) w'' in
      out rs = Panicking nilDereference
      /\ events rs = []
      /\ dir rs = dir r).
Proof.
  intros Hst Hrec r. revert w' w''.
  by_execution (run env Start d w).
  unfold Start. cbn. rewrite Hst. cbn. rewrite Hrec.
  whatever_go; open_finished; intros w' w'' Hne.
  all: try (exfalso; apply Hne; reflexivity).
  all: do 5 (split; [reflexivity |]).
  all: split; [repeat split |].
  all: intros Hcxl; unfold run, Stop; cbn; rewrite Hcxl; cbn.
  all: repeat split.
Qed.

(** X3. [Start] spawns its four goroutines, in the order periodic, watches,
    arps, causePeriodicWatcherSync, when it returns nil, and none of them
    otherwise; they are spawned after the watch context was derived from the
    director's context, and the director holds that context and its cancel
    function. *)
Theorem Start_spawns_all_or_none (d : director) (w : W) :
  let r := run env Start d w in
  filter isGo (calls (events r)) =
    match out r with
    | Done None => [Go Gperiodic; Go Gwatches; Go Garps; Go GcausePeriodicWatcherSync]
    | _ => []
    end
  /\ (out r = Done None ->
      exists pre c post,
        events r = pre ++ Ev (ContextWithCancel (ctx d)) c :: post
        /\ existsb isGo (calls pre) = false
        /\ ctxWatch (dir r) = Some c /\ cxlWatch (dir r) = Some c).
Proof.
  intros r. by_execution (run env Start d w).
  unfold Start. whatever_go; open_finished.
  all: split; [reflexivity |].
  all: intros H; try discriminate H.
  all: lazymatch goal with
       | |- exists pre c post,
              (?a :: ?b :: ?e :: Ev (ContextWithCancel _) ?c0 :: ?rest) = _ /\ _ =>
           exists [a; b; e], c0, rest
       | |- exists pre c post,
              (?a :: ?b :: ?e :: ?f :: Ev (ContextWithCancel _) ?c0 :: ?rest) = _
              /\ _ =>
           exists [a; b; e; f], c0, rest
       end.
  all: repeat split.
Qed.

(** X4. [Start] flushes iptables exactly when it passed its guards, the
    colocation mode is not iptables and IP.SetARP answered no error; in
    iptables colocation it never does.  The flush, when made, is made
    once. *)
Theorem Start_flushes_outside_iptables_colocation (d : director) (w : W) :
  let r := run env Start d w in
  (existsb isFlush (calls (events r)) = true <->
     isStarted d = false /\ reconfiguring d = false
     /\ String.eqb (colocationMode d) colocationModeIPTables = false
     /\ In (Ev IPSetARP None) (events r))
  /\ length (filter isFlush (calls (events r))) <= 1.
Proof.
  intros r. by_execution (run env Start d w).
  unfold Start. whatever_go; open_finished.
  all: (split; [| simpl; lia]).
  all: split; [intros H; try discriminate H; repeat split; simpl; auto |].
  all: intros (H1 & H2 & H3 & H4); try congruence.
  all: try reflexivity.
  all: simpl in H4;
       repeat match goal with
       | H : _ \/ _ |- _ => destruct H
       | H : False |- _ => destruct H
       | H : Ev _ _ = Ev _ _ |- _ => discriminate H
       end.
  all: try (apply (f_equal errorOf) in H; simpl in H; discriminate H).
Qed.

(** [cleanup] leaves the director as it was, and it panics exactly when no
    cluster configuration is loaded. *)
Lemma cleanup_outcome (c : ctxId) (d : director) :
  whatever (cleanup c d) (fun t od =>
    snd od = d
    /\ ((exists msg, fst od = Panicking msg) <->
        ClusterConfig (watcher d) = None)).
Proof.
  open_cleanup. whatever_go.
  all: split; [reflexivity |].
  all: split; [intros [msg H]; try discriminate H; reflexivity
              | intros H; try discriminate H; eexists; reflexivity].
Qed.

(** A [Stop] that passes its guards, event by event. *)
Lemma Stop_run (d : director) (c : ctxId) :
  reconfiguring d = false ->
  cxlWatch d = Some c ->
  whatever (Stop d) (fun t od =>
    exists waited ctxDestroy tc,
      t = [Ev (CancelCtx c) tt;
           Ev (Log InfoLevel [] "director: blocking until periodic tasks complete"%string) tt;
           Ev (AwaitDoneOrAfter (doneChan d) 5000) waited;
           Ev (ContextWithTimeout 5000) ctxDestroy]
            ++ tc ++ [Ev (CancelCtx ctxDestroy) tt]
      /\ (if doCleanup d
          then yields (cleanup ctxDestroy (set_reconfiguring true d)) tc
                 (fst od, set_reconfiguring true d)
          else tc = [] /\ fst od = Done None)
      /\ snd od =
           set_reconfiguring false
             match fst od with
             | Done _ => set_isStarted false (set_reconfiguring true d)
             | Panicking _ => set_reconfiguring true d
             end).
Proof.
  intros Hrec Hcxl.
  unfold Stop. cbn. rewrite Hrec. cbn. rewrite Hcxl. whatever_go.
  - apply whatever_pbind. unfold defer. apply whatever_pbind.
    apply whatever_bind.
    eapply whatever_weaken;
      [| apply whatever_and;
         [apply whatever_self
         | apply always_whatever, (cleanup_keeps_director x2)]].
    intros t [o d'] [Hy [_ Hd]]. simpl in *. subst d'.
    destruct o as [e | msg]; whatever_go; units.
    all: exists x1, x2, t; rewrite ?app_nil_r; repeat split; exact Hy.
  - units. exists x1, x2, []. repeat split.
Qed.

(** X5. A [Stop] that passes its guards cancels the watch context, logs,
    waits on [doneChan] for at most 5000 ms, and goes on in the same way
    whether the wait ended by a signal or by the timeout; it makes a
    5000 ms context, runs [cleanup] with it when [doCleanup] is set,
    returning what [cleanup] returns, and cancels that context as its last
    call, also when [cleanup] panics.  [isStarted] is cleared unless
    [cleanup] panicked. *)
Theorem Stop_cancels_waits_and_cleans (d : director) (w : W) (c : ctxId) :
  reconfiguring d = false ->
  cxlWatch d = Some c ->
  let r := run env Stop d w in
  exists waited ctxDestroy tc,
    events r =
      [Ev (CancelCtx c) tt;
       Ev (Log InfoLevel [] "director: blocking until periodic tasks complete"%string) tt;
       Ev (AwaitDoneOrAfter (doneChan d) 5000) waited;
       Ev (ContextWithTimeout 5000) ctxDestroy]
        ++ tc ++ [Ev (CancelCtx ctxDestroy) tt]
    /\ (if doCleanup d
        then yields (cleanup ctxDestroy (set_reconfiguring true d)) tc
               (out r, set_reconfiguring true d)
        else tc = [] /\ out r = Done None)
    /\ isStarted (dir r) =
         match out r with
         | Done _ => false
         | Panicking _ => isStarted d
         end.
Proof.
  intros Hrec Hcxl r.
  destruct (whatever_run Stop d _ (Stop_run d c Hrec Hcxl) w)
    as (waited & ctxDestroy & tc & Ht & Hc & Hd).
  cbn [fst snd] in Hc, Hd. exists waited, ctxDestroy, tc.
  split; [exact Ht |]. split; [exact Hc |].
  subst r. rewrite Hd. destruct (out (run env Stop d w)); reflexivity.
Qed.

(** X6. [Stop] panics exactly when it passed its guard and either the cancel
    function is nil (the director was never started with success) or
    [doCleanup] is set while no cluster configuration is loaded. *)
Theorem Stop_panics_iff (d : director) (w : W) :
  let r := run env Stop d w in
  (exists msg, out r = Panicking msg) <->
  reconfiguring d = false
  /\ (cxlWatch d = None
      \/ (doCleanup d = true /\ ClusterConfig (watcher d) = None)).
Proof.
  intros r. subst r.
  destruct (reconfiguring d) eqn:Hrec.
  { by_execution (run env Stop d w). unfold Stop. cbn. rewrite Hrec. cbn.
    open_finished. split; [intros [msg H]; discriminate H |].
    intros [H _]; discriminate H. }
  destruct (cxlWatch d) as [c |] eqn:Hcxl.
  - destruct (whatever_run Stop d _ (Stop_run d c Hrec Hcxl) w)
      as (waited & ctxDestroy & tc & _ & Hc & _).
    cbn [fst snd] in Hc. destruct (doCleanup d).
    + pose proof (whatever_yields _ _
                    (cleanup_outcome ctxDestroy (set_reconfiguring true d))
                    _ _ Hc) as [_ Hp].
      simpl in Hp. rewrite Hp. split.
      * intros H. split; [reflexivity |]. right. split; [reflexivity | exact H].
      * intros [_ [H | [_ H]]]; [discriminate H | exact H].
    + destruct Hc as [_ Ho]. rewrite Ho. split.
      * intros [msg H]; discriminate H.
      * intros [_ [H | [H _]]]; discriminate H.
  - destruct (Stop_nil_cancel_panics d w Hcxl Hrec) as (Ho & _).
    rewrite Ho. split.
    + intros _. split; [reflexivity |]. left. reflexivity.
    + intros _. eexists. reflexivity.
Qed.

Lemma Start_keeps_settings (d : director) (w : W) :
  sameSettings d (dir (run env Start d w))
  /\ reconfiguring (dir (run env Start d w)) = reconfiguring d.
Proof.
  by_execution (run env Start d w).
  unfold Start. whatever_go; open_finished.
  all: unfold sameSettings; cbn; repeat split; congruence.
Qed.

Lemma Stop_keeps_settings (d : director) (w : W) :
  sameSettings d (dir (run env Stop d w))
  /\ reconfiguring (dir (run env Stop d w)) = reconfiguring d
  /\ doneChan (dir (run env Stop d w)) = doneChan d
  /\ ctxWatch (dir (run env Stop d w)) = ctxWatch d
  /\ cxlWatch (dir (run env Stop d w)) = cxlWatch d.
Proof.
  destruct (reconfiguring d) eqn:Hrec.
  { by_execution (run env Stop d w). unfold Stop. cbn. rewrite Hrec. cbn.
    open_finished. unfold sameSettings. repeat split. exact Hrec. }
  destruct (cxlWatch d) as [c |] eqn:Hcxl.
  - destruct (whatever_run Stop d _ (Stop_run d c Hrec Hcxl) w)
      as (waited & ctxDestroy & tc & _ & _ & Hd).
    cbn [fst snd] in Hd. rewrite Hd.
    destruct (out (run env Stop d w)); unfold sameSettings; cbn;
      repeat split; exact Hcxl.
  - by_execution (run env Stop d w). unfold Stop. cbn. rewrite Hrec. cbn.
    rewrite Hcxl. cbn. open_finished. unfold sameSettings. cbn.
    repeat split; exact Hcxl.
Qed.

(** X7. [Start] and [Stop] leave the [reconfiguring] flag as they found it
    on every path, errors and panics included, and they never touch the
    settings of the director; [Stop] leaves the done channel and the watch
    context in place. *)
Theorem lifecycle_frame (d : director) (w : W) :
  let r1 := run env Start d w in
  let r2 := run env Stop d w in
  sameSettings d (dir r1) /\ reconfiguring (dir r1) = reconfiguring d
  /\ sameSettings d (dir r2) /\ reconfiguring (dir r2) = reconfiguring d
  /\ doneChan (dir r2) = doneChan d /\ ctxWatch (dir r2) = ctxWatch d
  /\ cxlWatch (dir r2) = cxlWatch d.
Proof.
  intros r1 r2. subst r1 r2.
  destruct (Start_keeps_settings d w) as [H1 H1'].
  destruct (Stop_keeps_settings d w) as (H2 & H2' & H3 & H4 & H5).
  split; [exact H1 |]. split; [exact H1' |]. split; [exact H2 |].
  repeat split; assumption.
Qed.

(** What a [Start] that returns nil leaves in the director. *)
Lemma Start_run_nil (d : director) :
  whatever (Start d) (fun t od =>
    fst od = Done None ->
    exists done c,
      In (Ev (MakeChan 0) done) t
      /\ In (Ev (ContextWithCancel (ctx d)) c) t
      /\ doneChan (snd od) = done /\ cxlWatch (snd od) = Some c
      /\ reconfiguring (snd od) = false /\ isStarted (snd od) = true).
Proof.
  unfold Start. whatever_go; intros H; try discriminate H.
  all: do 2 eexists; repeat split; simpl; auto 10.
Qed.

(** X8. After a [Start] that returned nil, [Stop] cancels the watch context
    that this [Start] derived from the director's context, and waits on the
    done channel that this [Start] made (not on the one [NewDirector]
    made). *)
Theorem Stop_cancels_what_Start_created (d : director) (w w' : W) :
  let r1 := run env Start d w in
  out r1 = Done None ->
  let r2 := run env Stop (dir r1) w' in
  exists done c waited rest,
    In (Ev (MakeChan 0) done) (events r1)
    /\ In (Ev (ContextWithCancel (ctx d)) c) (events r1)
    /\ events r2 =
         Ev (CancelCtx c) tt
           :: Ev (Log InfoLevel [] "director: blocking until periodic tasks complete"%string) tt
           :: Ev (AwaitDoneOrAfter done 5000) waited
           :: rest.
Proof.
  intros r1 Hout r2.
  destruct (whatever_run Start d _ (Start_run_nil d) w Hout)
    as (done & c & Hdone & Hc & Hd & Hcxl & Hrec & _).
  cbn [fst snd] in Hd, Hcxl, Hrec. fold r1 in Hd, Hcxl, Hrec.
  destruct (whatever_run Stop (dir r1) _ (Stop_run (dir r1) c Hrec Hcxl) w')
    as (waited & ctxDestroy & tc & Ht & _).
  exists done, c, waited. eexists.
  split; [exact Hdone |]. split; [exact Hc |].
  subst r2. rewrite Ht, Hd. reflexivity.
Qed.

(** ** More on the apply pipeline *)

Lemma clockReads_app (t s : list event) :
  clockReads (t ++ s) = clockReads t ++ clockReads s.
Proof. apply flat_map_app. Qed.

Lemma samples_app (t s : list event) : samples (t ++ s) = samples t ++ samples s.
Proof. apply flat_map_app. Qed.

Lemma lastEvent_snoc (t : list event) (e : event) :
  lastEvent (t ++ [e]) = Some e.
Proof.
  unfold lastEvent. rewrite map_app. simpl. apply last_last.
Qed.

Lemma lastEvent_snoc2 (t : list event) (a b : event) :
  lastEvent (t ++ [a; b]) = Some b.
Proof.
  replace (t ++ [a; b]) with ((t ++ [a]) ++ [b])
    by (rewrite <- app_assoc; reflexivity).
  apply lastEvent_snoc.
Qed.

(** The calls of address reconciliation read no clock and record no
    sample. *)
Lemma address_calls_quiet (t : list event) :
  Forall (fun c => addressCall c = true) (calls t) ->
  clockReads t = [] /\ samples t = [].
Proof.
  induction t as [| [c x] t IH]; simpl; intros H; [split; reflexivity |].
  inversion H as [| c' cs Hc Hcs]; subst.
  destruct (IH Hcs) as [H1 H2].
  unfold clockReads, samples in *. simpl. rewrite H1, H2.
  destruct c; try discriminate Hc; split; reflexivity.
Qed.

Lemma loop_calls_no_mtu (t : list event) :
  Forall (fun c => loopCall c = true) (calls t) ->
  existsb isSetMTU (calls t) = false.
Proof.
  intros H. apply (none_of loopCall isSetMTU); [| exact H].
  intros c Hc. destruct c; try discriminate Hc; reflexivity.
Qed.

Lemma delRemovals_loop_calls (removals : list string) (d : director) :
  always (fun c => loopCall c = true) (fun _ => True) (delRemovals removals d).
Proof. induction removals as [| a rest IH]; always_go. exact IH. Qed.

Lemma addAdditions_loop_calls (additions : list string) (d : director) :
  always (fun c => loopCall c = true) (fun _ => True)
    (addAdditions additions d).
Proof. induction additions as [| a rest IH]; always_go; exact IH. Qed.

(** How [setAddresses] ends: with nil after [IP.SetMTU], with the error of
    the [IP.Get] or [IP.Del] that was its last call, or panicking on a nil
    cluster configuration right after [IP.Get]. *)
Lemma setAddresses_ends (d : director) :
  whatever (setAddresses d) (fun t od =>
    match fst od with
    | Done None =>
        exists cfg pre res,
          ClusterConfig (watcher d) = Some cfg
          /\ t = pre ++ Ev (IPSetMTU (MTUConfig cfg) false) res :: mtuLog res
          /\ existsb isSetMTU (calls pre) = false
    | Done (Some e) =>
        (exists pre ev,
           t = pre ++ [ev] /\ fatalAddressCall (ev_call ev) = true
           /\ errorOf ev = Some e)
        /\ existsb isSetMTU (calls t) = false
    | Panicking msg =>
        msg = nilDereference /\ ClusterConfig (watcher d) = None
        /\ exists g, t = [Ev IPGet g] /\ snd g = None
    end).
Proof.
  open_setAddresses. whatever_go.
  - split; [| reflexivity].
    exists [], (Ev IPGet (l, l0, Some e)). repeat split.
  - apply whatever_bind.
    eapply whatever_weaken;
      [| apply whatever_and;
         [apply delRemovals_trace
         | apply always_whatever, delRemovals_loop_calls]].
    intros t1 [o1 d1] [(Hd & _ & _ & Ho1) [Hc1 _]]. simpl in *. subst d1.
    destruct o1 as [[e |] | msg]; [| | destruct Ho1].
    + cbn. rewrite app_nil_r. destruct Ho1 as (p & a & -> & _). split.
      * exists (Ev IPGet (l, l0, None)
                  :: Ev (IPCompare4 l (map fst (Config c))) (l1, l2) :: p),
               (Ev (IPDel a) (Some e)).
        repeat split.
      * simpl. apply loop_calls_no_mtu. exact Hc1.
    + whatever_go. apply whatever_bind.
      eapply whatever_weaken;
        [| apply whatever_and;
           [apply addAdditions_trace
           | apply always_whatever, addAdditions_loop_calls]].
      intros t2 od2 [(-> & _) [Hc2 _]]. cbn. intros mtu.
      assert (Hpre : existsb isSetMTU
                       (calls (Ev IPGet (l, l0, None)
                                 :: Ev (IPCompare4 l (map fst (Config c))) (l1, l2)
                                 :: t1 ++ t2)) = false).
      { simpl. apply loop_calls_no_mtu. unfold calls. rewrite map_app.
        apply Forall_app. split; assumption. }
      destruct mtu as [e |]; cbn; intros; units.
      * exists c, (Ev IPGet (l, l0, None)
                     :: Ev (IPCompare4 l (map fst (Config c))) (l1, l2)
                     :: t1 ++ t2), (Some e).
        split; [reflexivity |]. split; [| exact Hpre].
        simpl. rewrite <- !app_assoc. reflexivity.
      * exists c, (Ev IPGet (l, l0, None)
                     :: Ev (IPCompare4 l (map fst (Config c))) (l1, l2)
                     :: t1 ++ t2), None.
        split; [reflexivity |]. split; [| exact Hpre].
        simpl. rewrite <- !app_assoc. reflexivity.
  - repeat split. eexists. split; reflexivity.
Qed.

(** X9. [setAddresses] returns an error only for [IP.Get] or [IP.Del]: it
    returns the error [e] exactly when its last call is an [IP.Get] or an
    [IP.Del] that answered [e].  A failure of [IP.Add],
    [IP.AdvertiseMacAddress] or [IP.SetMTU] never makes it fail. *)
Theorem setAddresses_fails_only_on_get_or_del (d : director) (w : W)
    (e : error) :
  let r := run env setAddresses d w in
  out r = Done (Some e) <->
  exists ev,
    lastEvent (events r) = Some ev
    /\ fatalAddressCall (ev_call ev) = true
    /\ errorOf ev = Some e.
Proof.
  intros r. subst r.
  pose proof (whatever_run setAddresses d _ (setAddresses_ends d) w) as H.
  cbn [fst snd] in H.
  destruct (out (run env setAddresses d w)) as [[e' |] | msg].
  - destruct H as [(pre & ev & Ht & Hf & He) _]. rewrite Ht, lastEvent_snoc.
    split.
    + intros Heq. injection Heq as <-. exists ev. repeat split; assumption.
    + intros (ev' & Hl & _ & He'). injection Hl as <-. congruence.
  - destruct H as (cfg & pre & res & _ & Ht & _). rewrite Ht.
    split; [intros Heq; discriminate Heq |].
    intros (ev & Hl & Hf & _). exfalso.
    destruct res as [e' |]; unfold mtuLog in Hl.
    + rewrite lastEvent_snoc2 in Hl. injection Hl as <-. discriminate Hf.
    + rewrite lastEvent_snoc in Hl. injection Hl as <-. discriminate Hf.
  - destruct H as (_ & _ & [[[v4 v6] ge] [Ht Hg]]). rewrite Ht.
    split; [intros Heq; discriminate Heq |].
    intros (ev & Hl & _ & He). exfalso. simpl in Hl. injection Hl as <-.
    simpl in He, Hg. congruence.
Qed.

(** X10. [setAddresses] returns nil exactly when it reached [IP.SetMTU].  It
    calls it once, with the MTU table of the cluster configuration and
    false, after all deletions and additions; whatever it answers, only the
    log entry of its failure can follow, and the method returns nil. *)
Theorem setAddresses_sets_mtu_last (d : director) (w : W) :
  let r := run env setAddresses d w in
  (out r = Done None <-> existsb isSetMTU (calls (events r)) = true)
  /\ (out r = Done None ->
      exists cfg pre res,
        ClusterConfig (watcher d) = Some cfg
        /\ events r = pre ++ Ev (IPSetMTU (MTUConfig cfg) false) res :: mtuLog res
        /\ existsb isSetMTU (calls pre) = false).
Proof.
  intros r. subst r.
  pose proof (whatever_run setAddresses d _ (setAddresses_ends d) w) as H.
  cbn [fst snd] in H.
  destruct (out (run env setAddresses d w)) as [[e' |] | msg].
  - destruct H as [_ Hno]. rewrite Hno.
    split; [split |]; intros Heq; discriminate Heq.
  - split; [| intros _; exact H].
    destruct H as (cfg & pre & res & _ & Ht & _). rewrite Ht.
    split; [intros _ | reflexivity].
    unfold calls. rewrite map_app, existsb_app. simpl.
    apply orb_true_r.
  - destruct H as (_ & _ & [g [Ht _]]). rewrite Ht.
    split; [split |]; intros Heq; discriminate Heq.
Qed.

(* Finds among the events of the goal one that satisfies what follows. *)
Ltac choose_event := (left; reflexivity) + (right; choose_event).

Ltac pick_event :=
  eexists; split; [choose_event | repeat split; reflexivity].

(** How [setIPTables] ends, and what it did to the gauge. *)
Lemma setIPTables_ends (d : director) :
  whatever (setIPTables d) (fun t od =>
    snd od = d
    /\ gauges t = map gaugeFor (restores t)
    /\ clockReads t = [] /\ samples t = []
    /\ match fst od with
       | Done None =>
           restores t = [None] /\ existsb isWriteFile (calls t) = false
       | Done (Some e) =>
           (restores t = [] /\ existsb isWriteFile (calls t) = false
            \/ restores t = [Some e] /\ existsb isWriteFile (calls t) = true)
           /\ exists ev,
                In ev t /\ errorOf ev = Some e
                /\ failedTo (ev_call ev) = "configure iptables"%string
       | Panicking msg =>
           restores t = [] /\ existsb isWriteFile (calls t) = false
           /\ msg = nilDereference /\ node d = None
       end).
Proof.
  apply whatever_finished. open_setIPTables. whatever_go.
  all: open_finished; cbn [fst snd].
  all: split; [reflexivity |]; split; [reflexivity |].
  all: split; [reflexivity |]; split; [reflexivity |].
  all: try (split; [first [left; split; reflexivity | right; split; reflexivity]
                   | pick_event]).
  all: repeat split; assumption.
Qed.

(** X11. The IptablesWriteFailure gauge follows [IPTables.Restore] and
    nothing else: [setIPTables] sets it once, to 1 or 0, right when
    [Restore] answered, and leaves it alone when [Save],
    [GenerateRulesForNodeClassic] or [Merge] failed or the node is nil.  It
    returns nil exactly when [Restore] was called and answered no error, and
    it writes the error file only after a [Restore] that failed. *)
Theorem setIPTables_gauge_follows_restore (d : director) (w : W) :
  let r := run env setIPTables d w in
  gauges (events r) = map gaugeFor (restores (events r))
  /\ length (restores (events r)) <= 1
  /\ (out r = Done None <-> restores (events r) = [None])
  /\ (existsb isWriteFile (calls (events r)) = true <->
      exists e, restores (events r) = [Some e]).
Proof.
  intros r. subst r.
  destruct (whatever_run setIPTables d _ (setIPTables_ends d) w)
    as (_ & Hg & _ & _ & H).
  cbn [fst snd] in H. split; [exact Hg |].
  destruct (out (run env setIPTables d w)) as [[e |] | msg].
  - destruct H as [[[Hr Hw] | [Hr Hw]] _]; rewrite Hr, Hw; simpl.
    + split; [lia |]. split; split; try discriminate.
      intros [e' He']; discriminate He'.
    + split; [lia |]. split; [split; discriminate |].
      split; [intros _; exists e; reflexivity | reflexivity].
  - destruct H as [Hr Hw]. rewrite Hr, Hw. simpl.
    split; [lia |]. split; [split; reflexivity |].
    split; [discriminate | intros [e' He']; discriminate He'].
  - destruct H as (Hr & Hw & _). rewrite Hr, Hw. simpl.
    split; [lia |]. split; [split; discriminate |].
    split; [discriminate | intros [e' He']; discriminate He'].
Qed.

(** X12. While the watch loop has not cached the local node ([d.node] is
    nil), [setIPTables] saves the existing rules and then either returns the
    error of [Save] or panics before generating anything: no rule is
    generated, merged or restored. *)
Theorem setIPTables_without_node (d : director) (w : W) :
  node d = None ->
  let r := run env setIPTables d w in
  exists existing res,
    events r =
      [Ev (Log DebugLevel [] "director: capturing iptables rules"%string) tt;
       Ev IPTablesSave (existing, res)]
        ++ match res with
           | Some _ => []
           | None =>
               [Ev (Log DebugLevel []
                      ("director: got " ++ decimal (length existing)
                         ++ " existing rules")%string) tt;
                Ev (Log DebugLevel [] "director: generating iptables rules"%string) tt]
           end
    /\ out r =
         match res with
         | Some e => Done (Some e)
         | None => Panicking nilDereference
         end.
Proof.
  intros Hnode r.
  by_execution (run env setIPTables d w).
  open_setIPTables. cbn. intros u [existing res]. destruct res as [e |]; cbn.
  - open_finished. units. exists existing, (Some e). split; reflexivity.
  - intros u1 u2. rewrite Hnode. cbn. open_finished. units.
    exists existing, None. split; reflexivity.
Qed.

Lemma fatalAddressCall_failedTo (c : call) :
  fatalAddressCall c = true -> failedTo c = "configure VIP addresses"%string.
Proof. destruct c; intros H; try discriminate H; reflexivity. Qed.

(* Reads the clock and the samples of a trace made of known parts. *)
Ltac read_trace :=
  unfold clockReads, samples in *;
  repeat first
    [ rewrite flat_map_app
    | progress simpl
    | match goal with H : flat_map _ _ = [] |- _ => rewrite H end ].

(* An event known to be in a part of a trace is in the trace. *)
Ltac in_parts :=
  solve [ assumption
        | apply in_eq
        | apply in_cons; in_parts
        | apply in_or_app; left; in_parts
        | apply in_or_app; right; in_parts ].

(* The clock reading and the sample of a finished run of the steps. *)
Ltac sample_leaf :=
  split; [reflexivity |];
  do 2 eexists; read_trace;
  split; [reflexivity |]; split; [reflexivity |].

(* The failed call is the event at hand. *)
Ltac failed_here :=
  split; [reflexivity |];
  lazymatch goal with
  | |- context [Ev ?c (Some ?e)] =>
      exists (Ev c (Some e)), e;
      split; [in_parts | split; [reflexivity | split; [reflexivity | discriminate]]]
  end.

(** How the steps below the parity block end: one sample and one reading of
    the clock when they return, none when they panic. *)
Lemma applySteps_ends (start : time) (d : director) :
  whatever (applySteps start d) (fun t od =>
    snd od = d
    /\ match fst od with
       | Done res =>
           exists now label,
             clockReads t = [now] /\ samples t = [(label, (now - start)%Z)]
             /\ match res with
                | None => label = "complete"%string
                | Some msg =>
                    label = "error"%string
                    /\ exists ev e,
                         In ev t /\ errorOf ev = Some e
                         /\ msg = ("director: unable to " ++ failedTo (ev_call ev)
                                     ++ " with error " ++ e)%string
                         /\ failedTo (ev_call ev) <> ""%string
                end
       | Panicking msg =>
           clockReads t = [] /\ samples t = [] /\ msg = nilDereference
           /\ (ClusterConfig (watcher d) = None
               \/ node d = None
                  /\ String.eqb (colocationMode d) colocationModeIPTables = true)
       end).
Proof.
  open_applySteps. apply whatever_bind.
  eapply whatever_weaken;
    [| apply whatever_and;
       [apply setAddresses_ends
       | apply always_whatever, setAddresses_calls]].
  intros ta [oa da] [Hends [Hcalls Hd]]. simpl in Hd. subst da.
  destruct (address_calls_quiet ta Hcalls) as [Hclk Hsmp].
  cbn [fst snd] in *.
  destruct oa as [[e |] | msg].
  - whatever_go. split; [reflexivity |]. exists x, "error"%string.
    read_trace. repeat split.
    destruct Hends as [(pre & ev & -> & Hf & He) _].
    exists ev, e. split; [| split; [exact He |]].
    + rewrite <- app_assoc. apply in_or_app. right. left. reflexivity.
    + rewrite (fatalAddressCall_failedTo _ Hf). split; [reflexivity | discriminate].
  - whatever_go.
    + apply whatever_bind. apply whatever_bind.
      eapply whatever_weaken; [| apply setIPTables_ends].
      intros ti [oi di] (Hd & _ & Hclki & Hsmpi & Hi). cbn [fst snd] in *.
      subst di. destruct oi as [[e |] | msg]; whatever_go.
      * split; [reflexivity |]. exists x0, "error"%string.
        read_trace. repeat split.
        destruct Hi as [_ (ev & Hin & He & Hf)].
        exists ev, e. split; [in_parts |]. split; [exact He |].
        rewrite Hf. split; [reflexivity | discriminate].
      * sample_leaf. failed_here.
      * sample_leaf. reflexivity.
      * destruct Hi as (_ & _ & -> & Hnode).
        split; [reflexivity |]. read_trace. repeat split.
        right. split; [exact Hnode | reflexivity].
    + sample_leaf. failed_here.
    + sample_leaf. reflexivity.
  - destruct Hends as (-> & Hcfg & _). cbn.
    split; [reflexivity |]. rewrite ?app_nil_r. repeat split; try assumption.
    left. exact Hcfg.
Qed.

(** How [applyConf] ends: it reads the clock at its beginning and, unless it
    panics, once more for the one sample it records. *)
Lemma applyConf_ends (force : bool) (d : director) :
  whatever (applyConf force d) (fun t od =>
    snd od = d
    /\ match fst od with
       | Done res =>
           exists start now label,
             clockReads t = [start; now]
             /\ samples t = [(label, (now - start)%Z)]
             /\ match res with
                | None => label = "complete"%string \/ label = "noop"%string
                | Some msg =>
                    label = "error"%string
                    /\ exists ev e,
                         In ev t /\ errorOf ev = Some e
                         /\ msg = ("director: unable to " ++ failedTo (ev_call ev)
                                     ++ " with error " ++ e)%string
                         /\ failedTo (ev_call ev) <> ""%string
                end
       | Panicking msg =>
           (exists start, clockReads t = [start]) /\ samples t = []
           /\ msg = nilDereference
           /\ (ClusterConfig (watcher d) = None
               \/ node d = None
                  /\ String.eqb (colocationMode d) colocationModeIPTables = true)
       end).
Proof.
  unfold applyConf. open_parityBlock. destruct force; whatever_go.
  all: try (eapply whatever_weaken; [| apply applySteps_ends];
            intros t [o d'] [Hd H]; cbn [fst snd] in *;
            split; [exact Hd |]; unfold clockReads, samples in *;
            destruct o as [[msg |] | msg];
            [ destruct H
                as (now & label & Hc & Hs & -> & ev & e' & Hin & He & -> & Hf);
              exists x0, now, "error"%string; rewrite Hc, Hs;
              split; [reflexivity |]; split; [reflexivity |];
              split; [reflexivity |];
              exists ev, e';
              split; [| split; [exact He | split; [reflexivity | exact Hf]]];
              simpl; repeat (first [exact Hin | right])
            | destruct H as (now & label & Hc & Hs & ->);
              exists x0, now, "complete"%string; rewrite Hc, Hs;
              repeat split; left; reflexivity
            | destruct H as (Hc & Hs & Hm & Hnil);
              rewrite Hc, Hs; repeat split; try assumption;
              eexists; reflexivity ]).
  all: split; [reflexivity |]; do 3 eexists.
  all: split; [reflexivity |]; split; [reflexivity |].
  all: try (right; reflexivity).
  all: split; [reflexivity |].
  all: eexists; eexists;
    split; [choose_event | split; [reflexivity | split; [reflexivity | discriminate]]].
Qed.

(** X13. Every [applyConf] that returns reads the clock exactly twice and
    records exactly one sample of the Reconfigure metric, whose elapsed time
    is the second reading minus the first; the label is "error" when it
    returns an error and "noop" or "complete" when it returns nil.  An
    [applyConf] that panics has read the clock once and recorded nothing. *)
Theorem applyConf_records_one_sample (force : bool) (d : director) (w : W) :
  let r := run env (applyConf force) d w in
  match out r with
  | Done res =>
      exists start now label,
        clockReads (events r) = [start; now]
        /\ samples (events r) = [(label, (now - start)%Z)]
        /\ match res with
           | Some _ => label = "error"%string
           | None => label = "complete"%string \/ label = "noop"%string
           end
  | Panicking _ =>
      (exists start, clockReads (events r) = [start])
      /\ samples (events r) = []
  end.
Proof.
  intros r. subst r.
  destruct (whatever_run (applyConf force) d _ (applyConf_ends force d) w)
    as [_ H].
  cbn [fst snd] in H.
  destruct (out (run env (applyConf force) d w)) as [res | msg].
  - destruct H as (start & now & label & Hc & Hs & Hl).
    exists start, now, label. split; [exact Hc |]. split; [exact Hs |].
    destruct res as [msg |]; [exact (proj1 Hl) | exact Hl].
  - destruct H as (Hc & Hs & _). split; assumption.
Qed.

(** X14. [applyConf] invents no error: the error it returns is the message
    of an error that one of its calls answered, behind the prefix that names
    the step that call belongs to (comparing configurations, configuring VIP
    addresses, iptables or ipvs). *)
Theorem applyConf_wraps_the_failed_call (force : bool) (d : director) (w : W)
    (msg : error) :
  let r := run env (applyConf force) d w in
  out r = Done (Some msg) ->
  exists ev e,
    In ev (events r) /\ errorOf ev = Some e
    /\ msg = ("director: unable to " ++ failedTo (ev_call ev)
                ++ " with error " ++ e)%string
    /\ failedTo (ev_call ev) <> ""%string.
Proof.
  intros r Hout. subst r.
  destruct (whatever_run (applyConf force) d _ (applyConf_ends force d) w)
    as [_ H].
  cbn [fst snd] in H. rewrite Hout in H.
  destruct H as (_ & _ & _ & _ & _ & _ & ev & e & Hin & He & Hmsg & Hf).
  exists ev, e. repeat split; assumption.
Qed.

(** X15. [applyConf] panics only on a nil pointer: when it panics, no
    cluster configuration is loaded, or the colocation mode is iptables and
    the local node is not cached yet.  With a configuration loaded and the
    node cached it always returns. *)
Theorem applyConf_panics_only_on_nil (force : bool) (d : director) (w : W)
    (msg : string) :
  let r := run env (applyConf force) d w in
  out r = Panicking msg ->
  msg = nilDereference
  /\ (ClusterConfig (watcher d) = None
      \/ node d = None
         /\ String.eqb (colocationMode d) colocationModeIPTables = true).
Proof.
  intros r Hout. subst r.
  destruct (whatever_run (applyConf force) d _ (applyConf_ends force d) w)
    as [_ H].
  cbn [fst snd] in H. rewrite Hout in H.
  destruct H as (_ & _ & Hm & Hnil). split; assumption.
Qed.

(** ** The callers of the pipeline *)

Context {rt : Runtime}.

(** How [reconfigure] ends. *)
Lemma reconfigure_ends (force : bool) (d : director) :
  whatever (reconfigure force d) (fun t od =>
    snd od = d
    /\ exists start ta oa tail,
         t = Ev TimeNow start
               :: Ev (Log InfoLevel [] "director: reconfiguring"%string) tt
               :: ta ++ tail
         /\ yields (applyConf force d) ta (oa, d)
         /\ match oa with
            | Done (Some e) =>
                tail = [Ev (Log ErrorLevel []
                              ("error applying configuration in director. " ++ e)%string)
                           tt]
                /\ fst od = Done tt
            | Done None =>
                (exists now,
                   tail = [Ev TimeNow now;
                           Ev (Log InfoLevel []
                                 ("director: reconfiguration completed successfully in "
                                    ++ durationString (now - start)%Z)%string) tt])
                /\ fst od = Done tt
            | Panicking msg => tail = [] /\ fst od = Panicking msg
            end).
Proof.
  unfold reconfigure. cbn [whatever bind pbind perform logf fst snd].
  intros start u. apply whatever_pbind.
  eapply whatever_weaken;
    [| apply whatever_and; [apply whatever_self | apply applyConf_ends]].
  intros ta [oa da] [Hy [Hd _]]. cbn [fst snd] in *. subst da.
  destruct u.
  destruct oa as [[e |] | msg]; whatever_go; units.
  all: split; [reflexivity |]; do 4 eexists.
  all: split; [reflexivity |]; split; [exact Hy |]; cbn.
  all: try rewrite app_nil_r.
  all: split; try reflexivity.
  eexists. reflexivity.
Qed.

(** X16. The apply pipeline never writes to the director: [applyConf],
    [reconfigure], [setAddresses], [setIPTables] and [cleanup] leave every
    field as they found it, whatever they return and also when they
    panic. *)
Theorem pipeline_keeps_director (force : bool) (c : ctxId) (d : director)
    (w : W) :
  dir (run env (applyConf force) d w) = d
  /\ dir (run env (reconfigure force) d w) = d
  /\ dir (run env setAddresses d w) = d
  /\ dir (run env setIPTables d w) = d
  /\ dir (run env (cleanup c) d w) = d.
Proof.
  split; [| split; [| split; [| split]]].
  - exact (proj1 (whatever_run _ d _ (applyConf_ends force d) w)).
  - exact (proj1 (whatever_run _ d _ (reconfigure_ends force d) w)).
  - exact (proj2 (always_run _ _ _ d w (setAddresses_calls d))).
  - exact (proj2 (always_run _ _ _ d w (setIPTables_calls d))).
  - exact (proj2 (always_run _ _ _ d w (cleanup_keeps_director c d))).
Qed.

(** X17. Nothing ever assigns the error that [Err] returns: [Err] makes no
    call and returns the [err] field, [NewDirector] leaves that field nil,
    and [Start], [Stop], [applyConf] and [reconfigure] return the director
    with the same [err], so that [Err] returns nil for the whole life of a
    director. *)
Theorem Err_is_never_set (d : director) (w w' : W) (force : bool)
    (ctx0 : ctxId) (nodeName0 configKey : string) (cleanup0 : bool)
    (watcher0 : Watcher) (mode : string) (forced : bool) :
  let errAfter {R : Type} (m : M R) :=
    out (run env Err (dir (run env m d w)) w') in
  out (run env Err d w) = Done (err d)
  /\ events (run env Err d w) = []
  /\ dir (run env Err d w) = d
  /\ err (fst (fst (exec env
                      (NewDirector ctx0 nodeName0 configKey cleanup0 watcher0
                         mode forced) w))) = None
  /\ errAfter Start = Done (err d)
  /\ errAfter Stop = Done (err d)
  /\ errAfter (applyConf force) = Done (err d)
  /\ errAfter (reconfigure force) = Done (err d).
Proof.
  intros errAfter. subst errAfter. cbv beta.
  assert (HE : forall d0 w0, out (run env Err d0 w0) = Done (err d0))
    by reflexivity.
  rewrite !HE.
  split; [reflexivity |]. split; [reflexivity |]. split; [reflexivity |].
  split; [reflexivity |].
  destruct (Start_keeps_settings d w) as [(_ & _ & _ & _ & _ & _ & _ & _ & H1) _].
  destruct (Stop_keeps_settings d w) as [(_ & _ & _ & _ & _ & _ & _ & _ & H2) _].
  pose proof (proj1 (whatever_run _ d _ (applyConf_ends force d) w)) as H3.
  pose proof (proj1 (whatever_run _ d _ (reconfigure_ends force d) w)) as H4.
  cbn [snd] in H3, H4. rewrite H1, H2, H3, H4.
  repeat split.
Qed.

(** X18. [reconfigure] never lets an error out: it reads the clock, logs,
    runs [applyConf], and then logs the error [applyConf] returned, or logs
    the success together with the time elapsed since its own reading of the
    clock; in both cases it returns normally.  Only a panic of [applyConf]
    goes through it. *)
Theorem reconfigure_logs_and_swallows (force : bool) (d : director) (w : W) :
  let r := run env (reconfigure force) d w in
  exists start ta oa tail,
    events r =
      Ev TimeNow start
        :: Ev (Log InfoLevel [] "director: reconfiguring"%string) tt
        :: ta ++ tail
    /\ yields (applyConf force d) ta (oa, d)
    /\ match oa with
       | Done (Some e) =>
           tail = [Ev (Log ErrorLevel []
                         ("error applying configuration in director. " ++ e)%string)
                      tt]
           /\ out r = Done tt
       | Done None =>
           (exists now,
              tail = [Ev TimeNow now;
                      Ev (Log InfoLevel []
                            ("director: reconfiguration completed successfully in "
                               ++ durationString (now - start)%Z)%string) tt])
           /\ out r = Done tt
       | Panicking msg => tail = [] /\ out r = Panicking msg
       end.
Proof.
  intros r. subst r.
  exact (proj2 (whatever_run _ d _ (reconfigure_ends force d) w)).
Qed.

(** ** The error dump *)

Lemma length_list_byte_of_string (s : string) :
  length (list_byte_of_string s) = String.length s.
Proof.
  unfold list_byte_of_string.
  induction s as [| c s IH]; simpl; [reflexivity | rewrite IH; reflexivity].
Qed.

(** X19. The dump [createErrorLog] builds ends with the rules, unchanged:
    they are what is left when the header is dropped.  The header is empty
    for a nil error, and otherwise the 20 bytes of "ipvs restore error: ",
    the message and a newline. *)
Theorem createErrorLog_rules_recoverable (e : option error)
    (rules : list byte) :
  let dump := createErrorLog e rules in
  let header :=
    match e with
    | None => 0
    | Some m => 21 + String.length m
    end in
  length dump = header + length rules
  /\ skipn header dump = rules
  /\ firstn header dump =
       match e with
       | None => []
       | Some m =>
           list_byte_of_string
             ("ipvs restore error: " ++ m ++ String "010" "")%string
       end.
Proof.
  intros dump header. subst dump header. destruct e as [m |].
  - rewrite createErrorLog_bytes.
    rewrite !list_byte_of_string_app.
    set (h := list_byte_of_string "ipvs restore error: " ++ list_byte_of_string m
                ++ list_byte_of_string (String "010" "")).
    assert (Hh : length h = 21 + String.length m).
    { subst h. rewrite !length_app, !length_list_byte_of_string. simpl. lia. }
    change (["010"%byte]) with (list_byte_of_string (String "010" "")).
    replace (list_byte_of_string "ipvs restore error: " ++ list_byte_of_string m
               ++ list_byte_of_string (String "010" "") ++ rules)
      with (h ++ rules)
      by (subst h; rewrite <- !app_assoc; reflexivity).
    rewrite <- Hh. split; [apply length_app |].
    split.
    + rewrite skipn_app, skipn_all, Nat.sub_diag. reflexivity.
    + rewrite firstn_app, firstn_all, Nat.sub_diag, firstn_O.
      apply app_nil_r.
  - with_strategy transparent [createErrorLog] unfold createErrorLog.
    repeat split.
Qed.

(** ** A setting that nothing reads *)

Lemma mirrors_exec {R : Type} (v : bool)
    (p q : prog (result R * director)) :
  mirrors v p q ->
  forall w,
    exec env p w =
      ((fst (fst (exec env q w)),
        set_forcedReconfigure v (snd (fst (exec env q w)))),
       snd (exec env q w)).
Proof.
  induction 1 as [o d | c k k' _ IH]; intros w; simpl.
  - reflexivity.
  - rewrite IH. reflexivity.
Qed.

Lemma mirrors_ret' {R : Type} (v : bool) (o : result R) (d1 d2 : director) :
  d1 = set_forcedReconfigure v d2 -> mirrors v (Ret (o, d1)) (Ret (o, d2)).
Proof. intros ->. constructor. Qed.

Lemma mirrors_pbind {A B : Type} (v : bool)
    (p q : prog (result A * director))
    (f g : result A * director -> prog (result B * director)) :
  mirrors v p q ->
  (forall o d, mirrors v (f (o, set_forcedReconfigure v d)) (g (o, d))) ->
  mirrors v (pbind p f) (pbind q g).
Proof.
  intros H Hf. induction H as [o d | c k k' _ IH]; simpl.
  - apply Hf.
  - constructor. exact IH.
Qed.

(* Executes both programs in step. *)
Ltac mirrors_go :=
  repeat first
    [ progress cbn
    | match goal with
      | |- mirrors _ _ ?q =>
          let q' := eval hnf in q in
          lazymatch q' with
          | Ret _ => apply mirrors_ret'; reflexivity
          | Vis _ _ => apply mirrors_vis; intro
          end
      | |- mirrors _ _ ?q => let x := stuck_on q in split_on x
      end ].

Lemma mirrors_bind {A B : Type} (v : bool) (m : M A) (f : A -> M B)
    (d : director) :
  mirrors v (m (set_forcedReconfigure v d)) (m d) ->
  (forall a d0, mirrors v (f a (set_forcedReconfigure v d0)) (f a d0)) ->
  mirrors v (bind m f (set_forcedReconfigure v d)) (bind m f d).
Proof.
  intros Hm Hf. unfold bind. apply mirrors_pbind; [exact Hm |].
  intros [a | msg] d0; simpl; [apply Hf | constructor].
Qed.

(* A call of a method that is blind, followed by the rest. *)
Ltac mirrors_call H :=
  first [ apply mirrors_bind; [apply H | intros ? ?; mirrors_go]
        | apply mirrors_pbind;
          [mirrors_call H | intros [? | ?] ?; mirrors_go] ].

Lemma delRemovals_blind (removals : list string) : blind (delRemovals removals).
Proof.
  intros v d. induction removals as [| a rest IH]; mirrors_go. exact IH.
Qed.

Lemma addAdditions_blind (additions : list string) :
  blind (addAdditions additions).
Proof.
  intros v d. induction additions as [| a rest IH]; mirrors_go; exact IH.
Qed.

Lemma setAddresses_blind : blind setAddresses.
Proof.
  intros v d. open_setAddresses. mirrors_go.
  mirrors_call delRemovals_blind. mirrors_call addAdditions_blind.
Qed.

Lemma setIPTables_blind : blind setIPTables.
Proof. intros v d. open_setIPTables. mirrors_go. Qed.

Lemma cleanup_blind (c : ctxId) : blind (cleanup c).
Proof. intros v d. open_cleanup. mirrors_go. Qed.

Lemma applySteps_blind (start : time) : blind (applySteps start).
Proof.
  intros v d. open_applySteps. mirrors_call setAddresses_blind.
  mirrors_call setIPTables_blind.
Qed.

Lemma parityBlock_blind (force : bool) (start : time) :
  blind (parityBlock force start).
Proof. intros v d. open_parityBlock. destruct force; mirrors_go. Qed.

Lemma applyConf_blind (force : bool) : blind (applyConf force).
Proof.
  intros v d. unfold applyConf. mirrors_go.
  mirrors_call parityBlock_blind. apply applySteps_blind.
Qed.

Lemma reconfigure_blind (force : bool) : blind (reconfigure force).
Proof.
  intros v d. unfold reconfigure.
  cbn [bind pbind perform logf fst snd]. do 2 (apply mirrors_vis; intro).
  apply mirrors_pbind; [apply applyConf_blind |].
  intros [[e |] | msg] d0; mirrors_go.
Qed.

Lemma Start_blind : blind Start.
Proof. intros v d. unfold Start. mirrors_go. Qed.

Lemma Stop_blind : blind Stop.
Proof.
  intros v d. unfold Stop. mirrors_go.
  apply mirrors_pbind; [| intros o d0; mirrors_go].
  unfold defer. apply mirrors_pbind; [| intros o d0; mirrors_go].
  change (set_reconfiguring true (set_forcedReconfigure v d))
    with (set_forcedReconfigure v (set_reconfiguring true d)).
  mirrors_call cleanup_blind.
Qed.

Lemma blind_run {R : Type} (m : M R) (v : bool) (d : director) (w : W) :
  blind m ->
  run env m (set_forcedReconfigure v d) w =
    Ran (out (run env m d w)) (set_forcedReconfigure v (dir (run env m d w)))
      (events (run env m d w)) (world (run env m d w)).
Proof.
  intros H. unfold run. rewrite (mirrors_exec v _ _ (H v d) w). reflexivity.
Qed.

(** X29. No method reads the [forcedReconfigure] setting that [NewDirector]
    stores: with the setting changed, [Start], [Stop], [applyConf] and
    [reconfigure] make the same calls, in the same worlds, return the same
    result, and leave the same director, the setting apart. *)
Theorem forcedReconfigure_is_never_read (v force : bool) (d : director)
    (w : W) :
  let same {R : Type} (m : M R) :=
    run env m (set_forcedReconfigure v d) w =
      Ran (out (run env m d w)) (set_forcedReconfigure v (dir (run env m d w)))
        (events (run env m d w)) (world (run env m d w)) in
  same Start /\ same Stop /\ same (applyConf force) /\ same (reconfigure force).
Proof.
  intros same. subst same. cbv beta.
  split; [apply blind_run, Start_blind |].
  split; [apply blind_run, Stop_blind |].
  split; [apply blind_run, applyConf_blind |].
  apply blind_run, reconfigure_blind.
Qed.

(** The watch context of a [Start] that returned nil is the one its cancel
    function cancels. *)
Lemma Start_watch_context (d : director) :
  whatever (Start d) (fun t od =>
    fst od = Done None ->
    exists c,
      ctxWatch (snd od) = Some c /\ cxlWatch (snd od) = Some c
      /\ reconfiguring (snd od) = false).
Proof.
  unfold Start. whatever_go; intros H; try discriminate H.
  all: eexists; repeat split.
Qed.

End Theory.

(** ** The input pump *)

Section Pump.
Import Loops.

Lemma pumpStep_never_returns (pc pc' : pumpPc) (s s' : shared) :
  pumpStep pc s = Some (pc', s') -> pc' <> PumpReturned.
Proof.
  destruct pc; simpl; intros H.
  - injection H as <- _. discriminate.
  - injection H as <- _. discriminate.
  - destruct (Nat.ltb _ _); [injection H as <- _ |]; discriminate.
  - destruct (tickReady s); [injection H as <- _ |]; discriminate.
  - discriminate.
Qed.

(** The statements of the pump read neither context: a step it can take
    with the watch context live, it takes alike once it is cancelled. *)
Lemma pumpStep_blind_to_cancellation (pc : pumpPc) (s : shared) (b b' : bool) :
  let cancelled :=
    {| chanBuf := chanBuf s; tickReady := tickReady s; watchDone := b;
       parentDone := b'; watcherNodes := watcherNodes s;
       cachedNode := cachedNode s |} in
  option_map fst (pumpStep pc cancelled) = option_map fst (pumpStep pc s).
Proof.
  destruct pc; simpl; try reflexivity.
  - destruct (Nat.ltb _ _); reflexivity.
  - destruct (tickReady s); reflexivity.
Qed.

(** The sibling loop [watches] returns once the watch context is
    cancelled. *)
Lemma watches_returns_on_cancellation (nodeName : string) (s : shared) :
  watchDone s = true ->
  watchesStep nodeName SelWatchDone WatchesSelect s = Some (WatchesReturned, s).
Proof. intros H. simpl. rewrite H. reflexivity. Qed.

(** With the channel full and nobody receiving, the pump is stuck at its
    send. *)
Lemma pump_blocked_on_full_channel (v : option (list Node)) (s : shared) :
  nodeChanCapacity <= length (chanBuf s) -> pumpStep (PumpSending v) s = None.
Proof.
  intros H. simpl. destruct (Nat.ltb_spec (length (chanBuf s)) nodeChanCapacity);
    [lia | reflexivity].
Qed.

Lemma sysStep_never_returns (st st' : pumpPc * shared) :
  sysStep st st' -> fst st <> PumpReturned -> fst st' <> PumpReturned.
Proof.
  intros H. destruct H as [pc s pc' s' Hstep | pc s s' _ _]; simpl; intros Hpc.
  - exact (pumpStep_never_returns _ _ _ _ Hstep).
  - exact Hpc.
Qed.

(** C6 fails on the code: the loop of [causePeriodicWatcherSync] has no
    case for either context.  From any point of its loop, with the watch
    context cancelled, no interleaving with the rest of the process makes
    the pump return: it keeps logging, sending and waiting for ticks, or
    stays blocked. *)
Theorem pump_never_returns (st st' : pumpPc * shared) :
  watchDone (snd st) = true ->
  fst st <> PumpReturned ->
  clos_refl_trans_1n _ sysStep st st' ->
  fst st' <> PumpReturned /\ watchDone (snd st') = true.
Proof.
  intros Hdone Hpc Hsteps. induction Hsteps as [st | st mid st' Hstep Hrest IH].
  - split; assumption.
  - apply IH.
    + destruct Hstep as [pc s pc' s' Hs | pc s s' Hw _]; simpl in *.
      * destruct pc; simpl in Hs.
        -- injection Hs as _ <-. exact Hdone.
        -- injection Hs as _ <-. exact Hdone.
        -- destruct (Nat.ltb _ _); [injection Hs as _ <- | discriminate].
           exact Hdone.
        -- destruct (tickReady s); [injection Hs as _ <- | discriminate].
           exact Hdone.
        -- discriminate.
      * exact (Hw Hdone).
    + exact (sysStep_never_returns _ _ Hstep Hpc).
Qed.

(** The same under a fixed schedule, as a run of [n] statements. *)
Lemma pumpRun_never_returns (others : shared -> shared) (n : nat)
    (pc : pumpPc) (s : shared) :
  pc <> PumpReturned -> fst (pumpRun others n pc s) <> PumpReturned.
Proof.
  revert pc s. induction n as [| n IH]; simpl; intros pc s Hpc; [exact Hpc |].
  destruct (pumpStep pc (others s)) as [[pc' s'] |] eqn:Hs.
  - apply IH. exact (pumpStep_never_returns _ _ _ _ Hs).
  - apply IH. exact Hpc.
Qed.

(** ** The watch loop *)

Lemma cacheNode_last_match (nodeName : string) (nodes : list Node)
    (cur : option Node) :
  cacheNode nodeName nodes cur =
    match find (fun n => String.eqb (Name n) nodeName) (rev nodes) with
    | Some n => Some n
    | None => cur
    end.
Proof.
  induction nodes as [| n l IH] using rev_ind; [reflexivity |].
  unfold cacheNode in *. rewrite fold_left_app, rev_app_distr. simpl.
  destruct (String.eqb (Name n) nodeName); [reflexivity | exact IH].
Qed.

(** X20. A receive of the watch loop takes the oldest list out of the
    channel and caches the last node of the list that has the director's
    name; when no node of the list has it (or the list is the nil slice),
    the node cached before stays, so a node that left the cluster is never
    cleared.  The loop goes on to its next [select]. *)
Theorem watches_caches_last_match (nodeName : string) (s : shared)
    (nodes : option (list Node)) (rest : list (option (list Node))) :
  chanBuf s = nodes :: rest ->
  exists s',
    watchesStep nodeName SelNodes WatchesSelect s = Some (WatchesSelect, s')
    /\ chanBuf s' = rest
    /\ cachedNode s' =
         match find (fun n => String.eqb (Name n) nodeName)
                 (rev (match nodes with Some l => l | None => [] end)) with
         | Some n => Some n
         | None => cachedNode s
         end
    /\ watchDone s' = watchDone s /\ parentDone s' = parentDone s
    /\ tickReady s' = tickReady s /\ watcherNodes s' = watcherNodes s.
Proof.
  intros Hbuf. simpl. rewrite Hbuf. eexists. split; [reflexivity |].
  simpl. rewrite cacheNode_last_match. repeat split.
Qed.

(** X21. What the pump sends, the watch loop receives.  The send statement
    reads the Watcher's node list when it starts; once the channel is empty
    the send goes through with that list, even if the Watcher's list has
    changed in between, and a receive of the watch loop then caches the
    local node as found in it and leaves the channel empty, so that the
    next send of the pump goes through as well. *)
Theorem pump_send_reaches_watches (nodeName : string) (s0 s : shared) :
  chanBuf s = [] ->
  exists pc s1 s2,
    pumpStep PumpSend s0 = Some (pc, s0)
    /\ pumpStep pc s = Some (PumpTick, s1)
    /\ watchesStep nodeName SelNodes WatchesSelect s1 = Some (WatchesSelect, s2)
    /\ chanBuf s2 = []
    /\ cachedNode s2 =
         match find (fun n => String.eqb (Name n) nodeName)
                 (rev (match watcherNodes s0 with Some l => l | None => [] end)) with
         | Some n => Some n
         | None => cachedNode s
         end
    /\ exists pc' s3,
         pumpStep PumpSend s2 = Some (pc', s2)
         /\ pumpStep pc' s2 = Some (PumpTick, s3).
Proof.
  intros Hbuf. exists (PumpSending (watcherNodes s0)).
  simpl. rewrite Hbuf. simpl.
  do 2 eexists. split; [reflexivity |]. split; [reflexivity |].
  split; [reflexivity |].
  simpl. rewrite cacheNode_last_match.
  split; [reflexivity |]. split; [reflexivity |].
  do 2 eexists. split; reflexivity.
Qed.

(** X22. The channel of the pump holds one list: while nobody receives from
    it (the watch loop has returned), a pump that is in its send with a list
    in the channel stays there for ever with the value it had read, without
    sending, logging or taking a tick, whatever else happens in the
    process. *)
Theorem pump_blocks_without_receiver (others : shared -> shared) (n : nat)
    (v : option (list Node)) (s : shared) :
  (forall s0, chanBuf (others s0) = chanBuf s0) ->
  chanBuf s <> [] ->
  fst (pumpRun others n (PumpSending v) s) = PumpSending v
  /\ chanBuf (snd (pumpRun others n (PumpSending v) s)) = chanBuf s.
Proof.
  intros Hothers. revert s. induction n as [| n IH]; intros s Hbuf.
  - split; reflexivity.
  - cbn [pumpRun].
    assert (Hstuck : pumpStep (PumpSending v) (others s) = None).
    { apply pump_blocked_on_full_channel. rewrite Hothers.
      unfold nodeChanCapacity. destruct (chanBuf s); [congruence | simpl; lia]. }
    rewrite Hstuck.
    destruct (IH (others s)) as [H1 H2]; [rewrite Hothers; exact Hbuf |].
    rewrite H1, H2, Hothers. split; reflexivity.
Qed.

End Pump.

(** ** The goroutines *)

Section GoroutineTheory.
Context {ext : Externals} {rt : Runtime} {W : Type}.
Variable genv : forall c : gcall, W -> gresp c * W.

Lemma gwhatever_weaken {R : Type} (p : gprog R)
    (T T' : list gevent -> R -> Prop) :
  (forall t r, T t r -> T' t r) -> gwhatever p T -> gwhatever p T'.
Proof.
  revert T T'. induction p as [r | c k IH]; simpl; intros T T' HT H.
  - apply HT, H.
  - intros x. apply (IH x (fun t r => T (GEv c x :: t) r)); [| apply H].
    intros t r. apply HT.
Qed.

Lemma gwhatever_gexec {R : Type} (p : gprog R)
    (T : list gevent -> R -> Prop) :
  gwhatever p T ->
  forall w, T (fst (snd (gexec genv p w))) (fst (gexec genv p w)).
Proof.
  revert T. induction p as [r | c k IH]; simpl; intros T H w.
  - exact H.
  - apply (IH _ (fun t r => T (GEv c (fst (genv c w)) :: t) r)), H.
Qed.

Lemma gwhatever_grun {R : Type} (g : G R) (d : director)
    (T : list gevent -> result R * director -> Prop) :
  gwhatever (g d) T ->
  forall w,
    T (gevents (grun genv g d w))
      (gout (grun genv g d w), gdir (grun genv g d w)).
Proof.
  intros H w. pose proof (gwhatever_gexec _ _ H w) as HT.
  unfold grun; simpl. destruct (fst (gexec genv (g d) w)); exact HT.
Qed.

Lemma gwhatever_gpbind {A B : Type} (p : gprog A) (f : A -> gprog B)
    (T : list gevent -> B -> Prop) :
  gwhatever p (fun t1 a => gwhatever (f a) (fun t2 b => T (t1 ++ t2) b)) ->
  gwhatever (gpbind p f) T.
Proof.
  revert T. induction p as [a | c k IH]; simpl; intros T H.
  - exact H.
  - intros x. apply IH. apply H.
Qed.

Lemma gwhatever_gbind {A B : Type} (m : G A) (f : A -> G B) (d : director)
    (T : list gevent -> result B * director -> Prop) :
  gwhatever (m d) (fun t1 od =>
    match fst od with
    | Done a => gwhatever (f a (snd od)) (fun t2 r => T (t1 ++ t2) r)
    | Panicking msg => T t1 (Panicking msg, snd od)
    end) ->
  gwhatever (gbind m f d) T.
Proof.
  intros H. unfold gbind. apply gwhatever_gpbind.
  revert H. apply gwhatever_weaken.
  intros t [o d'] Ho; simpl in *. destruct o; [exact Ho |].
  simpl. rewrite app_nil_r. exact Ho.
Qed.

(** What holds of a method holds of it when a goroutine calls it. *)
Lemma gwhatever_lift {R : Type} (p : prog R)
    (T : list gevent -> R -> Prop) :
  whatever p (fun t r => T (map ofMethod t) r) -> gwhatever (lift p) T.
Proof.
  revert T. induction p as [r | c k IH]; simpl; intros T H.
  - exact H.
  - intros x. apply IH. apply H.
Qed.

(** The events of a method are no [select], ticker or send. *)
Lemma method_events_silent (t : list event) :
  arpsPicks (map ofMethod t) = [] /\ periodicPicks (map ofMethod t) = []
  /\ tickersStopped (map ofMethod t) = []
  /\ doneSent (map ofMethod t) = [] /\ tickersMade (map ofMethod t) = [].
Proof.
  induction t as [| [c x] t (H1 & H2 & H3 & H4 & H5)]; [repeat split |].
  unfold arpsPicks, periodicPicks, tickersStopped, doneSent, tickersMade in *.
  simpl. rewrite H1, H2, H3, H4, H5. repeat split.
Qed.

(* The scrutinee on which the symbolic execution of a goroutine is stuck. *)
Ltac gstuck_on p :=
  lazymatch p with
  | gpbind ?q _ => gstuck_on q
  | gbind ?m _ _ => gstuck_on m
  | gbind ?m _ => gstuck_on m
  | gdefer _ ?b _ => gstuck_on b
  | match ?x with _ => _ end => x
  | ?f _ => gstuck_on f
  end.

Ltac gwhatever_go :=
  repeat first
    [ progress cbn
    | match goal with
      | |- forall x : ?A, _ =>
          let s := type of A in
          lazymatch s with Prop => fail | _ => intro end
      end
    | match goal with
      | |- match ?x with _ => _ end => destruct x
      | |- gwhatever ?p _ =>
          let x := gstuck_on p in
          tryif is_var x then destruct x else destruct x eqn:?
      end ].

(** The loop over the VIPs: each one is advertised, in order, whatever the
    earlier ones answered. *)
Lemma advertise_round (ips : list string) (d : director) :
  gwhatever (advertise ips d) (fun t od =>
    od = (Done tt, d)
    /\ exists answers, map fst answers = ips /\ t = arpRound answers).
Proof.
  induction ips as [| ip rest IH]; gwhatever_go.
  { split; [reflexivity |]. exists []. split; reflexivity. }
  all: revert IH; apply gwhatever_weaken;
    intros t od (Hod & answers & Hips & Ht); split; [exact Hod |].
  - exists ((ip, Some e) :: answers). simpl. rewrite Hips, Ht.
    destruct x, x0. split; reflexivity.
  - exists ((ip, None) :: answers). simpl. rewrite Hips, Ht.
    split; reflexivity.
Qed.

(** A turn of [arps], case by case. *)
Lemma arpsTurn_ends (t : tickerId) (d : director) (watch : ctxId) :
  ctxWatch d = Some watch ->
  gwhatever (arpsTurn t d) (fun tr od =>
    snd od = d
    /\ exists pick rest,
         tr = GEv (SelectArps t (ctx d) watch) pick :: rest
         /\ match pick with
            | ArpsTick =>
                fst od = Done Continue
                /\ match ClusterConfig (watcher d), Nodes (watcher d) with
                   | Some cfg, Some _ =>
                       exists answers,
                         map fst answers = map fst (Config cfg)
                         /\ rest = arpRound answers
                   | _, _ =>
                       rest =
                         [GEv (Method (Log DebugLevel []
                                         "director: configs are nil. skipping arp clear"%string))
                              tt]
                   end
            | ArpsParentDone =>
                fst od = Done Return
                /\ rest =
                     [GEv (Method (Log DebugLevel []
                                     "director: parent context closed. exiting run loop"%string))
                          tt]
            | ArpsWatchDone =>
                fst od = Done Return
                /\ rest =
                     [GEv (Method (Log DebugLevel []
                                     "director: watch context closed. exiting run loop"%string))
                          tt]
            end).
Proof.
  intros Hw. unfold arpsTurn. cbn. rewrite Hw. gwhatever_go.
  { apply gwhatever_gbind.
    eapply gwhatever_weaken; [| apply advertise_round].
    intros tr od (-> & answers & Hips & ->). cbn.
    split; [reflexivity |]. exists ArpsTick, (arpRound answers).
    rewrite app_nil_r. split; [reflexivity |]. split; [reflexivity |].
    exists answers. split; [exact Hips | reflexivity]. }
  all: destruct x; split; [reflexivity |]; do 2 eexists.
  all: split; [reflexivity |]; split; reflexivity.
Qed.

(** X23. A turn of [arps] that takes the ticker case advertises every V4
    VIP of the cluster configuration once, in the order of the [range],
    and goes on after a failure, which it records in the ArpingFailure
    metric and in the log; it advertises nothing when the cluster
    configuration or the node list is nil, and it never advertises a V6
    VIP.  It leaves the loop only in the two cancellation cases. *)
Theorem arps_round_advertises_every_vip (t : tickerId) (d : director)
    (w : W) (watch : ctxId) :
  ctxWatch d = Some watch ->
  let r := grun genv (arpsTurn t) d w in
  exists pick rest,
    gevents r = GEv (SelectArps t (ctx d) watch) pick :: rest
    /\ match pick with
       | ArpsTick =>
           gout r = Done Continue
           /\ match ClusterConfig (watcher d), Nodes (watcher d) with
              | Some cfg, Some _ =>
                  exists answers,
                    map fst answers = map fst (Config cfg)
                    /\ rest = arpRound answers
              | _, _ =>
                  rest =
                    [GEv (Method (Log DebugLevel []
                                    "director: configs are nil. skipping arp clear"%string))
                         tt]
              end
       | ArpsParentDone =>
           gout r = Done Return
           /\ rest =
                [GEv (Method (Log DebugLevel []
                                "director: parent context closed. exiting run loop"%string))
                     tt]
       | ArpsWatchDone =>
           gout r = Done Return
           /\ rest =
                [GEv (Method (Log DebugLevel []
                                "director: watch context closed. exiting run loop"%string))
                     tt]
       end.
Proof.
  intros Hw r.
  exact (proj2 (gwhatever_grun _ d _ (arpsTurn_ends t d watch Hw) w)).
Qed.

Lemma arpRound_silent (answers : list (string * option error)) :
  arpsPicks (arpRound answers) = [] /\ tickersStopped (arpRound answers) = []
  /\ doneSent (arpRound answers) = [].
Proof.
  induction answers as [| [ip [e |]] l (H1 & H2 & H3)]; [repeat split | |].
  all: unfold arpsPicks, tickersStopped, doneSent, arpRound in *; simpl.
  all: rewrite H1, H2, H3; repeat split.
Qed.

(* Reads the cases, the stopped tickers and the signals of a trace made of
   known parts. *)
Ltac read_goroutine :=
  unfold arpsPicks, periodicPicks, tickersStopped, doneSent, tickersMade in *;
  repeat first
    [ rewrite flat_map_app
    | progress simpl
    | match goal with H : flat_map _ _ = _ |- _ => rewrite H end ].

(** A loop whose turns keep the director and stop no ticker, and in which a
    turn goes on or panics only in a timer case and returns or blocks only
    in a cancellation case: it is left at the first cancellation. *)
Lemma loop_until_cancelled {A : Type} (pick : gevent -> list A)
    (timer : A -> bool) (turn : G flow) (d : director)
    (Q B : A -> list (chanId * bool) -> Prop) (NP : Prop) :
  gwhatever (turn d) (fun tr od =>
    snd od = d /\ tickersStopped tr = []
    /\ exists a,
         flat_map pick tr = [a]
         /\ match fst od with
            | Done Continue => timer a = true /\ doneSent tr = []
            | Done Return => timer a = false /\ Q a (doneSent tr)
            | Done Blocked => timer a = false /\ B a (doneSent tr)
            | Panicking _ => timer a = true /\ doneSent tr = [] /\ NP
            end) ->
  forall fuel,
    gwhatever (loop fuel turn d) (fun tr od =>
      snd od = d /\ tickersStopped tr = []
      /\ match fst od with
         | Done Running =>
             length (flat_map pick tr) = fuel
             /\ forallb timer (flat_map pick tr) = true /\ doneSent tr = []
         | Done Returned =>
             exists timers a,
               flat_map pick tr = timers ++ [a]
               /\ length timers < fuel /\ forallb timer timers = true
               /\ timer a = false /\ Q a (doneSent tr)
         | Done Stuck =>
             exists timers a,
               flat_map pick tr = timers ++ [a]
               /\ length timers < fuel /\ forallb timer timers = true
               /\ timer a = false /\ B a (doneSent tr)
         | Panicking _ =>
             length (flat_map pick tr) <= fuel
             /\ forallb timer (flat_map pick tr) = true
             /\ doneSent tr = [] /\ NP
         end).
Proof.
  intros Hturn fuel. induction fuel as [| fuel IH].
  - cbn. repeat split.
  - cbn [loop]. apply gwhatever_gbind.
    revert Hturn. apply gwhatever_weaken.
    intros t1 [o1 d1] (Hd & Hst1 & a & Ha & H1). cbn [fst snd] in *. subst d1.
    destruct o1 as [[| |] | msg].
    + destruct H1 as [Ht1 Hd1]. revert IH. apply gwhatever_weaken.
      intros t2 [o2 d2] (Hd & Hst2 & H2). cbn [fst snd] in *.
      split; [exact Hd |].
      split; [unfold tickersStopped in *; rewrite flat_map_app, Hst1, Hst2;
              reflexivity |].
      unfold doneSent in *. rewrite !flat_map_app, Ha, Hd1. simpl.
      destruct o2 as [[| |] | msg].
      * destruct H2 as (timers & b & Hp & Hn & Ht & Hb & HQ).
        exists (a :: timers), b. rewrite Hp. simpl. rewrite Ht1, Ht.
        repeat split; try assumption. lia.
      * destruct H2 as (Hn & Ht & Hd2). rewrite Hn, Ht1, Ht, Hd2.
        repeat split.
      * destruct H2 as (timers & b & Hp & Hn & Ht & Hb & HB).
        exists (a :: timers), b. rewrite Hp. simpl. rewrite Ht1, Ht.
        repeat split; try assumption. lia.
      * destruct H2 as (Hn & Ht & Hd2 & Hnp). rewrite Ht1, Ht, Hd2.
        repeat split; [lia | exact Hnp].
    + destruct H1 as [Ht1 HQ]. cbn. rewrite app_nil_r.
      split; [reflexivity |]. split; [exact Hst1 |].
      exists [], a. rewrite Ha. repeat split; try assumption. simpl. lia.
    + destruct H1 as [Ht1 HB]. cbn. rewrite app_nil_r.
      split; [reflexivity |]. split; [exact Hst1 |].
      exists [], a. rewrite Ha. repeat split; try assumption. simpl. lia.
    + destruct H1 as (Ht1 & Hd1 & Hnp).
      split; [reflexivity |]. split; [exact Hst1 |].
      rewrite Ha. simpl. rewrite Ht1. repeat split; try assumption. lia.
Qed.

Lemma arpsTurn_summary (t : tickerId) (d : director) (watch : ctxId) :
  ctxWatch d = Some watch ->
  gwhatever (arpsTurn t d) (fun tr od =>
    snd od = d /\ tickersStopped tr = []
    /\ exists a,
         flat_map arpsPick tr = [a]
         /\ match fst od with
            | Done Continue => isArpsTick a = true /\ doneSent tr = []
            | Done Return => isArpsTick a = false /\ doneSent tr = []
            | Done Blocked => isArpsTick a = false /\ False
            | Panicking _ => isArpsTick a = true /\ doneSent tr = [] /\ False
            end).
Proof.
  intros Hw. generalize (arpsTurn_ends t d watch Hw). apply gwhatever_weaken.
  intros tr [o d1] (Hd & pick & rest & -> & Hpick). cbn [fst snd] in *.
  split; [exact Hd |].
  assert (Hsil : arpsPicks rest = [] /\ tickersStopped rest = []
                 /\ doneSent rest = []).
  { destruct pick; destruct Hpick as [_ Hrest]; try (subst rest; repeat split).
    destruct (ClusterConfig (watcher d)) as [cfg |];
      [destruct (Nodes (watcher d)) |].
    - destruct Hrest as (answers & _ & ->). apply arpRound_silent.
    - subst rest. repeat split.
    - subst rest. repeat split. }
  destruct Hsil as (H1 & H2 & H3).
  split; [read_goroutine; reflexivity |].
  exists pick. split; [read_goroutine; reflexivity |].
  destruct pick; destruct Hpick as [-> _]; read_goroutine; repeat split.
Qed.

(** X24. [arps] makes its ticker, of 2000 ms, logs, and then takes the
    ticker case until the first cancellation of either context, at which it
    returns: it returns for no other reason, it never blocks and it never
    panics.  When it returns it has stopped its ticker, as its last call;
    while it runs it has not. *)
Theorem arps_runs_until_cancelled (fuel : nat) (d : director) (w : W)
    (watch : ctxId) :
  ctxWatch d = Some watch ->
  let r := grun genv (arps fuel) d w in
  exists t rest,
    gevents r =
      GEv (NewTicker (2000 * millisecond)%Z) t
        :: GEv (Method (Log InfoLevel []
                          ("director: starting periodic ticker. arp interval "
                             ++ durationString (2000 * millisecond)%Z)%string)) tt
        :: rest
    /\ match gout r with
       | Done Running =>
           arpsPicks rest = repeat ArpsTick fuel /\ tickersStopped rest = []
       | Done Returned =>
           (exists n last,
              n < fuel /\ arpsPicks rest = repeat ArpsTick n ++ [last]
              /\ last <> ArpsTick)
           /\ exists turns, rest = turns ++ [GEv (TickerStop t) tt]
                            /\ tickersStopped turns = []
       | Done Stuck | Panicking _ => False
       end.
Proof.
  intros Hw r. subst r.
  apply (gwhatever_grun (arps fuel) d (fun tr od =>
    exists t rest,
    tr =
      GEv (NewTicker (2000 * millisecond)%Z) t
        :: GEv (Method (Log InfoLevel []
                          ("director: starting periodic ticker. arp interval "
                             ++ durationString (2000 * millisecond)%Z)%string)) tt
        :: rest
    /\ match fst od with
       | Done Running =>
           arpsPicks rest = repeat ArpsTick fuel /\ tickersStopped rest = []
       | Done Returned =>
           (exists n last,
              n < fuel /\ arpsPicks rest = repeat ArpsTick n ++ [last]
              /\ last <> ArpsTick)
           /\ exists turns, rest = turns ++ [GEv (TickerStop t) tt]
                            /\ tickersStopped turns = []
       | Done Stuck | Panicking _ => False
       end)).
  unfold arps. cbn [gbind gpbind gperform gwhatever fst snd]. intros t.
  unfold gdefer. apply gwhatever_gpbind.
  cbn [gbind gpbind gperform glogf gwhatever fst snd]. intros u.
  generalize (loop_until_cancelled arpsPick isArpsTick (arpsTurn t) d
                (fun _ l => l = []) (fun _ _ => False) False
                (arpsTurn_summary t d watch Hw) fuel).
  apply gwhatever_weaken.
  intros tr [o d1] (Hd & Hst & Ho). cbn [fst snd] in *. subst d1. destruct u.
  assert (Hticks : forall l : list arpsCase,
            forallb isArpsTick l = true -> l = repeat ArpsTick (length l)).
  { induction l as [| [] l IHl]; simpl; intros H; try discriminate H;
      [reflexivity |]. rewrite <- (IHl H). reflexivity. }
  destruct o as [[| |] | msg].
  - cbn. intros u. destruct u. exists t. eexists. split; [reflexivity |].
    destruct Ho as (timers & last & Hp & Hn & Ht & Hl & _). split.
    + exists (length timers), last. split; [exact Hn |].
      unfold arpsPicks. rewrite flat_map_app, Hp. simpl. rewrite app_nil_r.
      rewrite <- (Hticks timers Ht). split; [reflexivity |].
      intros ->. discriminate Hl.
    + exists tr. split; [reflexivity | exact Hst].
  - cbn. rewrite app_nil_r. exists t, tr. split; [reflexivity |].
    destruct Ho as (Hn & Ht & _). split; [| exact Hst].
    unfold arpsPicks. rewrite (Hticks _ Ht), Hn. reflexivity.
  - destruct Ho as (_ & _ & _ & _ & _ & _ & []).
  - destruct Ho as (_ & _ & _ & []).
Qed.

Opaque reconfigure.

(** A turn of [periodic], case by case. *)
Lemma periodicTurn_ends (f t : tickerId) (d : director) (watch : ctxId) :
  ctxWatch d = Some watch ->
  gwhatever (periodicTurn f t d) (fun tr od =>
    snd od = d
    /\ exists pick rest,
         tr = GEv (SelectPeriodic f t (ctx d) watch) pick :: rest
         /\ match pick with
            | PeriodicForce => timerCase true d rest (fst od)
            | PeriodicTick => timerCase false d rest (fst od)
            | PeriodicParentDone =>
                fst od = Done Return
                /\ rest =
                     [GEv (Method (Log DebugLevel []
                                     "director: parent context closed. exiting run loop"%string))
                          tt]
            | PeriodicWatchDone =>
                exists received,
                  rest =
                    [GEv (Method (Log DebugLevel []
                                    "director: watch context closed. exiting run loop"%string))
                         tt;
                     GEv (SendDone (doneChan d)) received]
                  /\ fst od = Done (if received then Return else Blocked)
            end).
Proof.
  intros Hw. unfold periodicTurn, timerCase. cbn. rewrite Hw. gwhatever_go.
  all: repeat match goal with u : unit |- _ => destruct u end.
  all: try (apply gwhatever_gbind; unfold method; apply gwhatever_lift;
            eapply whatever_weaken;
              [| apply whatever_and;
                 [apply whatever_self | apply reconfigure_ends]];
            intros ta [oa da] [Hy [Hd _]]; cbn [fst snd] in *; subst da;
            destruct oa as [u | msg]; cbn; rewrite ?app_nil_r;
            (split; [reflexivity |]); do 2 eexists;
            (split; [reflexivity |]); cbn;
            eexists ta, _; (split; [exact Hy |]); split; reflexivity).
  all: repeat match goal with u : unit |- _ => destruct u end.
  all: split; [reflexivity |]; do 2 eexists; split; [reflexivity |].
  all: cbn; try (eexists; split; reflexivity).
  all: repeat split.
Qed.


(** X26. With no cluster configuration loaded, a timer case of [periodic]
    panics on the nil pointer right after its [select], before any call,
    while [arps], which checks the pointer, skips its round and goes on. *)
Theorem periodic_panics_without_configuration (f t ta : tickerId)
    (d : director) (w w' : W) (watch : ctxId) :
  ctxWatch d = Some watch ->
  ClusterConfig (watcher d) = None ->
  let r := grun genv (periodicTurn f t) d w in
  let ra := grun genv (arpsTurn ta) d w' in
  (exists pick rest,
     gevents r = GEv (SelectPeriodic f t (ctx d) watch) pick :: rest
     /\ (isTimer pick = true ->
         gout r = Panicking nilDereference /\ rest = []))
  /\ (exists fl, gout ra = Done fl)
  /\ (In ArpsTick (arpsPicks (gevents ra)) -> gout ra = Done Continue).
Proof.
  intros Hw Hcfg r ra. split; [| split].
  - destruct (gwhatever_grun _ d _ (periodicTurn_ends f t d watch Hw) w)
      as (_ & pick & rest & Hev & Hpick).
    cbn [fst snd] in *. exists pick, rest. split; [exact Hev |].
    intros Htimer. fold r in Hpick.
    destruct pick; try discriminate Htimer; unfold timerCase in Hpick;
      rewrite Hcfg in Hpick; destruct Hpick as [-> ->]; split; reflexivity.
  - destruct (gwhatever_grun _ d _ (arpsTurn_ends ta d watch Hw) w')
      as (_ & pick & rest & _ & Hpick).
    cbn [fst snd] in *. fold ra in Hpick.
    destruct pick; destruct Hpick as [-> _]; eexists; reflexivity.
  - destruct (gwhatever_grun _ d _ (arpsTurn_ends ta d watch Hw) w')
      as (_ & pick & rest & Hev & Hpick).
    cbn [fst snd] in *. fold ra in Hpick, Hev. rewrite Hev.
    assert (Hsil : arpsPicks rest = []).
    { destruct pick; destruct Hpick as [_ Hrest]; try (subst rest; reflexivity).
      rewrite Hcfg in Hrest. subst rest. reflexivity. }
    unfold arpsPicks in *. simpl. rewrite Hsil. simpl.
    intros [Heq | []]. subst pick. exact (proj1 Hpick).
Qed.

Lemma timerCase_silent (force : bool) (d : director) (rest : list gevent)
    (o : result flow) :
  timerCase force d rest o ->
  periodicPicks rest = [] /\ tickersStopped rest = [] /\ doneSent rest = []
  /\ (o = Done Continue \/ exists msg, o = Panicking msg).
Proof.
  unfold timerCase. intros H.
  destruct (ClusterConfig (watcher d)) as [cfg |].
  - destruct (isNilMap (Config cfg)).
    + destruct H as [-> ->]. repeat split. left. reflexivity.
    + destruct (Nodes (watcher d)).
      * destruct H as (ta & oa & _ & -> & ->).
        destruct (method_events_silent ta) as (_ & H2 & H3 & H4 & _).
        unfold periodicPicks, tickersStopped, doneSent in *.
        rewrite !flat_map_app, H2, H3, H4.
        split; [destruct force; reflexivity |].
        split; [destruct force; reflexivity |].
        split; [destruct force; reflexivity |].
        destruct oa; [left; reflexivity | right; eexists; reflexivity].
      * destruct H as [-> ->]. repeat split. left. reflexivity.
  - destruct H as [-> ->]. repeat split. right. eexists. reflexivity.
Qed.

Lemma periodicTurn_summary (f t : tickerId) (d : director) (watch : ctxId) :
  ctxWatch d = Some watch ->
  gwhatever (periodicTurn f t d) (fun tr od =>
    snd od = d /\ tickersStopped tr = []
    /\ exists a,
         flat_map periodicPick tr = [a]
         /\ match fst od with
            | Done Continue => isTimer a = true /\ doneSent tr = []
            | Done Return =>
                isTimer a = false
                /\ doneSent tr =
                     match a with
                     | PeriodicWatchDone => [(doneChan d, true)]
                     | _ => []
                     end
            | Done Blocked =>
                isTimer a = false
                /\ a = PeriodicWatchDone
                   /\ doneSent tr = [(doneChan d, false)]
            | Panicking _ => isTimer a = true /\ doneSent tr = [] /\ True
            end).
Proof.
  intros Hw. generalize (periodicTurn_ends f t d watch Hw).
  apply gwhatever_weaken.
  intros tr [o d1] (Hd & pick & rest & -> & Hpick). cbn [fst snd] in *.
  split; [exact Hd |].
  destruct pick.
  1, 2: destruct (timerCase_silent _ _ _ _ Hpick) as (H1 & H2 & H3 & Ho);
    (split; [read_goroutine; reflexivity |]);
    eexists; (split; [read_goroutine; reflexivity |]);
    destruct Ho as [-> | [msg ->]]; read_goroutine; repeat split.
  - destruct Hpick as [-> ->]. split; [reflexivity |].
    eexists. split; [reflexivity |]. split; reflexivity.
  - destruct Hpick as (received & -> & ->). split; [reflexivity |].
    eexists. split; [reflexivity |].
    destruct received; repeat split.
Qed.

(** How [periodic] ends. *)
Lemma periodic_ends (fuel : nat) (d : director) (watch : ctxId) :
  ctxWatch d = Some watch ->
  gwhatever (periodic fuel d) (fun tr od =>
    exists t f rest,
    tr =
      GEv (NewTicker (second * 2)%Z) t
        :: GEv (Method (Log InfoLevel []
                          ("director: starting periodic ticker. config check "
                             ++ durationString (second * 2)%Z)%string)) tt
        :: GEv (NewTicker (second * 60)%Z) f
        :: rest
    /\ match fst od with
       | Done Running =>
           length (periodicPicks rest) = fuel
           /\ forallb isTimer (periodicPicks rest) = true
           /\ tickersStopped rest = [] /\ doneSent rest = []
       | Done Returned =>
           exists timers last turns,
             periodicPicks rest = timers ++ [last]
             /\ length timers < fuel /\ forallb isTimer timers = true
             /\ isTimer last = false
             /\ rest = turns ++ [GEv (TickerStop f) tt; GEv (TickerStop t) tt]
             /\ tickersStopped turns = []
             /\ doneSent rest =
                  match last with
                  | PeriodicWatchDone => [(doneChan d, true)]
                  | _ => []
                  end
       | Done Stuck =>
           exists timers,
             periodicPicks rest = timers ++ [PeriodicWatchDone]
             /\ length timers < fuel /\ forallb isTimer timers = true
             /\ doneSent rest = [(doneChan d, false)]
             /\ tickersStopped rest = []
       | Panicking _ =>
           forallb isTimer (periodicPicks rest) = true
           /\ doneSent rest = []
           /\ exists turns,
                rest = turns ++ [GEv (TickerStop f) tt; GEv (TickerStop t) tt]
                /\ tickersStopped turns = []
       end).
Proof.
  intros Hw.
  unfold periodic. cbn [gbind gpbind gperform glogf gwhatever fst snd].
  intros t u f. destruct u.
  unfold gdefer at 1. apply gwhatever_gpbind.
  unfold gdefer. apply gwhatever_gpbind.
  generalize (loop_until_cancelled periodicPick isTimer (periodicTurn f t) d
                (fun a l => l = match a with
                                | PeriodicWatchDone => [(doneChan d, true)]
                                | _ => []
                                end)
                (fun a l => a = PeriodicWatchDone
                            /\ l = [(doneChan d, false)]) True
                (periodicTurn_summary f t d watch Hw) fuel).
  apply gwhatever_weaken.
  intros tr [o d1] (Hd & Hst & Ho). cbn [fst snd] in *. subst d1.
  assert (Hstops : forall u1 u2 : unit,
            (tr ++ [GEv (TickerStop f) u1]) ++ [GEv (TickerStop t) u2]
            = tr ++ [GEv (TickerStop f) tt; GEv (TickerStop t) tt]).
  { intros [] []. rewrite <- app_assoc. reflexivity. }
  assert (Hpk : forall u1 u2 : unit,
            periodicPicks ((tr ++ [GEv (TickerStop f) u1])
                             ++ [GEv (TickerStop t) u2])
            = flat_map periodicPick tr).
  { intros u1 u2. unfold periodicPicks. rewrite !flat_map_app. simpl.
    rewrite !app_nil_r. reflexivity. }
  assert (Hds : forall u1 u2 : unit,
            doneSent ((tr ++ [GEv (TickerStop f) u1])
                        ++ [GEv (TickerStop t) u2])
            = doneSent tr).
  { intros u1 u2. unfold doneSent. rewrite !flat_map_app. simpl.
    rewrite !app_nil_r. reflexivity. }
  destruct o as [[| |] | msg]; cbn.
  - intros u1 u2. exists t, f. eexists. split; [reflexivity |].
    destruct Ho as (timers & last & Hp & Hn & Ht & Hl & Hd).
    exists timers, last, tr. rewrite Hpk, Hds.
    repeat split; try assumption. apply Hstops.
  - rewrite !app_nil_r. exists t, f, tr. split; [reflexivity |].
    destruct Ho as (Hn & Ht & Hd). repeat split; assumption.
  - rewrite !app_nil_r. exists t, f, tr. split; [reflexivity |].
    destruct Ho as (timers & last & Hp & Hn & Ht & _ & -> & Hd).
    exists timers. repeat split; assumption.
  - intros u1 u2. exists t, f. eexists. split; [reflexivity |].
    destruct Ho as (_ & Ht & Hd & _). rewrite Hpk, Hds.
    split; [exact Ht |]. split; [exact Hd |].
    exists tr. split; [apply Hstops | exact Hst].
Qed.

(** X27. [periodic] makes the check ticker, of 2 s, logs, makes the forced
    ticker, of 60 s, and then takes timer cases until the first
    cancellation.  On the cancellation of the parent context it returns; on
    that of the watch context it sends on the director's done channel, and
    returns if the signal is received.  When it returns or panics it stops
    the forced ticker and then the check ticker, as its last calls.  When
    nobody receives the signal ([Stop] has given up waiting), it stays
    blocked in the send and its tickers are never stopped.  It sends on the
    done channel at most once, and not at all when the parent context was
    cancelled or when it panics. *)
Theorem periodic_runs_until_cancelled (fuel : nat) (d : director) (w : W)
    (watch : ctxId) :
  ctxWatch d = Some watch ->
  let r := grun genv (periodic fuel) d w in
  exists t f rest,
    gevents r =
      GEv (NewTicker (second * 2)%Z) t
        :: GEv (Method (Log InfoLevel []
                          ("director: starting periodic ticker. config check "
                             ++ durationString (second * 2)%Z)%string)) tt
        :: GEv (NewTicker (second * 60)%Z) f
        :: rest
    /\ match gout r with
       | Done Running =>
           length (periodicPicks rest) = fuel
           /\ forallb isTimer (periodicPicks rest) = true
           /\ tickersStopped rest = [] /\ doneSent rest = []
       | Done Returned =>
           exists timers last turns,
             periodicPicks rest = timers ++ [last]
             /\ length timers < fuel /\ forallb isTimer timers = true
             /\ isTimer last = false
             /\ rest = turns ++ [GEv (TickerStop f) tt; GEv (TickerStop t) tt]
             /\ tickersStopped turns = []
             /\ doneSent rest =
                  match last with
                  | PeriodicWatchDone => [(doneChan d, true)]
                  | _ => []
                  end
       | Done Stuck =>
           exists timers,
             periodicPicks rest = timers ++ [PeriodicWatchDone]
             /\ length timers < fuel /\ forallb isTimer timers = true
             /\ doneSent rest = [(doneChan d, false)]
             /\ tickersStopped rest = []
       | Panicking _ =>
           forallb isTimer (periodicPicks rest) = true
           /\ doneSent rest = []
           /\ exists turns,
                rest = turns ++ [GEv (TickerStop f) tt; GEv (TickerStop t) tt]
                /\ tickersStopped turns = []
       end.
Proof.
  intros Hw r.
  exact (gwhatever_grun _ d _ (periodic_ends fuel d watch Hw) w).
Qed.

End GoroutineTheory.

(** ** The goroutines and the lifecycle *)

Section Handshake.
Context {ext : Externals} {rt : Runtime} {W V : Type}.
Variable env : forall c : call, W -> resp c * W.
Variable genv : forall c : gcall, V -> gresp c * V.

(** X30. The stop handshake: on the director a successful [Start] leaves,
    the context [Stop] cancels is the watch context of the director, on
    which [periodic] waits in its [select]; the channel [Stop] then waits
    on is the one on which [periodic] sends when it leaves on that
    cancellation, and [periodic] sends on no other channel.  [periodic]
    returns exactly when that signal is received. *)
Theorem Stop_and_periodic_meet (fuel : nat) (d : director) (w w' : W)
    (v : V) :
  let r0 := run env Start d w in
  out r0 = Done None ->
  let d1 := dir r0 in
  let rs := run env Stop d1 w' in
  let rp := grun genv (periodic fuel) d1 v in
  exists c waited,
    ctxWatch d1 = Some c
    /\ nth_error (events rs) 0 = Some (Ev (CancelCtx c) tt)
    /\ nth_error (events rs) 2
       = Some (Ev (AwaitDoneOrAfter (doneChan d1) 5000) waited)
    /\ (forall ch received,
          In (ch, received) (doneSent (gevents rp)) ->
          ch = doneChan d1
          /\ gout rp = Done (if received then Returned else Stuck)).
Proof.
  intros r0 Hout d1 rs rp.
  destruct (whatever_run env Start d _ (Start_watch_context d) w Hout)
    as (c & Hctx & Hcxl & Hrec).
  cbn [fst snd] in Hctx, Hcxl, Hrec. fold r0 in Hctx, Hcxl, Hrec.
  fold d1 in Hctx, Hcxl, Hrec.
  destruct (whatever_run env Stop d1 _ (Stop_run d1 c Hrec Hcxl) w')
    as (waited & ctxDestroy & tc & Hev & _).
  fold rs in Hev.
  exists c, waited. split; [exact Hctx |].
  split; [rewrite Hev; reflexivity |].
  split; [rewrite Hev; reflexivity |].
  destruct (gwhatever_grun genv (periodic fuel) d1 _
              (periodic_ends fuel d1 c Hctx) v)
    as (t & f & rest & Hgev & Hend).
  cbn [fst snd] in Hend. fold rp in Hgev, Hend.
  assert (Hds : doneSent (gevents rp) = doneSent rest).
  { rewrite Hgev. reflexivity. }
  rewrite Hds. intros ch received Hin.
  destruct (gout rp) as [[| |] | msg].
  - destruct Hend as (timers & last & turns & _ & _ & _ & _ & _ & _ & Hd).
    rewrite Hd in Hin. destruct last; simpl in Hin; try contradiction.
    destruct Hin as [Heq | []]. injection Heq as <- <-. split; reflexivity.
  - destruct Hend as (_ & _ & _ & Hd). rewrite Hd in Hin. contradiction.
  - destruct Hend as (timers & _ & _ & _ & Hd & _). rewrite Hd in Hin.
    destruct Hin as [Heq | []]. injection Heq as <- <-. split; reflexivity.
  - destruct Hend as (_ & Hd & _). rewrite Hd in Hin. contradiction.
Qed.

End Handshake.

(** * The properties on the scripted environment *)

Section Examples.
Import Fake.
#[local] Existing Instance fakeExt.

(** A steady state: a non-forced apply in iptables colocation finds
    parity. *)
Lemma applyConf_noop_witness :
  let r := run fakeEnv (applyConf false) (running "iptables") (inParity quiet) in
  Exists (fun e => parityAnswer e = Some (true, None)) (events r)
  /\ out r = Done None
  /\ (exists elapsed,
        filter isMetric (calls (events r)) = [MetricsReconfigure "noop" elapsed])
  /\ Forall (fun c => mutating c = false) (calls (events r)).
Proof.
  assert (H : Exists (fun e => parityAnswer e = Some (true, None))
                (events (run fakeEnv (applyConf false) (running "iptables")
                           (inParity quiet)))).
  { vm_compute. do 3 apply Exists_cons_tl. apply Exists_cons_hd. reflexivity. }
  split; [exact H |].
  exact (applyConf_noop fakeEnv (running "iptables") (inParity quiet) H).
Defined.

(** A forced apply on a cold host in iptables colocation runs all three
    steps. *)
Example applyConf_forced_cold_start :
  let r := run fakeEnv (applyConf true) (running "iptables") quiet in
  out r = Done None
  /\ steps (calls (events r)) = [1; 1; 1; 1; 1; 1; 2; 2; 2; 2; 2; 3]
  /\ addrs (world r) = ["10.0.0.1"; "10.0.0.2"]%string.
Proof. vm_compute. repeat split. Qed.

(** A removal that fails: 10.0.0.9 is on the interface and not configured,
    and its deletion fails. *)
Lemma setAddresses_failures_witness :
  let h := with_addrs ["10.0.0.9"%string] (failing ["IP.Del 10.0.0.9"%string] quiet) in
  let r := run fakeEnv setAddresses (running "disabled") h in
  let ev := Ev (IPDel "10.0.0.9") (Some "IP.Del 10.0.0.9 failed"%string) in
  events r = firstn 3 (events r) ++ ev :: []
  /\ out r = Done (Some "IP.Del 10.0.0.9 failed"%string).
Proof.
  cbv zeta.
  assert (H : events (run fakeEnv setAddresses (running "disabled")
                        (with_addrs ["10.0.0.9"%string]
                           (failing ["IP.Del 10.0.0.9"%string] quiet)))
              = firstn 3 (events (run fakeEnv setAddresses (running "disabled")
                                    (with_addrs ["10.0.0.9"%string]
                                       (failing ["IP.Del 10.0.0.9"%string] quiet))))
                  ++ Ev (IPDel "10.0.0.9") (Some "IP.Del 10.0.0.9 failed"%string)
                  :: []).
  { vm_compute. reflexivity. }
  split; [exact H |].
  destruct (setAddresses_failures fakeEnv _ _ _ _ _ "10.0.0.9"%string H)
    as (Hdel & _ & _).
  exact (proj1 (proj2 (Hdel _ eq_refl))).
Defined.

(** An addition that fails is logged and advertised all the same, and the
    next addition is still made. *)
Example setAddresses_add_failure :
  let r := run fakeEnv setAddresses (running "disabled")
             (failing ["IP.Add 10.0.0.1"%string] quiet) in
  out r = Done None
  /\ addsOf (events r) = ["10.0.0.1"; "10.0.0.2"]%string
  /\ addrs (world r) = ["10.0.0.2"%string].
Proof. vm_compute. repeat split. Qed.

(** The restore fails, and so does the write of the dump. *)
Lemma setIPTables_restore_witness :
  let h := failing ["IPTables.Restore"; "ioutil.WriteFile"]%string quiet in
  let r := run fakeEnv setIPTables (running "iptables") h in
  events r = firstn 10 (events r) ++ nth 10 (events r) (Ev TimeNow 0%Z)
               :: skipn 11 (events r)
  /\ out r = Done (Some "IPTables.Restore failed"%string)
  /\ length (skipn 11 (events r)) = 4
  /\ exists n existing generated other,
       node (running "iptables") = Some n
       /\ nth_error (firstn 10 (events r)) 7
          = Some (Ev (IPTablesMerge generated existing)
                    (["-A INPUT -j ACCEPT";
                      "-A RAVEL -m comment --comment node-a"]%string,
                     other, None)).
Proof.
  cbv zeta.
  assert (H : events (run fakeEnv setIPTables (running "iptables")
                        (failing ["IPTables.Restore"; "ioutil.WriteFile"]%string quiet))
              = firstn 10 (events (run fakeEnv setIPTables (running "iptables")
                        (failing ["IPTables.Restore"; "ioutil.WriteFile"]%string quiet)))
                ++ nth 10 (events (run fakeEnv setIPTables (running "iptables")
                        (failing ["IPTables.Restore"; "ioutil.WriteFile"]%string quiet)))
                     (Ev TimeNow 0%Z)
                :: skipn 11 (events (run fakeEnv setIPTables (running "iptables")
                        (failing ["IPTables.Restore"; "ioutil.WriteFile"]%string quiet)))).
  { vm_compute. reflexivity. }
  split; [exact H |].
  destruct (setIPTables_restore fakeEnv _ _ _ _ _
              ["-A INPUT -j ACCEPT"; "-A RAVEL -m comment --comment node-a"]%string H)
    as (Hpre & Hfail & _).
  destruct (Hfail "IPTables.Restore failed"%string) as (Hout & werr & Hpost).
  { vm_compute. reflexivity. }
  split; [exact Hout |]. split; [vm_compute; reflexivity |].
  destruct (Hpre (Some "IPTables.Restore failed"%string))
    as (n & existing & generated & other & Hnode & Hbefore).
  { vm_compute. reflexivity. }
  exists n, existing, generated, other. split; [exact Hnode |].
  rewrite Hbefore. reflexivity.
Defined.

(** The director is started, stopped, and started again. *)
Lemma Start_after_Stop_witness :
  let d := dir started in
  let r1 := run fakeEnv Stop d (world started) in
  let r2 := run fakeEnv Start (dir r1) (world r1) in
  out started = Done None
  /\ out r1 = Done None
  /\ out r2 = Done None
  /\ isStarted (dir r2) = true
  /\ incl [Go Gperiodic; Go Gwatches; Go Garps; Go GcausePeriodicWatcherSync]
       (calls (events r2)).
Proof.
  cbv zeta.
  assert (Hst : isStarted (dir started) = true) by (vm_compute; reflexivity).
  assert (Hrec : reconfiguring (dir started) = false) by (vm_compute; reflexivity).
  assert (Hcxl : cxlWatch (dir started) = Some 4) by (vm_compute; reflexivity).
  assert (Hout : out (run fakeEnv Stop (dir started) (world started)) = Done None)
    by (vm_compute; reflexivity).
  destruct (Start_after_Stop_starts_again fakeEnv (dir started) (world started)
              4 None Hst Hrec Hcxl Hout) as (_ & _ & Hst2 & _ & Hok).
  destruct Hok as [Hout2 Hgo]; [vm_compute; reflexivity |].
  split; [vm_compute; reflexivity |].
  split; [exact Hout |].
  split; [exact Hout2 |].
  split; [exact Hst2 | exact Hgo].
Defined.

(** No configuration is loaded in the Watcher: [cleanup] panics after the
    flush. *)
Example cleanup_without_config_example :
  let d := fst (fst (exec fakeEnv
                       (NewDirector 0 "node-a" "key" true emptyWatcher
                          colocationModeDisabled false) quiet)) in
  let r := run fakeEnv (cleanup 7) d quiet in
  out r = Panicking nilDereference /\ calls (events r) = [IPTablesFlush].
Proof. vm_compute. split; reflexivity. Qed.

(** On a director whose Watcher has loaded no configuration yet, [cleanup]
    flushes and panics, and [Stop], which runs it, panics with it.  On the
    running director the flush and the IPVS teardown fail, the IP teardown
    does not. *)
Lemma cleanup_accumulates_witness :
  let r0 := run fakeEnv (cleanup 7) unconfigured quiet in
  let h := failing ["IPTables.Flush"; "IPVS.Teardown"]%string quiet in
  let r := run fakeEnv (cleanup 7) (running "disabled") h in
  (out r0 = Panicking nilDereference
   /\ calls (events r0) = [IPTablesFlush]
   /\ out (run fakeEnv Stop unconfigured quiet) = Panicking nilDereference)
  /\ calls (events r) =
       [IPTablesFlush; IPTeardown 7 (Config twoVips) (Config6 twoVips);
        IPVSTeardown 7]
  /\ exists msg,
       out r = Done (Some msg)
       /\ contains msg "IPTables.Flush failed" /\ contains msg "IPVS.Teardown failed".
Proof.
  cbv zeta. split.
  { destruct (cleanup_accumulates fakeEnv 7 unconfigured quiet)
      as (e0 & Hev0 & Hout0).
    split; [exact Hout0 |]. split; [rewrite Hev0; reflexivity |].
    vm_compute. reflexivity. }
  destruct (cleanup_accumulates fakeEnv 7 (running "disabled")
              (failing ["IPTables.Flush"; "IPVS.Teardown"]%string quiet))
    as (e1 & e2 & e3 & Hev & _ & Hmsg).
  assert (He : e1 = Some "IPTables.Flush failed"%string /\ e2 = None
               /\ e3 = Some "IPVS.Teardown failed"%string).
  { apply (f_equal (map errorOf)) in Hev. vm_compute in Hev.
    injection Hev as <- <- <-. repeat split. }
  destruct He as (-> & -> & ->).
  split; [rewrite Hev; reflexivity |].
  destruct Hmsg as (msg & Hout & Hin).
  { intros (H & _). discriminate H. }
  exists msg. split; [exact Hout |].
  split; apply Hin; simpl; auto.
Defined.

(** The parity path's IP.Get fails; the parity check is made all the same,
    against the empty address list. *)
Lemma applyConf_get_error_witness :
  let h := failing ["IP.Get"%string] quiet in
  let r := run fakeEnv (applyConf false) (running "disabled") h in
  let ev := Ev IPGet ([], [], Some "IP.Get failed"%string) in
  nth_error (events r) 2 = Some ev
  /\ getAnswer ev = Some ([], [], Some "IP.Get failed"%string)
  /\ nth_error (calls (events r)) 4
     = Some (IPVSCheckConfigParity theWatcher (Some twoVips) []).
Proof.
  cbv zeta.
  assert (H : nth_error
                (events (run fakeEnv (applyConf false) (running "disabled")
                           (failing ["IP.Get"%string] quiet))) 2
              = Some (Ev IPGet ([], [], Some "IP.Get failed"%string)))
    by (vm_compute; reflexivity).
  split; [exact H |]. split; [reflexivity |].
  destruct (applyConf_get_error_not_fatal fakeEnv (running "disabled")
              (failing ["IP.Get"%string] quiet) _ [] [] "IP.Get failed"%string
              H eq_refl) as (start & verdict & rest & Hev & _).
  rewrite Hev. reflexivity.
Defined.

(** C8 as stated fails on a steady state: in iptables colocation, with no
    call answering an error and the apply returning nil, the parity check
    finds parity and [setIPTables] is not entered. *)
Lemma applyConf_iptables_iff_counterexample :
  let r := run fakeEnv (applyConf false) (running "iptables") (inParity quiet) in
  ~ (existsb isSave (calls (events r)) = true <->
     String.eqb (colocationMode (running "iptables")) colocationModeIPTables = true
     /\ existsb answeredError (events r) = false
     /\ out r = Done None).
Proof.
  cbv zeta. intros [_ H].
  assert (Hs : existsb isSave
                 (calls (events (run fakeEnv (applyConf false) (running "iptables")
                                   (inParity quiet)))) = false)
    by (vm_compute; reflexivity).
  rewrite Hs in H. apply Bool.diff_false_true. apply H.
  vm_compute. repeat split.
Qed.

(** After cancellation the pump takes its tick, logs and starts its send,
    in which it is blocked; it has not returned. *)
Lemma pump_never_returns_witness :
  let st' :=
    (Loops.PumpSending (Loops.watcherNodes (snd cancelledPump)),
     Loops.with_tickReady false (snd cancelledPump)) in
  Loops.watchDone (snd cancelledPump) = true
  /\ clos_refl_trans_1n _ Loops.sysStep cancelledPump st'
  /\ fst st' <> Loops.PumpReturned
  /\ Loops.pumpStep (fst st') (snd st') = None.
Proof.
  cbv zeta.
  assert (Hsteps : clos_refl_trans_1n _ Loops.sysStep cancelledPump
                     (Loops.PumpSending (Loops.watcherNodes (snd cancelledPump)),
                      Loops.with_tickReady false (snd cancelledPump))).
  { eapply Relation_Operators.rt1n_trans.
    - apply (Loops.sys_pump Loops.PumpTick (snd cancelledPump) Loops.PumpLog
               (Loops.with_tickReady false (snd cancelledPump))).
      reflexivity.
    - eapply Relation_Operators.rt1n_trans.
      + apply Loops.sys_pump. reflexivity.
      + eapply Relation_Operators.rt1n_trans.
        * apply Loops.sys_pump. reflexivity.
        * apply Relation_Operators.rt1n_refl. }
  split; [reflexivity |]. split; [exact Hsteps |].
  split; [| reflexivity].
  exact (proj1 (pump_never_returns cancelledPump _ eq_refl
                  (fun H => ltac:(discriminate H)) Hsteps)).
Defined.


(** ** Further examples *)

#[local] Existing Instance fakeRuntime.

(** IP.SetARP fails at the first [Start] of a new director: the second
    [Start] is refused and [Stop] panics. *)
Lemma Start_failed_blocks_retry_witness :
  let w := failing ["IP.SetARP"%string] fresh_host in
  let r := run fakeEnv Start fresh_director w in
  out r = Done (Some "director: cleanup - failed to clear arp rules - IP.SetARP failed"%string)
  /\ isStarted (dir r) = true
  /\ out (run fakeEnv Start (dir r) fresh_host) =
       Done (Some "director: director has already been started. a director instance can only be started once"%string)
  /\ out (run fakeEnv Stop (dir r) fresh_host) = Panicking nilDereference
  /\ dir (run fakeEnv Stop (dir r) fresh_host) = dir r.
Proof.
  cbv zeta. split; [vm_compute; reflexivity |].
  assert (Hne : out (run fakeEnv Start fresh_director
                       (failing ["IP.SetARP"%string] fresh_host)) <> Done None)
    by (vm_compute; discriminate).
  destruct (Start_failed_blocks_retry fakeEnv fresh_director
              (failing ["IP.SetARP"%string] fresh_host) fresh_host fresh_host
              eq_refl eq_refl Hne) as (H1 & _ & _ & _ & _ & (H2 & _) & H3).
  destruct (H3 eq_refl) as (H4 & _ & H5).
  split; [exact H1 |]. split; [exact H2 |]. split; [exact H4 | exact H5].
Defined.

(** The running director is stopped while the IPVS teardown fails. *)
Lemma Stop_cancels_waits_and_cleans_witness :
  let r := run fakeEnv Stop (running "disabled")
             (failing ["IPVS.Teardown"%string] quiet) in
  nth_error (calls (events r)) 0 = Some (CancelCtx 4)
  /\ last (calls (events r)) TimeNow = CancelCtx 1
  /\ isStarted (dir r) = false.
Proof.
  cbv zeta.
  destruct (Stop_cancels_waits_and_cleans fakeEnv (running "disabled")
              (failing ["IPVS.Teardown"%string] quiet) 4 eq_refl eq_refl)
    as (waited & ctxDestroy & tc & Hev & _ & Hst).
  split; [rewrite Hev; reflexivity |].
  split; [vm_compute; reflexivity |].
  rewrite Hst. vm_compute. reflexivity.
Defined.

(** The director [NewDirector] built is started and stopped. *)
Lemma Stop_cancels_what_Start_created_witness :
  out started = Done None
  /\ exists done c,
       In (Ev (MakeChan 0) done) (events started)
       /\ In (Ev (ContextWithCancel 0) c) (events started)
       /\ nth_error (calls (events (run fakeEnv Stop (dir started) (world started)))) 0
          = Some (CancelCtx c)
       /\ exists waited,
            nth_error (events (run fakeEnv Stop (dir started) (world started))) 2
            = Some (Ev (AwaitDoneOrAfter done 5000) waited).
Proof.
  assert (Hout : out started = Done None) by (vm_compute; reflexivity).
  split; [exact Hout |].
  destruct (Stop_cancels_what_Start_created fakeEnv fresh_director fresh_host
              (world started) Hout)
    as (done & c & waited & rest & Hdone & Hc & Hev).
  exists done, c. split; [exact Hdone |]. split; [exact Hc |].
  unfold started at 1 3. rewrite Hev.
  split; [reflexivity |]. exists waited. reflexivity.
Defined.

(** An apply in iptables colocation before the watch loop has cached the
    local node. *)
Lemma setIPTables_without_node_witness :
  let r := run fakeEnv setIPTables unconfigured quiet in
  node unconfigured = None
  /\ out r = Panicking nilDereference
  /\ length (events r) = 4.
Proof.
  cbv zeta. split; [reflexivity |].
  destruct (setIPTables_without_node fakeEnv unconfigured quiet eq_refl)
    as (existing & res & Hev & Hout).
  assert (Hres : res = None).
  { apply (f_equal (map errorOf)) in Hev. vm_compute in Hev.
    destruct res; [discriminate Hev | reflexivity]. }
  subst res. split; [exact Hout | rewrite Hev; reflexivity].
Defined.

(** A forced apply whose IPVS step fails. *)
Lemma applyConf_wraps_the_failed_call_witness :
  let r := run fakeEnv (applyConf true) (running "disabled")
             (failing ["IPVS.SetIPVS"%string] quiet) in
  out r = Done (Some "director: unable to configure ipvs with error IPVS.SetIPVS failed"%string)
  /\ exists ev e,
       In ev (events r) /\ errorOf ev = Some e
       /\ failedTo (ev_call ev) <> ""%string.
Proof.
  cbv zeta.
  assert (Hout : out (run fakeEnv (applyConf true) (running "disabled")
                        (failing ["IPVS.SetIPVS"%string] quiet))
                 = Done (Some "director: unable to configure ipvs with error IPVS.SetIPVS failed"%string))
    by (vm_compute; reflexivity).
  split; [exact Hout |].
  destruct (applyConf_wraps_the_failed_call fakeEnv true (running "disabled")
              (failing ["IPVS.SetIPVS"%string] quiet) _ Hout)
    as (ev & e & Hin & He & _ & Hf).
  exists ev, e. repeat split; assumption.
Defined.

(** A forced apply before any configuration is loaded. *)
Lemma applyConf_panics_only_on_nil_witness :
  let r := run fakeEnv (applyConf true) unconfigured quiet in
  out r = Panicking nilDereference
  /\ (ClusterConfig (watcher unconfigured) = None
      \/ node unconfigured = None
         /\ String.eqb (colocationMode unconfigured) colocationModeIPTables = true).
Proof.
  cbv zeta.
  assert (Hout : out (run fakeEnv (applyConf true) unconfigured quiet)
                 = Panicking nilDereference)
    by (vm_compute; reflexivity).
  split; [exact Hout |].
  exact (proj2 (applyConf_panics_only_on_nil fakeEnv true unconfigured quiet
                  _ Hout)).
Defined.

(** No configuration is loaded in the Watcher: [cleanup] panics after the
    flush. *)
Lemma cleanup_without_config_witness :
  let r := run fakeEnv (cleanup 7) unconfigured quiet in
  ClusterConfig (watcher unconfigured) = None
  /\ out r = Panicking nilDereference /\ calls (events r) = [IPTablesFlush].
Proof.
  cbv zeta. split; [reflexivity |].
  exact (cleanup_without_config fakeEnv 7 unconfigured quiet eq_refl).
Defined.

(** The local node has left the cluster: it stays cached. *)
Lemma watches_caches_last_match_witness :
  exists s',
    Loops.watchesStep "node-a" Loops.SelNodes Loops.WatchesSelect nodeGone
      = Some (Loops.WatchesSelect, s')
    /\ Loops.chanBuf s' = []
    /\ Loops.cachedNode s' = Some {| Name := "node-a" |}.
Proof.
  destruct (watches_caches_last_match "node-a" nodeGone
              (Some [ {| Name := "node-b" |} ]) [] eq_refl)
    as (s' & Hstep & Hbuf & Hnode & _).
  exists s'. split; [exact Hstep |]. split; [exact Hbuf |].
  rewrite Hnode. reflexivity.
Defined.

(** The pump reads the node list of the Watcher, the Watcher then loses
    its nodes, and the pump sends the list it had read: the watch loop
    caches the local node. *)
Lemma pump_send_reaches_watches_witness :
  let later :=
    {| Loops.chanBuf := []; Loops.tickReady := false;
       Loops.watchDone := false; Loops.parentDone := false;
       Loops.watcherNodes := None; Loops.cachedNode := None |} in
  exists pc s1 s2,
    Loops.pumpStep Loops.PumpSend idle = Some (pc, idle)
    /\ Loops.pumpStep pc later = Some (Loops.PumpTick, s1)
    /\ Loops.watchesStep "node-a" Loops.SelNodes Loops.WatchesSelect s1
       = Some (Loops.WatchesSelect, s2)
    /\ Loops.cachedNode s2 = Some {| Name := "node-a" |}.
Proof.
  cbv zeta.
  destruct (pump_send_reaches_watches "node-a" idle
              {| Loops.chanBuf := []; Loops.tickReady := false;
                 Loops.watchDone := false; Loops.parentDone := false;
                 Loops.watcherNodes := None; Loops.cachedNode := None |}
              eq_refl)
    as (pc & s1 & s2 & H0 & H1 & H2 & _ & Hnode & _).
  exists pc, s1, s2. split; [exact H0 |]. split; [exact H1 |].
  split; [exact H2 |]. rewrite Hnode. reflexivity.
Defined.

(** After cancellation, with ticks arriving and nobody receiving, the pump
    that holds a list in its channel is still in its send 100 steps
    later. *)
Lemma pump_blocks_without_receiver_witness :
  let s := snd cancelledPump in
  Loops.chanBuf s <> []
  /\ fst (Loops.pumpRun (Loops.with_tickReady true) 100
            (Loops.PumpSending None) s)
     = Loops.PumpSending None.
Proof.
  cbv zeta.
  assert (Hbuf : Loops.chanBuf (snd cancelledPump) <> []) by discriminate.
  split; [exact Hbuf |].
  exact (proj1 (pump_blocks_without_receiver (Loops.with_tickReady true) 100
                  None (snd cancelledPump) (fun s0 => eq_refl) Hbuf)).
Defined.

(** A round of [arps] on a host that has neither VIP on its interface: both
    advertisements fail, and both are made. *)
Lemma arps_round_advertises_every_vip_witness :
  let r := grun fakeGenv (arpsTurn 9) (running "disabled")
             (scripted quiet [ArpsTick] []) in
  gout r = Done Continue
  /\ exists answers,
       map fst answers = ["10.0.0.1"; "10.0.0.2"]%string
       /\ gevents r =
            GEv (SelectArps 9 0 4) ArpsTick :: arpRound answers.
Proof.
  cbv zeta.
  destruct (arps_round_advertises_every_vip fakeGenv 9 (running "disabled")
              (scripted quiet [ArpsTick] []) 4 eq_refl)
    as (pick & rest & Hev & Hpick).
  assert (Hp : pick = ArpsTick).
  { apply (f_equal arpsPicks) in Hev. vm_compute in Hev.
    destruct pick; first [reflexivity | discriminate Hev]. }
  subst pick. destruct Hpick as [Hout (answers & Hips & Hrest)].
  split; [exact Hout |]. exists answers. split; [exact Hips |].
  rewrite Hev, Hrest. reflexivity.
Defined.

(** [arps] takes two ticks and is then cancelled. *)
Lemma arps_runs_until_cancelled_witness :
  let r := grun fakeGenv (arps 5) (running "disabled")
             (scripted quiet [ArpsTick; ArpsTick; ArpsParentDone] []) in
  gout r = Done Returned
  /\ arpsPicks (gevents r) = [ArpsTick; ArpsTick; ArpsParentDone]
  /\ exists t, last (map gev_call (gevents r)) (TickerStop 0) = TickerStop t
               /\ tickersMade (gevents r) = [((2000 * millisecond)%Z, t)].
Proof.
  cbv zeta.
  destruct (arps_runs_until_cancelled fakeGenv 5 (running "disabled")
              (scripted quiet [ArpsTick; ArpsTick; ArpsParentDone] [])
              4 eq_refl)
    as (t & rest & Hev & Hout).
  split; [vm_compute; reflexivity |].
  split; [vm_compute; reflexivity |].
  assert (Ht : t = 1).
  { apply (f_equal tickersMade) in Hev. vm_compute in Hev.
    injection Hev as <-. reflexivity. }
  exists t. subst t. split; vm_compute; reflexivity.
Defined.


(** The check timer fires before any configuration is loaded. *)
Lemma periodic_panics_without_configuration_witness :
  let r := grun fakeGenv (periodicTurn 8 9) unconfigured
             (scripted quiet [] [PeriodicTick]) in
  let ra := grun fakeGenv (arpsTurn 7) unconfigured
              (scripted quiet [ArpsTick] []) in
  gout r = Panicking nilDereference
  /\ gout ra = Done Continue.
Proof.
  cbv zeta.
  destruct (periodic_panics_without_configuration fakeGenv 8 9 7 unconfigured
              (scripted quiet [] [PeriodicTick])
              (scripted quiet [ArpsTick] []) 4 eq_refl eq_refl)
    as ((pick & rest & Hev & Hpanic) & _ & Harps).
  assert (Hp : pick = PeriodicTick).
  { apply (f_equal periodicPicks) in Hev. vm_compute in Hev.
    destruct pick; first [reflexivity | discriminate Hev]. }
  subst pick. split; [exact (proj1 (Hpanic eq_refl)) |].
  apply Harps. vm_compute. left. reflexivity.
Defined.

(** [periodic] takes a check tick and is then stopped through the watch
    context: it signals on the done channel of the director.  When the
    signal is received it stops its tickers and returns; when it is not, it
    stays in the send with both tickers running. *)
Lemma periodic_runs_until_cancelled_witness :
  let heard := scripted (inParity quiet) [] [PeriodicTick; PeriodicWatchDone] in
  let r := grun fakeGenv (periodic 5) (running "disabled") heard in
  let r' := grun fakeGenv (periodic 5) (running "disabled") (deaf heard) in
  (gout r = Done Returned
   /\ doneSent (gevents r) = [(3, true)]
   /\ tickersStopped (gevents r) = [2; 1])
  /\ (gout r' = Done Stuck
      /\ doneSent (gevents r') = [(3, false)]
      /\ tickersStopped (gevents r') = []).
Proof.
  cbv zeta.
  destruct (periodic_runs_until_cancelled fakeGenv 5 (running "disabled")
              (scripted (inParity quiet) [] [PeriodicTick; PeriodicWatchDone])
              4 eq_refl)
    as (t & f & rest & Hev & _).
  destruct (periodic_runs_until_cancelled fakeGenv 5 (running "disabled")
              (deaf (scripted (inParity quiet) []
                       [PeriodicTick; PeriodicWatchDone]))
              4 eq_refl)
    as (t' & f' & rest' & Hev' & _).
  split; (split; [vm_compute; reflexivity |]);
    split; vm_compute; reflexivity.
Defined.

(** The director is started; its periodic loop takes a tick and is then
    stopped through the watch context. *)
Lemma Stop_and_periodic_meet_witness :
  let d1 := dir started in
  let rp := grun fakeGenv (periodic 5) d1
              (scripted (inParity (world started)) []
                 [PeriodicTick; PeriodicWatchDone]) in
  out started = Done None
  /\ ctxWatch d1 = Some 4
  /\ doneSent (gevents rp) = [(doneChan d1, true)]
  /\ gout rp = Done Returned
  /\ nth_error (calls (events (run fakeEnv Stop d1 (world started)))) 2
     = Some (AwaitDoneOrAfter (doneChan d1) 5000).
Proof.
  cbv zeta.
  assert (Hout : out started = Done None) by (vm_compute; reflexivity).
  split; [exact Hout |].
  destruct (Stop_and_periodic_meet fakeEnv fakeGenv 5 fresh_director
              fresh_host (world started)
              (scripted (inParity (world started)) []
                 [PeriodicTick; PeriodicWatchDone]) Hout)
    as (c & waited & Hctx & _ & Hwait & Hsig).
  split; [vm_compute; reflexivity |].
  split; [vm_compute; reflexivity |].
  split.
  - apply (Hsig (doneChan (dir started)) true). vm_compute. left. reflexivity.
  - unfold calls. rewrite (nth_error_map ev_call 2). unfold started in Hwait |- *.
    rewrite Hwait. reflexivity.
Defined.
End Examples.
